(** * Promtail client: batching, delivery with retries, WAL replay and consumer

    A shallow embedding of [clients/pkg/promtail/client/client.go]:
    [getTenantID], [processEntry], [send], [sendBatch], [runSendSide],
    [replayWAL] and the WAL consumer ([newClientConsumer], [ConsumeSeries],
    [ConsumeEntries], [SegmentEnd]); then the label names of [NewMetrics],
    [getWAL] with the writer loop of [runWithWAL], [Sync], and [Stop],
    [StopNow] and [clientWAL.Stop] as far as the channels they close.

    Go values are modelled as follows.
    - [int], [time.Time] and [time.Duration] are [Z] (instants and durations
      in nanoseconds); counters hold integral [float64] values and are [Z].
    - [model.LabelSet], [prometheus.Labels] and the tenant-keyed map of open
      batches are [gmap]s with [string] keys.
    - [error] is the inductive [error]; a nil error is [None].
    - The client's side effects (metrics, logger, HTTP round trips, clock
      readings) are threaded through an explicit [World]; a computation either
      returns, blocks for ever on its environment, or panics ([Res]).
    - What the environment does is an input: the answers of the HTTP server
      ([wire]), the readings of the clock ([clock]), the events the [select]
      of the dispatcher receives ([Event]), the file system and the WAL
      reader ([Platform]).
    - Functions of other files and packages are parameters ([Collaborators],
      [Backoff], [SegmentDeleter]); the batch of [batch.go] is modelled from
      the specification.

    The goroutines that connect the producer, the WAL writer and the
    dispatcher are modelled one at a time; how they interleave is outside
    the model, and so are the panics of other packages. *)

From Stdlib Require Import ZArith String Ascii List Lia.
From stdpp Require Import base option list gmap strings fin_maps.

Open Scope Z_scope.

(** ** Constants of the package *)

Definition contentType : string := "application/x-protobuf".
Definition maxErrMsgLen : nat := 1024.
Definition ReservedLabelTenantID : string := "__tenant_id__".
Definition LatencyLabel : string := "filename".
Definition HostLabel : string := "host".
Definition ClientLabel : string := "client".

(** ** Errors and log lines *)

Inductive error : Type :=
  | ErrHTTPStatus (Status : string) (StatusCode : Z) (line : string)
      (* fmt.Errorf("server returned HTTP status %s (%d): %s", ...) *)
  | ErrOther (msg : string).

Inductive Level := Debug | Warn | Error.

(** ** Entries, streams *)

Abbreviation LabelSet := (gmap string string).

Record logproto_Entry := { Timestamp : Z; Line : string }.

Record api_Entry := { Labels : LabelSet; Entry : logproto_Entry }.

Record Stream := { s_Labels : string; Entries : list logproto_Entry }.

(** ** Configuration and the client value *)

Record BackoffConfig := { MinBackoff : Z; MaxBackoff : Z; MaxRetries : Z }.

Record Config := {
  Name : string;
  URL : string;            (* c.cfg.URL.String() *)
  Host : string;           (* c.cfg.URL.Host *)
  BatchWait : Z;
  BatchSize : Z;
  Backoff_Config : BackoffConfig;
  ExternalLabels : LabelSet;
  Timeout : Z;
  TenantID : string;
  WAL_Dir : string;
  WAL_Enabled : bool
}.

Record client := {
  name : string;
  streamLagLabels : list string;
  cfg : Config;
  externalLabels : LabelSet;
  ctxCancelled : bool;     (* c.ctx.Err() != nil *)
  maxStreams : Z
}.

(** ** Tenant resolution *)

Definition getTenantID (c : client) (labels : LabelSet) : string :=
  match labels !! ReservedLabelTenantID with
  | Some value => value
  | None =>
      if negb (String.eqb (TenantID (cfg c)) "") then TenantID (cfg c)
      else ""
  end.

(** [model.LabelSet.Merge]: the argument's pairs overwrite the receiver's. *)
Definition LabelSet_Merge (l other : LabelSet) : LabelSet := other ∪ l.

Definition processEntry (c : client) (e : api_Entry) : api_Entry * string :=
  let e :=
    if Nat.ltb 0 (size (externalLabels c))
    then {| Labels := LabelSet_Merge (externalLabels c) (Labels e); Entry := Entry e |}
    else e in
  (e, getTenantID c (Labels e)).

(** ** One HTTP attempt *)

Record Request := {
  req_Method : string;
  req_URL : string;
  req_Timeout : Z;                 (* context.WithTimeout(ctx, c.cfg.Timeout) *)
  req_Header : gmap string string;
  req_Body : list Byte.byte
}.

(** What the environment answers to one call of [send]: [http.NewRequest] may
    refuse the request, [c.client.Do] may fail at the transport level, or a
    response arrives. *)
Inductive RoundTrip : Type :=
  | NewRequestError (e : error)
  | DoError (e : error)
  | DoResponse (Status : string) (StatusCode : Z) (Body : string).

Section Send.

(** [UserAgent] is ["promtail/" ++ build.Version]; the version is a link-time
    constant of another package. *)
Variable build_Version : string.

Definition UserAgent : string := "promtail/" +:+ build_Version.

(** The request [send] builds. [Header.Set] files a header under the
    canonical spelling of its name and header names are matched without
    regard to case; the model files it under the name as written. *)
Definition newRequest (c : client) (tenantID : string) (buf : list Byte.byte) : Request :=
  let h : gmap string string := ∅ in
  let h := <["Content-Type" := contentType]> h in
  let h := <["User-Agent" := UserAgent]> h in
  let h := if negb (String.eqb tenantID "") then <["X-Scope-OrgID" := tenantID]> h else h in
  {| req_Method := "POST"; req_URL := URL (cfg c); req_Timeout := Timeout (cfg c);
     req_Header := h; req_Body := buf |}.

(** [bufio.Scanner] over [io.LimitReader(resp.Body, maxErrMsgLen)]: the
    first line of the first [maxErrMsgLen] bytes, without its line end. *)
Fixpoint takeString (n : nat) (s : string) : string :=
  match n, s with
  | S n', String a s' => String a (takeString n' s')
  | _, _ => ""
  end.

Fixpoint untilNewline (s : string) : string :=
  match s with
  | "" => ""
  | String a s' => if Ascii.eqb a "010"%char then "" else String a (untilNewline s')
  end.

Fixpoint dropCR (s : string) : string :=
  match s with
  | "" => ""
  | String a "" => if Ascii.eqb a "013"%char then "" else String a ""
  | String a s' => String a (dropCR s')
  end.

Definition firstLine (body : string) : string :=
  dropCR (untilNewline (takeString maxErrMsgLen body)).

(** [send] returns the request it handed to [c.client.Do] (if it got that
    far), the status and the error. *)
Definition send (c : client) (tenantID : string) (buf : list Byte.byte) (rt : RoundTrip)
  : option Request * (Z * option error) :=
  match rt with
  | NewRequestError err => (None, (-1, Some err))
  | DoError err => (Some (newRequest c tenantID buf), (-1, Some err))
  | DoResponse status code body =>
      (Some (newRequest c tenantID buf),
       (code,
        if negb (Z.quot code 100 =? 2)
        then Some (ErrHTTPStatus status code (firstLine body))
        else None))
  end.

End Send.

(** ** Batches *)

(** Modelled from the spec: the [batch] of [batch.go], which is not among the
    sources at hand ("mapping from label-set to Stream, creation time,
    accumulated size in bytes"); [newBatch] takes the stream ceiling. *)
Record batch := {
  streams : gmap string Stream;
  bytes : Z;
  createdAt : Z;
  b_maxStreams : Z
}.

(** Functions of other files and packages that [client.go] and the batch
    rely on, left open. *)
Class Collaborators := {
  (** the key of an entry's stream: its label set rendered as a string *)
  labelsMapToString : LabelSet → string;
  (** the number of bytes an entry adds to a batch *)
  entrySize : api_Entry → nat;
  (** the admission check of [batch.add]; [None] admits the entry *)
  addCheck : batch → api_Entry → option error;
  (** serialization and compression of a batch to the push payload *)
  marshal : batch → error + list Byte.byte;
  (** [parser.ParseMetric] of prometheus/promql *)
  ParseMetric : string → error + list (string * string)
}.

(** [github.com/grafana/dskit/backoff]: a retry budget that is created from a
    context and a configuration, advanced by [Wait] and queried by [Ongoing]. *)
Class Backoff (B : Type) := {
  backoff_New : bool → BackoffConfig → B;
  backoff_Wait : B → B;
  backoff_Ongoing : B → bool
}.

Section Batch.
Context `{Collaborators}.

(** Modelled from the spec: [newBatch], "created empty"; the argument is the
    stream ceiling, the creation time is the clock reading at creation. *)
Definition newBatch (maxStreams : Z) (now : Z) : batch :=
  {| streams := ∅; bytes := 0; createdAt := now; b_maxStreams := maxStreams |}.

(** Modelled from the spec: [replay], "appends to the stream matching the
    entry's label set (creating the stream if absent)"; "must not fail". *)
Definition replay (b : batch) (e : api_Entry) : batch :=
  let labels := labelsMapToString (Labels e) in
  let stream :=
    match streams b !! labels with
    | Some s => {| s_Labels := s_Labels s; Entries := Entries s ++ [Entry e] |}
    | None => {| s_Labels := labels; Entries := [Entry e] |}
    end in
  {| streams := <[labels := stream]> (streams b);
     bytes := bytes b + Z.of_nat (entrySize e);
     createdAt := createdAt b;
     b_maxStreams := b_maxStreams b |}.

(** Modelled from the spec: [add], "same effect" as [replay] after an
    admission check; a refused entry leaves the batch as it was. *)
Definition add (b : batch) (e : api_Entry) : batch * option error :=
  match addCheck b e with
  | Some err => (b, Some err)
  | None => (replay b e, None)
  end.

(** Modelled from the spec: [sizeBytesAfter], "pure function, no mutation;
    returns the would-be encoded size if entry were added". *)
Definition sizeBytesAfter (b : batch) (e : api_Entry) : Z :=
  bytes b + Z.of_nat (entrySize e).

(** Modelled from the spec: [age], "elapsed time since creation". *)
Definition age (b : batch) (now : Z) : Z := now - createdAt b.

(** The streams of a batch in the order a [range] visits them (Go leaves
    the order unspecified; the model takes the map's enumeration). *)
Definition streamList (b : batch) : list Stream := (map_to_list (streams b)).*2.

Definition entriesCount (b : batch) : nat :=
  sum_list (length ∘ Entries <$> streamList b).

(** Modelled from the spec: [encode], "serializes all streams into the wire
    push format", returning the bytes and the entry count (the number of
    entries over all streams). *)
Definition encode (b : batch) : error + (list Byte.byte * Z) :=
  match marshal b with
  | inl err => inl err
  | inr buf => inr (buf, Z.of_nat (entriesCount b))
  end.

End Batch.

(** ** The world the client acts on *)

Record Metrics := {
  encodedBytes : Z;
  sentBytes : Z;
  droppedBytes : Z;
  sentEntries : Z;
  droppedEntries : Z;
  batchRetries : Z;
  requestDuration : list (Z * Z);          (* (status code, duration), newest first *)
  streamLag : list (gmap string string * Z) (* calls of Set, newest first *)
}.

Record World := {
  metrics : Metrics;
  clock : nat → Z;                 (* the readings of time.Now(), in call order *)
  ticks : nat;                     (* how many readings were taken *)
  wire : list RoundTrip;           (* what the next HTTP attempts will meet *)
  requests : list Request;         (* requests handed to c.client.Do, newest first *)
  sent : list (string * batch);    (* history: the calls of sendBatch, newest first *)
  logs : list (Level * string)     (* logger output, newest first *)
}.

Definition setMetrics (f : Metrics → Metrics) (w : World) : World :=
  {| metrics := f (metrics w); clock := clock w; ticks := ticks w; wire := wire w;
     requests := requests w; sent := sent w; logs := logs w |}.

Definition setTicks (n : nat) (w : World) : World :=
  {| metrics := metrics w; clock := clock w; ticks := n; wire := wire w;
     requests := requests w; sent := sent w; logs := logs w |}.

Definition setWire (s : list RoundTrip) (w : World) : World :=
  {| metrics := metrics w; clock := clock w; ticks := ticks w; wire := s;
     requests := requests w; sent := sent w; logs := logs w |}.

Definition setRequests (l : list Request) (w : World) : World :=
  {| metrics := metrics w; clock := clock w; ticks := ticks w; wire := wire w;
     requests := l; sent := sent w; logs := logs w |}.

Definition setSent (l : list (string * batch)) (w : World) : World :=
  {| metrics := metrics w; clock := clock w; ticks := ticks w; wire := wire w;
     requests := requests w; sent := l; logs := logs w |}.

Definition setLogs (l : list (Level * string)) (w : World) : World :=
  {| metrics := metrics w; clock := clock w; ticks := ticks w; wire := wire w;
     requests := requests w; sent := sent w; logs := l |}.

Definition addEncodedBytes (n : Z) (m : Metrics) : Metrics :=
  {| encodedBytes := encodedBytes m + n; sentBytes := sentBytes m;
     droppedBytes := droppedBytes m; sentEntries := sentEntries m;
     droppedEntries := droppedEntries m; batchRetries := batchRetries m;
     requestDuration := requestDuration m; streamLag := streamLag m |}.

Definition addSentBytes (n : Z) (m : Metrics) : Metrics :=
  {| encodedBytes := encodedBytes m; sentBytes := sentBytes m + n;
     droppedBytes := droppedBytes m; sentEntries := sentEntries m;
     droppedEntries := droppedEntries m; batchRetries := batchRetries m;
     requestDuration := requestDuration m; streamLag := streamLag m |}.

Definition addDroppedBytes (n : Z) (m : Metrics) : Metrics :=
  {| encodedBytes := encodedBytes m; sentBytes := sentBytes m;
     droppedBytes := droppedBytes m + n; sentEntries := sentEntries m;
     droppedEntries := droppedEntries m; batchRetries := batchRetries m;
     requestDuration := requestDuration m; streamLag := streamLag m |}.

Definition addSentEntries (n : Z) (m : Metrics) : Metrics :=
  {| encodedBytes := encodedBytes m; sentBytes := sentBytes m;
     droppedBytes := droppedBytes m; sentEntries := sentEntries m + n;
     droppedEntries := droppedEntries m; batchRetries := batchRetries m;
     requestDuration := requestDuration m; streamLag := streamLag m |}.

Definition addDroppedEntries (n : Z) (m : Metrics) : Metrics :=
  {| encodedBytes := encodedBytes m; sentBytes := sentBytes m;
     droppedBytes := droppedBytes m; sentEntries := sentEntries m;
     droppedEntries := droppedEntries m + n; batchRetries := batchRetries m;
     requestDuration := requestDuration m; streamLag := streamLag m |}.

Definition incBatchRetries (m : Metrics) : Metrics :=
  {| encodedBytes := encodedBytes m; sentBytes := sentBytes m;
     droppedBytes := droppedBytes m; sentEntries := sentEntries m;
     droppedEntries := droppedEntries m; batchRetries := batchRetries m + 1;
     requestDuration := requestDuration m; streamLag := streamLag m |}.

Definition observeRequestDuration (status d : Z) (m : Metrics) : Metrics :=
  {| encodedBytes := encodedBytes m; sentBytes := sentBytes m;
     droppedBytes := droppedBytes m; sentEntries := sentEntries m;
     droppedEntries := droppedEntries m; batchRetries := batchRetries m;
     requestDuration := (status, d) :: requestDuration m; streamLag := streamLag m |}.

Definition setStreamLag (lbls : gmap string string) (v : Z) (m : Metrics) : Metrics :=
  {| encodedBytes := encodedBytes m; sentBytes := sentBytes m;
     droppedBytes := droppedBytes m; sentEntries := sentEntries m;
     droppedEntries := droppedEntries m; batchRetries := batchRetries m;
     requestDuration := requestDuration m; streamLag := (lbls, v) :: streamLag m |}.

(** ** Computations *)

Inductive Halt := Blocked | Panic.

Inductive Res (A : Type) : Type :=
  | Ok (a : A) (w : World)
  | Stop (h : Halt) (w : World).
Arguments Ok {A} a w.
Arguments Stop {A} h w.

Definition M (A : Type) : Type := World → Res A.

#[global] Instance M_ret : MRet M := λ A a w, Ok a w.
#[global] Instance M_bind : MBind M := λ A B f m w,
  match m w with
  | Ok a w' => f a w'
  | Stop h w' => Stop h w'
  end.

Definition modify (f : World → World) : M unit := λ w, Ok tt (f w).
Definition halt {A} (h : Halt) : M A := λ w, Stop h w.

(** [time.Now()] *)
Definition timeNow : M Z := λ w, Ok (clock w (ticks w)) (setTicks (S (ticks w)) w).

(** [level.X(c.logger).Log("msg", msg, ...)] *)
Definition logMsg (l : Level) (msg : string) : M unit :=
  modify (λ w, setLogs ((l, msg) :: logs w) w).

Definition updMetrics (f : Metrics → Metrics) : M unit := modify (setMetrics f).

Definition getWire : M (list RoundTrip) := λ w, Ok (wire w) w.

(** The world that results, whatever the outcome. *)
Definition worldOf {A} (r : Res A) : World :=
  match r with Ok _ w => w | Stop _ w => w end.

(** ** sendBatch *)

(** "Only retry 429s, 500s and connection-level errors": the test under which
    the loop does not break after a failed attempt. *)
Definition retryable (status : Z) : bool :=
  negb ((0 <? status) && negb (status =? 429) && negb (Z.quot status 100 =? 5)).

(** [time.Duration] is an [int64] of nanoseconds. *)
Definition maxDuration : Z := 2 ^ 63 - 1.
Definition minDuration : Z := - 2 ^ 63.

(** [t.Sub(u)] of two instants: "if the result exceeds the maximum (or
    minimum) value that can be stored in a Duration, the maximum (or minimum)
    duration will be returned". The lag gauge is set to the seconds of such
    a duration; the model keeps its nanoseconds. *)
Definition time_Sub (t u : Z) : Z := Z.max minDuration (Z.min maxDuration (t - u)).

(** The value the inner loop leaves in [value] for the label [lbl]. *)
Definition labelValue (lbls : list (string * string)) (lbl : string) : string :=
  foldl (λ value l, if String.eqb l.1 lbl then l.2 else value) "" lbls.

Definition lagLabelSet (c : client) (lbls : list (string * string)) : gmap string string :=
  let lblSet := foldl (λ m lbl, <[lbl := labelValue lbls lbl]> m) ∅ (streamLagLabels c) in
  <[ClientLabel := name c]> (<[HostLabel := Host (cfg c)]> lblSet).

Section Sender.
Context `{Collaborators} {B : Type} `{Backoff B}.
Variable build_Version : string.

(** The loop over [batch.streams] after a successful attempt. *)
Fixpoint updateStreamLag (c : client) (ss : list Stream) : M (option error) :=
  match ss with
  | [] => mret None
  | s :: ss' =>
      match ParseMetric (s_Labels s) with
      | inl err =>
          logMsg Warn "error converting stream label string to label.Labels, cannot update lagging metric";;
          mret (Some err)
      | inr lbls =>
          match last (Entries s) with
          | None => halt Panic   (* s.Entries[len(s.Entries)-1], index out of range *)
          | Some e =>
              now ← timeNow;   (* time.Since(t) is time.Now().Sub(t) *)
              updMetrics (setStreamLag (lagLabelSet c lbls) (time_Sub now (Timestamp e)));;
              updateStreamLag c ss'
          end
      end
  end.

(** The code after the loop, reached with a non-nil [err]. *)
Definition finalError (bufBytes entriesCount : Z) (err : error) : M (option error) :=
  logMsg Error "final error sending batch";;
  updMetrics (addDroppedBytes bufBytes);;
  updMetrics (addDroppedEntries entriesCount);;
  mret (Some err).

(** One timed call of [send]: it takes the next round trip off the wire. *)
Definition attempt (c : client) (tenantID : string) (buf : list Byte.byte)
    (rt : RoundTrip) (rest : list RoundTrip) : M (Z * option error) :=
  start ← timeNow;
  let '(req, r) := send build_Version c tenantID buf rt in
  modify (setWire rest);;
  modify (λ w, match req with Some q => setRequests (q :: requests w) w | None => w end);;
  stop ← timeNow;
  updMetrics (observeRequestDuration r.1 (stop - start));;
  mret r.

(** The [for] loop of [sendBatch], run against the round trips to come. With
    none left the attempt never returns. *)
Fixpoint sendLoop (c : client) (tenantID : string) (b : batch) (buf : list Byte.byte)
    (entriesCount : Z) (script : list RoundTrip) (bo : B) : M (option error) :=
  match script with
  | [] => halt Blocked
  | rt :: rest =>
      r ← attempt c tenantID buf rt rest;
      match r.2 with
      | None =>
          updMetrics (addSentBytes (Z.of_nat (length buf)));;
          updMetrics (addSentEntries entriesCount);;
          updateStreamLag c (streamList b)
      | Some err =>
          if (0 <? r.1) && negb (r.1 =? 429) && negb (Z.quot r.1 100 =? 5)
          then finalError (Z.of_nat (length buf)) entriesCount err
          else
            logMsg Warn "error sending batch, will retry";;
            updMetrics incBatchRetries;;
            let bo := backoff_Wait bo in
            if negb (backoff_Ongoing bo)
            then finalError (Z.of_nat (length buf)) entriesCount err
            else sendLoop c tenantID b buf entriesCount rest bo
      end
  end.

Definition sendBatch (c : client) (tenantID : string) (b : batch) : M (option error) :=
  modify (λ w, setSent ((tenantID, b) :: sent w) w);;
  match encode b with
  | inl err =>
      logMsg Error "error encoding batch";;
      mret (Some err)
  | inr (buf, entriesCount) =>
      updMetrics (addEncodedBytes (Z.of_nat (length buf)));;
      let backoff := backoff_New (ctxCancelled c) (Backoff_Config (cfg c)) in
      script ← getWire;
      sendLoop c tenantID b buf entriesCount script backoff
  end.

End Sender.

(** ** The dispatcher loop *)

(** What the [select] of [runSendSide] receives: an entry from the channel,
    the close of the channel, or a tick of [maxWaitCheck]. *)
Inductive Event : Type :=
  | EvEntry (e : api_Entry)
  | EvClosed
  | EvTick.

Definition millisecond : Z := 1000000.

Definition maxWaitCheckFrequency (c : client) : Z :=
  let minWaitCheckFrequency := 10 * millisecond in
  let maxWaitCheckFrequency := Z.quot (BatchWait (cfg c)) 10 in
  if maxWaitCheckFrequency <? minWaitCheckFrequency then minWaitCheckFrequency
  else maxWaitCheckFrequency.

Section Dispatcher.
Context `{Collaborators} {B : Type} `{Backoff B}.
Variable build_Version : string.

(** [c.newBatch(tenantID)] is [newBatch(0)], whatever the tenant. *)
Definition client_newBatch (c : client) (tenantID : string) : M batch :=
  now ← timeNow;
  mret (newBatch 0 now).

(** The [case e, ok := <-entries] arm for [ok = true]. The boolean tells
    whether the loop goes on ([break] out of the [select]) or the function
    returns. *)
Definition handleEntry (c : client) (batches : gmap string batch) (e : api_Entry)
  : M (gmap string batch * bool) :=
  let '(e, tenantID) := processEntry c e in
  match batches !! tenantID with
  | None =>
      b ← client_newBatch c tenantID;
      mret (<[tenantID := (add b e).1]> batches, true)
  | Some batch =>
      if BatchSize (cfg c) <? sizeBytesAfter batch e then
        sendBatch build_Version c tenantID batch;;
        new ← client_newBatch c tenantID;
        mret (<[tenantID := (add new e).1]> batches, true)
      else
        match add batch e with
        | (batch, Some err) =>
            logMsg Error "batch add err";;
            updMetrics (addDroppedEntries 1);;
            mret (<[tenantID := batch]> batches, false)
        | (batch, None) => mret (<[tenantID := batch]> batches, true)
        end
  end.

(** The [case <-maxWaitCheck.C] arm, over the batches that were open when
    the [range] started. *)
Fixpoint flushAged (c : client) (open : list (string * batch)) (batches : gmap string batch)
  : M (gmap string batch) :=
  match open with
  | [] => mret batches
  | (tenantID, batch) :: open' =>
      now ← timeNow;
      if age batch now <? BatchWait (cfg c) then flushAged c open' batches
      else
        sendBatch build_Version c tenantID batch;;
        flushAged c open' (delete tenantID batches)
  end.

Definition handleTick (c : client) (batches : gmap string batch) : M (gmap string batch) :=
  flushAged c (map_to_list batches) batches.

(** The deferred function: "Send all pending batches". *)
Fixpoint sendAll (c : client) (open : list (string * batch)) : M unit :=
  match open with
  | [] => mret tt
  | (tenantID, batch) :: open' =>
      sendBatch build_Version c tenantID batch;;
      sendAll c open'
  end.

Definition deferred (c : client) (batches : gmap string batch) : M unit :=
  sendAll c (map_to_list batches).

(** The [for { select { ... } }] loop against the events to come. With none
    left the [select] waits for ever. *)
Fixpoint dispatch (c : client) (events : list Event) (batches : gmap string batch) : M unit :=
  match events with
  | [] => halt Blocked
  | EvClosed :: _ => deferred c batches
  | EvEntry e :: events' =>
      '(batches, ok) ← handleEntry c batches e;
      if ok : bool then dispatch c events' batches else deferred c batches
  | EvTick :: events' =>
      batches ← handleTick c batches;
      dispatch c events' batches
  end.

Definition runSendSide (c : client) (entries : list Event) : M unit :=
  dispatch c entries ∅.

End Dispatcher.

(** ** Replay of the WAL at startup *)

(** A record of the WAL as [ingester.DecodeWALRecord] leaves it in [rec]. *)
Record WALRecord := {
  rec_decodeErr : option error;
  rec_Series : list (Z * LabelSet);
  rec_RefEntries : list (Z * list logproto_Entry)
}.

Inductive StatResult : Type :=
  | StatInfo (isDir : bool)
  | StatNotExist (err : error)     (* os.IsNotExist(err) *)
  | StatFailed (err : error).      (* any other error *)

(** The file system and the WAL reader, as the replay meets them. *)
Record Platform := {
  path_Join : string → string → string;
  os_Stat : string → StatResult;
  filepath_Glob : string → list string;
  wal_NewWalReader : string → error + list WALRecord
}.

(** [tenantDir[strings.LastIndex(tenantDir, "/")+1:]] *)
Fixpoint afterLastSlash (s cur : string) : string :=
  match s with
  | "" => cur
  | String a s' => if Ascii.eqb a "/"%char then afterLastSlash s' s' else afterLastSlash s' cur
  end.

(** The loop that keeps the matches that are directories; [f.IsDir()] on the
    nil [f] of a failed [os.Stat] panics ([None]). *)
Fixpoint tenantDirsOf (p : Platform) (matches : list string) : option (list string) :=
  match matches with
  | [] => Some []
  | m :: matches' =>
      match os_Stat p m with
      | StatInfo isDir =>
          rest ← tenantDirsOf p matches';
          Some (if isDir then m :: rest else rest)
      | _ => None
      end
  end.

Section Replay.
Context `{Collaborators} {B : Type} `{Backoff B}.
Variable build_Version : string.

(** [for _, e := range samples.Entries], with its [break]. *)
Fixpoint replayEntries (c : client) (tenantID : string) (l : LabelSet)
    (es : list logproto_Entry) (b : batch) : M batch :=
  match es with
  | [] => mret b
  | e :: es' =>
      let entry := {| Labels := l; Entry := e |} in
      if BatchSize (cfg c) <? sizeBytesAfter b entry then
        sendBatch build_Version c tenantID b;;
        new ← client_newBatch c tenantID;
        mret (replay new entry)
      else replayEntries c tenantID l es' (replay b entry)
  end.

(** [for _, samples := range rec.RefEntries] *)
Fixpoint replaySamples (c : client) (tenantID : string) (seriesRecs : gmap Z LabelSet)
    (refEntries : list (Z * list logproto_Entry)) (b : batch) : M batch :=
  match refEntries with
  | [] => mret b
  | (ref, es) :: rest =>
      match seriesRecs !! ref with
      | Some l =>
          b ← replayEntries c tenantID l es b;
          replaySamples c tenantID seriesRecs rest b
      | None => replaySamples c tenantID seriesRecs rest b
      end
  end.

Definition recordSeries (seriesRecs : gmap Z LabelSet) (series : list (Z * LabelSet))
  : gmap Z LabelSet :=
  foldl (λ m s, <[s.1 := s.2]> m) seriesRecs series.

(** [for r.Next()] *)
Fixpoint replayRecords (c : client) (tenantID : string) (records : list WALRecord)
    (seriesRecs : gmap Z LabelSet) (b : batch) : M batch :=
  match records with
  | [] => mret b
  | rec :: records' =>
      (if rec_decodeErr rec is Some _
       then logMsg Warn "failed to decode a wal record" else mret tt);;
      let seriesRecs := recordSeries seriesRecs (rec_Series rec) in
      b ← replaySamples c tenantID seriesRecs (rec_RefEntries rec) b;
      replayRecords c tenantID records' seriesRecs b
  end.

(** [for _, tenantDir := range tenantDirs] *)
Fixpoint replayTenants (c : client) (p : Platform) (tenantDirs : list string)
  : M (option error) :=
  match tenantDirs with
  | [] => mret None
  | tenantDir :: rest =>
      let tenantID := afterLastSlash tenantDir tenantDir in
      match wal_NewWalReader p tenantDir with
      | inl err => mret (Some err)
      | inr records =>
          now ← timeNow;
          b ← replayRecords c tenantID records ∅ (newBatch 0 now);
          sendBatch build_Version c tenantID b;;
          replayTenants c p rest
      end
  end.

Definition replayWAL (c : client) (p : Platform) : M (option error) :=
  let clientBaseWALDir := path_Join p (WAL_Dir (cfg c)) (name c) in
  match os_Stat p clientBaseWALDir with
  | StatNotExist err => mret (Some err)
  | _ =>
      let matches := filepath_Glob p (clientBaseWALDir +:+ "/*") in
      match tenantDirsOf p matches with
      | None => halt Panic
      | Some tenantDirs =>
          if (length matches <? 1)%nat then mret None
          else replayTenants c p tenantDirs
      end
  end.

End Replay.

(** ** The WAL consumer *)

Class SegmentDeleter (D : Type) := DeleteSegment : D → Z → D * option error.

Record clientConsumer (D : Type) := {
  series : gmap Z LabelSet;
  currentBatch : batch;
  cc_sendBatch : batch → M (option error);
  segmentDeleter : D
}.
Arguments series {D} _.
Arguments currentBatch {D} _.
Arguments cc_sendBatch {D} _.
Arguments segmentDeleter {D} _.

Section Consumer.
Context `{Collaborators} {D : Type} `{SegmentDeleter D}.

Definition newClientConsumer (sendBatch : batch → M (option error)) (segmentDeleter : D)
  : M (clientConsumer D) :=
  now ← timeNow;
  mret {| series := ∅; currentBatch := newBatch 0 now;
          cc_sendBatch := sendBatch; segmentDeleter := segmentDeleter |}.

Definition ConsumeSeries (c : clientConsumer D) (series_ : Z * LabelSet)
  : clientConsumer D * option error :=
  ({| series := <[series_.1 := series_.2]> (series c); currentBatch := currentBatch c;
      cc_sendBatch := cc_sendBatch c; segmentDeleter := segmentDeleter c |}, None).

Definition ConsumeEntries (c : clientConsumer D) (samples : Z * list logproto_Entry)
  : M (clientConsumer D * option error) :=
  match series c !! samples.1 with
  | Some l =>
      let b := foldl (λ b e, replay b {| Labels := l; Entry := e |}) (currentBatch c) samples.2 in
      mret ({| series := series c; currentBatch := b;
               cc_sendBatch := cc_sendBatch c; segmentDeleter := segmentDeleter c |}, None)
  | None =>
      logMsg Debug "series for sample not found";;
      mret (c, None)
  end.

Definition SegmentEnd (c : clientConsumer D) (segmentNum : Z) : M (clientConsumer D) :=
  err ← cc_sendBatch c (currentBatch c);
  match err with
  | None =>
      logMsg Debug "batch sent successfully. Deleting segment";;
      let '(d, err) := DeleteSegment (segmentDeleter c) segmentNum in
      (if err is Some _
       then logMsg Error "failed to delete segment after sending batch" else mret tt);;
      mret {| series := series c; currentBatch := currentBatch c;
              cc_sendBatch := cc_sendBatch c; segmentDeleter := d |}
  | Some _ => mret c
  end.

End Consumer.

(** ** The label names of the lag gauge *)

(** [streamLagLabelsMerged] of [NewMetrics]: the label names the lag gauge
    is declared with. *)
Definition streamLagLabelsMerged (streamLagLabels : list string) : list string :=
  [HostLabel; ClientLabel] ++ streamLagLabels.

(** ** The WALs of the client *)

(** [clientWAL]. A watcher is known by the WAL whose directory it reads;
    the calls of [watcher.Stop()] are recorded. *)
Record clientWAL (W : Type) := {
  tenantWALs : gmap string W;
  watchers : gmap string W;
  readChannelClosed : bool;
  stopped : list string     (* tenants whose watcher was stopped, newest first *)
}.
Arguments tenantWALs {W} _.
Arguments watchers {W} _.
Arguments readChannelClosed {W} _.
Arguments stopped {W} _.

(** [wal.Sync()] of the WAL interface. *)
Class Syncer (W : Type) := wal_Sync : W → option error.

(** The client as [Stop] and [StopNow] see it. *)
Record Running (W : Type) := {
  entriesClosed : bool;     (* close(c.entries) happened *)
  onceDone : bool;          (* c.once has run *)
  cancelCalled : bool;      (* c.cancel() was called *)
  wal : clientWAL W
}.
Arguments entriesClosed {W} _.
Arguments onceDone {W} _.
Arguments cancelCalled {W} _.
Arguments wal {W} _.

Section WAL.
Context {W : Type}.

Definition newClientWAL : clientWAL W :=
  {| tenantWALs := ∅; watchers := ∅; readChannelClosed := false; stopped := [] |}.

(** [created] is what [newWAL] returns if it is called. *)
Definition getWAL (cw : clientWAL W) (tenant : string) (created : error + W)
  : M (clientWAL W * (option W * option error)) :=
  match tenantWALs cw !! tenant with
  | Some w => mret (cw, (Some w, None))
  | None =>
      match created with
      | inl err =>
          logMsg Error "could not start WAL";;
          mret (cw, (None, Some err))
      | inr wal =>
          mret ({| tenantWALs := <[tenant := wal]> (tenantWALs cw);
                   watchers := <[tenant := wal]> (watchers cw);
                   readChannelClosed := readChannelClosed cw;
                   stopped := stopped cw |},
                (Some wal, None))
      end
  end.

(** The loop of [receiveAndWriteToWAL] in [runWithWAL], over the entries the
    channel delivers before it is closed, each with what [newWAL] returns if
    it is called for it. [written] records the calls of [writeEntryToWAL]:
    the entry, the WAL (nil when [getWAL] failed) and the tenant. *)
Fixpoint receiveAndWriteToWAL (c : client) (entries : list (api_Entry * (error + W)))
    (cw : clientWAL W) (written : list (api_Entry * option W * string))
  : M (clientWAL W * list (api_Entry * option W * string)) :=
  match entries with
  | [] => mret (cw, written)
  | (e, created) :: entries' =>
      let '(e, tenantID) := processEntry c e in
      r ← getWAL cw tenantID created;
      receiveAndWriteToWAL c entries' r.1 ((e, r.2.1, tenantID) :: written)
  end.

(** [for _, wal := range c.wal.tenantWALs], with the WALs it has synced. *)
Fixpoint syncAll `{Syncer W} (wals : list W) (synced : list W) : list W * option error :=
  match wals with
  | [] => (synced, None)
  | wal :: wals' =>
      match wal_Sync wal with
      | Some err => (wal :: synced, Some err)
      | None => syncAll wals' (wal :: synced)
      end
  end.

Definition Sync `{Syncer W} (cw : clientWAL W) : list W * option error :=
  syncAll (map_to_list (tenantWALs cw)).*2 [].

(** [clientWAL.Stop]: closing a channel that is closed panics. *)
Definition clientWAL_Stop (cw : clientWAL W) : M (clientWAL W) :=
  let stopped := rev (map_to_list (watchers cw)).*1 ++ stopped cw in
  if readChannelClosed cw then halt Panic
  else mret {| tenantWALs := tenantWALs cw; watchers := watchers cw;
               readChannelClosed := true; stopped := stopped |}.

(** [client.Stop], under another name than the constructor [Stop] of [Res];
    [c.wg.Wait()] waits for the dispatcher and has no state of its own. *)
Definition client_Stop (s : Running W) : M (Running W) :=
  let s :=
    if onceDone s then s
    else {| entriesClosed := true; onceDone := true; cancelCalled := cancelCalled s;
            wal := wal s |} in
  cw ← clientWAL_Stop (wal s);
  mret {| entriesClosed := entriesClosed s; onceDone := onceDone s;
          cancelCalled := cancelCalled s; wal := cw |}.

Definition StopNow (s : Running W) : M (Running W) :=
  client_Stop {| entriesClosed := entriesClosed s; onceDone := onceDone s;
                 cancelCalled := true; wal := wal s |}.

(** The client as [newClient] returns it. *)
Definition fresh : Running W :=
  {| entriesClosed := false; onceDone := false; cancelCalled := false;
     wal := newClientWAL |}.

End WAL.

(** ** Concrete collaborators, for running the model *)

Module Demo.

Definition quote : ascii := ascii_of_nat 34.

(** Label sets print as [{name="value", ...}], as [model.LabelSet.String]
    does. *)
Definition renderPair (kv : string * string) : string :=
  kv.1 +:+ "=" +:+ String quote (kv.2 +:+ String quote "").

Fixpoint joinWith (sep : string) (l : list string) : string :=
  match l with
  | [] => ""
  | [x] => x
  | x :: l' => x +:+ sep +:+ joinWith sep l'
  end.

Definition renderLabels (l : LabelSet) : string :=
  "{" +:+ joinWith ", " (renderPair <$> map_to_list l) +:+ "}".

(** A reader of that syntax which, like the PromQL parser, only takes
    label names made of letters, digits and underscores. *)
Definition nameChar (a : ascii) : bool :=
  let n := nat_of_ascii a in
  ((65 <=? n) && (n <=? 90) || (97 <=? n) && (n <=? 122) ||
   (48 <=? n) && (n <=? 57) || (n =? 95))%nat.

Inductive pstate :=
  | PStart | PName (n : string) | PQuote (n : string)
  | PValue (n v : string) | PSep | PSpace | PDone.

Definition snoc (s : string) (a : ascii) : string := s +:+ String a "".

Fixpoint parseFrom (st : pstate) (acc : list (string * string)) (s : string)
  : option (list (string * string)) :=
  match s with
  | "" => if st is PDone then Some (rev acc) else None
  | String a s' =>
      match st with
      | PStart => if Ascii.eqb a "{" then parseFrom (PName "") acc s' else None
      | PName n =>
          if nameChar a then parseFrom (PName (snoc n a)) acc s'
          else if Ascii.eqb a "=" && negb (String.eqb n "") then parseFrom (PQuote n) acc s'
          else if Ascii.eqb a "}" && String.eqb n "" && bool_decide (acc = []) then parseFrom PDone acc s'
          else None
      | PQuote n => if Ascii.eqb a quote then parseFrom (PValue n "") acc s' else None
      | PValue n v =>
          if Ascii.eqb a quote then parseFrom PSep ((n, v) :: acc) s'
          else parseFrom (PValue n (snoc v a)) acc s'
      | PSep =>
          if Ascii.eqb a "," then parseFrom PSpace acc s'
          else if Ascii.eqb a "}" then parseFrom PDone acc s'
          else None
      | PSpace => if Ascii.eqb a " " then parseFrom (PName "") acc s' else None
      | PDone => None
      end
  end.

Definition parseLabels (s : string) : error + list (string * string) :=
  match parseFrom PStart [] s with
  | Some l => inr l
  | None => inl (ErrOther "parse error: unexpected character inside braces")
  end.

(** An admission check that refuses one marked line, and a marshaller that
    refuses a batch holding a stream with no labels. *)
#[global] Instance collaborators : Collaborators := {|
  labelsMapToString := renderLabels;
  entrySize := λ e, String.length (Line (Entry e));
  addCheck := λ b e,
    if String.eqb (Line (Entry e)) "refused" then Some (ErrOther "refused") else None;
  marshal := λ b,
    if bool_decide (is_Some (streams b !! "{}")) then inl (ErrOther "marshal")
    else inr (repeat Byte.x00 (Z.to_nat (bytes b)));
  ParseMetric := parseLabels
|}.

(** The retry budget of dskit: [MaxRetries] attempts (none means without
    end), cut short when the context is cancelled. *)
Record dskitBackoff := {
  bk_cfg : BackoffConfig;
  bk_cancelled : bool;
  bk_numRetries : Z
}.

#[global] Instance backoff : Backoff dskitBackoff := {|
  backoff_New := λ cancelled cfg,
    {| bk_cfg := cfg; bk_cancelled := cancelled; bk_numRetries := 0 |};
  backoff_Wait := λ b,
    {| bk_cfg := bk_cfg b; bk_cancelled := bk_cancelled b;
       bk_numRetries := bk_numRetries b + 1 |};
  backoff_Ongoing := λ b,
    negb (bk_cancelled b) &&
    ((MaxRetries (bk_cfg b) =? 0) || (bk_numRetries b <? MaxRetries (bk_cfg b)))
|}.

(** A deleter that records the segments it was asked to delete. *)
#[global] Instance deleter : SegmentDeleter (list Z) := λ d n, (n :: d, None).

Definition config : Config := {|
  Name := "demo"; URL := "http://loki:3100/loki/api/v1/push"; Host := "loki:3100";
  BatchWait := 1000 * millisecond; BatchSize := 10;
  Backoff_Config := {| MinBackoff := 500 * millisecond; MaxBackoff := 5000 * millisecond;
                       MaxRetries := 3 |};
  ExternalLabels := ∅; Timeout := 10000 * millisecond; TenantID := "static";
  WAL_Dir := "/wal"; WAL_Enabled := false
|}.

Definition theClient : client := {|
  name := "demo"; streamLagLabels := ["filename"]; cfg := config;
  externalLabels := ∅; ctxCancelled := false; maxStreams := 0
|}.

Definition noMetrics : Metrics := {|
  encodedBytes := 0; sentBytes := 0; droppedBytes := 0; sentEntries := 0;
  droppedEntries := 0; batchRetries := 0; requestDuration := []; streamLag := []
|}.

(** A world whose clock advances by one on each reading and whose server
    answers as [script] says. *)
Definition world (script : list RoundTrip) : World := {|
  metrics := noMetrics; clock := λ n, 100 + Z.of_nat n; ticks := 0; wire := script;
  requests := []; sent := []; logs := []
|}.

Definition entry (labels : list (string * string)) (t : Z) (line : string) : api_Entry :=
  {| Labels := list_to_map labels; Entry := {| Timestamp := t; Line := line |} |}.

Definition ok200 : RoundTrip := DoResponse "200 OK" 200 "".
Definition err500 : RoundTrip := DoResponse "500 Internal Server Error" 500 "boom".
Definition err400 : RoundTrip := DoResponse "400 Bad Request" 400 "bad".
Definition err429 : RoundTrip := DoResponse "429 Too Many Requests" 429 "slow down".

Definition version : string := "2.8.0".

End Demo.

(** * Notions used in the statements *)

(** The request has the tenant header exactly when there is a tenant. *)
Definition carriesTenant (tenantID : string) (q : Request) : Prop :=
  (tenantID ≠ "" ↔ req_Header q !! "X-Scope-OrgID" = Some tenantID) ∧
  (tenantID = "" ↔ req_Header q !! "X-Scope-OrgID" = None).

(** A computation leaves the history of sends and the request log alone. *)
Definition quiet {A} (m : M A) : Prop :=
  ∀ w, sent (worldOf (m w)) = sent w ∧ requests (worldOf (m w)) = requests w.

(** Status and error of an attempt; they do not depend on the request. *)
Definition outcome (rt : RoundTrip) : Z * option error :=
  match rt with
  | NewRequestError err => (-1, Some err)
  | DoError err => (-1, Some err)
  | DoResponse status code body =>
      (code, if negb (Z.quot code 100 =? 2)
             then Some (ErrHTTPStatus status code (firstLine body)) else None)
  end.

(** The attempt failed and the loop does not break on its status. *)
Definition isRetryableFailure (rt : RoundTrip) : bool :=
  match (outcome rt).2 with
  | Some _ => retryable (outcome rt).1
  | None => false
  end.

(** The counters other than the lag gauge and the duration histogram. *)
Definition counters (w : World) : Z * Z * Z * Z * Z * Z :=
  let m := metrics w in
  (encodedBytes m, sentBytes m, droppedBytes m, sentEntries m, droppedEntries m,
   batchRetries m).

(** The world after the lag gauge was set for one stream. *)
Definition afterLag (c : client) (lbls : list (string * string)) (e : logproto_Entry)
    (w : World) : World :=
  setMetrics (setStreamLag (lagLabelSet c lbls) (time_Sub (clock w (ticks w)) (Timestamp e)))
    (setTicks (S (ticks w)) w).

(** The world in which the loop of [sendBatch] starts. *)
Definition beforeLoop (tenantID : string) (b : batch) (buf : list Byte.byte) (w : World)
  : World :=
  setMetrics (addEncodedBytes (Z.of_nat (length buf)))
    (setSent ((tenantID, b) :: sent w) w).

(** The value returned, if the computation returns. *)
Definition resultOf {A} (r : Res A) : option A :=
  match r with Ok a _ => Some a | Stop _ _ => None end.

(** A deleter that also records the segment numbers it was asked to delete,
    newest first, whatever the deleter underneath does. *)
#[global] Instance recordingDeleter {D : Type} `{SegmentDeleter D}
  : SegmentDeleter (D * list Z) :=
  λ d n, let '(d', err) := DeleteSegment d.1 n in ((d', n :: d.2), err).

(** An entry as it sits in a batch: the tenant the batch is sent for, the
    label string of its stream, and the entry itself. *)
Abbreviation Item := (string * string * logproto_Entry)%type.

(** The entries of a batch, stream by stream. *)
Definition batchItems (tenantID : string) (b : batch) : list Item :=
  kv ← map_to_list (streams b); (λ e, (tenantID, kv.1, e)) <$> Entries kv.2.

(** A batch respects the maximum size, or holds one entry only. *)
Definition fits (maxSize : Z) (b : batch) : Prop :=
  bytes b ≤ maxSize ∨ entriesCount b = 1%nat.

(** A property of the outcome of a computation: [Q] of the value and the
    world when it returns, [Qs] of the world when it stops. *)
Definition post {A} (r : Res A) (Q : A → World → Prop) (Qs : World → Prop) : Prop :=
  match r with
  | Ok a w => Q a w
  | Stop _ w => Qs w
  end.

(** The entries of a list of batches, and of the open batches. *)
Definition sentItems (l : list (string * batch)) : list Item :=
  tb ← l; batchItems tb.1 tb.2.

Definition openItems (batches : gmap string batch) : list Item :=
  sentItems (map_to_list batches).

(** The invariant of the loops. [F] is a property of batches. The open
    batches and the batches sent so far all have it, and the entries they
    hold are, counted with multiplicity, among [P]. *)
Definition Good (F : batch → Prop) (P : list Item) (batches : gmap string batch)
    (w : World) : Prop :=
  map_Forall (λ _, F) batches ∧ Forall (λ tb, F tb.2) (sent w) ∧
  sentItems (sent w) ++ openItems batches ⊆+ P.

(** The same of the batches sent alone, once the loop is over. *)
Definition GoodSent (F : batch → Prop) (P : list Item) (w : World) : Prop :=
  Forall (λ tb, F tb.2) (sent w) ∧ sentItems (sent w) ⊆+ P.

(** The replay has one open batch, for the tenant it is replaying. *)
Definition Replaying (F : batch → Prop) (P : list Item) (t : string) (b : batch)
    (w : World) : Prop :=
  Good F P {[ t := b ]} w.

(** Between two tenants the replay has no open batch. *)
Definition Idle (F : batch → Prop) (P : list Item) (w : World) : Prop := Good F P ∅ w.

Section Notions.
Context `{Collaborators} {B : Type} `{Backoff B}.
Variable build_Version : string.

Local Abbreviation send := (send build_Version).

(** The world after one attempt. *)
Definition afterAttempt (c : client) (tenantID : string) (buf : list Byte.byte)
    (rt : RoundTrip) (rest : list RoundTrip) (w : World) : World :=
  let r := send c tenantID buf rt in
  {| metrics := observeRequestDuration r.2.1 (clock w (S (ticks w)) - clock w (ticks w))
                  (metrics w);
     clock := clock w; ticks := S (S (ticks w)); wire := rest;
     requests := match r.1 with Some q => q :: requests w | None => requests w end;
     sent := sent w; logs := logs w |}.

(** The world after the bookkeeping of a success, before the lag update. *)
Definition afterSuccess (c : client) (tenantID : string) (buf : list Byte.byte)
    (entriesCount : Z) (rt : RoundTrip) (rest : list RoundTrip) (w : World) : World :=
  setMetrics (addSentEntries entriesCount)
    (setMetrics (addSentBytes (Z.of_nat (length buf)))
       (afterAttempt c tenantID buf rt rest w)).

(** The world after a failed attempt that is to be retried, past the wait. *)
Definition afterRetry (c : client) (tenantID : string) (buf : list Byte.byte)
    (rt : RoundTrip) (rest : list RoundTrip) (w : World) : World :=
  let w1 := afterAttempt c tenantID buf rt rest w in
  setMetrics incBatchRetries
    (setLogs ((Warn, "error sending batch, will retry") :: logs w1) w1).

(** The backoff after [k] waits. *)
Definition waited (k : nat) (bo : B) : B := Nat.iter k backoff_Wait bo.

(** A stream the lag loop can handle: its label string parses and it holds
    an entry. *)
Definition lagReady (s : Stream) : Prop :=
  ∃ lbls e, ParseMetric (s_Labels s) = inr lbls ∧ last (Entries s) = Some e.

(** The call of [Set] the loop makes for the stream it visits at the clock
    reading [now]. *)
Definition lagCall (c : client) (now : Z) (s : Stream) : option (gmap string string * Z) :=
  match ParseMetric (s_Labels s), last (Entries s) with
  | inr lbls, Some e => Some (lagLabelSet c lbls, time_Sub now (Timestamp e))
  | _, _ => None
  end.

(** The entry of an event as the dispatcher files it. *)
Definition entryItem (c : client) (e : api_Entry) : Item :=
  ((processEntry c e).2, labelsMapToString (Labels (processEntry c e).1),
   Entry (processEntry c e).1).

(** The entries of the events the dispatcher receives. *)
Definition eventItems (c : client) (events : list Event) : list Item :=
  ev ← events; match ev with EvEntry e => [entryItem c e] | _ => [] end.

(** The entries a WAL holds, as the replay reads them: per sample record
    with a known series, per record, per tenant directory. *)
Definition entriesItems (t : string) (l : LabelSet) (es : list logproto_Entry) : list Item :=
  (λ e, (t, labelsMapToString l, e)) <$> es.

Fixpoint samplesItems (t : string) (seriesRecs : gmap Z LabelSet)
    (refEntries : list (Z * list logproto_Entry)) : list Item :=
  match refEntries with
  | [] => []
  | (ref, es) :: rest =>
      match seriesRecs !! ref with
      | Some l => entriesItems t l es
      | None => []
      end ++ samplesItems t seriesRecs rest
  end.

Fixpoint recordsItems (t : string) (records : list WALRecord) (seriesRecs : gmap Z LabelSet)
  : list Item :=
  match records with
  | [] => []
  | rec :: records' =>
      let seriesRecs := recordSeries seriesRecs (rec_Series rec) in
      samplesItems t seriesRecs (rec_RefEntries rec) ++ recordsItems t records' seriesRecs
  end.

Fixpoint tenantsItems (p : Platform) (tenantDirs : list string) : list Item :=
  match tenantDirs with
  | [] => []
  | tenantDir :: rest =>
      match wal_NewWalReader p tenantDir with
      | inl _ => []
      | inr records =>
          recordsItems (afterLastSlash tenantDir tenantDir) records ∅ ++ tenantsItems p rest
      end
  end.

Definition walItems (c : client) (p : Platform) : list Item :=
  let clientBaseWALDir := path_Join p (WAL_Dir (cfg c)) (name c) in
  match tenantDirsOf p (filepath_Glob p (clientBaseWALDir +:+ "/*")) with
  | Some tenantDirs => tenantsItems p tenantDirs
  | None => []
  end.

End Notions.

(** ** Notions about strings *)

(** The string has the character. *)
Fixpoint hasChar (a : ascii) (s : string) : bool :=
  match s with
  | "" => false
  | String a' s' => Ascii.eqb a' a || hasChar a s'
  end.

(** What follows the last slash of a string that has one. *)
Fixpoint lastSegment (s : string) : option string :=
  match s with
  | "" => None
  | String a s' =>
      match lastSegment s' with
      | Some r => Some r
      | None => if Ascii.eqb a "/"%char then Some s' else None
      end
  end.

(** ** Notions about runs *)

(** The events the dispatcher receives before its channel is closed. *)
Fixpoint received (events : list Event) : list Event :=
  match events with
  | [] => []
  | EvClosed :: _ => []
  | ev :: events' => ev :: received events'
  end.

(** The computation stopped in a panic. *)
Definition panics {A} (r : Res A) : Prop :=
  match r with
  | Stop Panic _ => True
  | _ => False
  end.

(** [Q] of the value when the computation returns; when it does not, it
    waits and did not panic. *)
Definition unpanicked {A} (r : Res A) (Q : A → Prop) : Prop :=
  match r with
  | Ok a _ => Q a
  | Stop h _ => h = Blocked
  end.

(** Every stream of the batch holds an entry. *)
Definition populated (b : batch) : Prop :=
  map_Forall (λ _ s, Entries s ≠ []) (streams b).

(** A computation may read the clock; it leaves the readings to come as
    they are. *)
Definition steady {A} (m : M A) : Prop :=
  ∀ w, clock (worldOf (m w)) = clock w ∧ (ticks w ≤ ticks (worldOf (m w)))%nat.

(** [os.Stat] gave no [FileInfo] for the path. *)
Definition statFails (p : Platform) (path : string) : Prop :=
  match os_Stat p path with
  | StatInfo _ => False
  | _ => True
  end.

(** ** Notions about the size of a WAL *)

Section Sizes.
Context `{Collaborators}.

(** The bytes the entries of a WAL add to a batch: per sample record with a
    known series, per record, as the replay meets them. *)
Definition entriesBytes (l : LabelSet) (es : list logproto_Entry) : Z :=
  foldr (λ e n, Z.of_nat (entrySize {| Labels := l; Entry := e |}) + n) 0 es.

Fixpoint samplesBytes (seriesRecs : gmap Z LabelSet)
    (refEntries : list (Z * list logproto_Entry)) : Z :=
  match refEntries with
  | [] => 0
  | (ref, es) :: rest =>
      match seriesRecs !! ref with
      | Some l => entriesBytes l es
      | None => 0
      end + samplesBytes seriesRecs rest
  end.

Fixpoint recordsBytes (records : list WALRecord) (seriesRecs : gmap Z LabelSet) : Z :=
  match records with
  | [] => 0
  | rec :: records' =>
      let seriesRecs := recordSeries seriesRecs (rec_Series rec) in
      samplesBytes seriesRecs (rec_RefEntries rec) + recordsBytes records' seriesRecs
  end.

(** The WAL of the tenant directory can be read, and what it holds fits in
    one batch. *)
Definition fitsOneBatch (c : client) (p : Platform) (tenantDir : string) : Prop :=
  match wal_NewWalReader p tenantDir with
  | inr records => recordsBytes records ∅ ≤ BatchSize (cfg c)
  | inl _ => False
  end.

(** The batch, sent for the tenant the directory is named after, holds the
    entries of the directory's WAL. *)
Definition replayedAs (p : Platform) (tenantDir : string) (tb : string * batch) : Prop :=
  tb.1 = afterLastSlash tenantDir tenantDir ∧
  match wal_NewWalReader p tenantDir with
  | inr records => batchItems tb.1 tb.2 ≡ₚ recordsItems tb.1 records ∅
  | inl _ => False
  end.

(** The error of the reader of the first of the directories. *)
Definition readerError (p : Platform) (tenantDirs : list string) : option error :=
  match tenantDirs with
  | [] => None
  | tenantDir :: _ =>
      match wal_NewWalReader p tenantDir with
      | inl err => Some err
      | inr _ => None
      end
  end.

End Sizes.

(** ** Notions about the request histogram *)

(** What the attempts leave in the duration histogram, oldest first: the
    status of each attempt with the time between the two clock readings
    around it, the first of which is reading number [t0]. *)
Fixpoint observed (clock : nat → Z) (t0 : nat) (attempts : list RoundTrip) : list (Z * Z) :=
  match attempts with
  | [] => []
  | rt :: rest =>
      ((outcome rt).1, clock (S t0) - clock t0) :: observed clock (S (S t0)) rest
  end.

(** ** Notions about the order of a stream *)

(** The entries the batch holds for the stream with the label string [k],
    oldest first, if the batch is for the tenant [t]. *)
Definition streamOf (t k : string) (tb : string * batch) : list logproto_Entry :=
  if decide (tb.1 = t)
  then match streams tb.2 !! k with
       | Some s => Entries s
       | None => []
       end
  else [].

(** The entries sent for a stream, in the order of the calls of [sendBatch]
    and, within a batch, of the stream. *)
Definition sentStream (t k : string) (w : World) : list logproto_Entry :=
  rev (sent w) ≫= streamOf t k.

(** The entries of the stream in the open batch of its tenant. *)
Definition openStream (t k : string) (batches : gmap string batch) : list logproto_Entry :=
  match batches !! t with
  | Some b => streamOf t k (t, b)
  | None => []
  end.

(** The entry of an event, if it belongs to the stream. *)
Definition streamEntry `{Collaborators} (c : client) (t k : string) (e : api_Entry)
  : list logproto_Entry :=
  if decide ((processEntry c e).2 = t ∧
             labelsMapToString (Labels (processEntry c e).1) = k)
  then [Entry (processEntry c e).1]
  else [].

(** The entries of the events that belong to a stream, as received. *)
Definition receivedStream `{Collaborators} (c : client) (t k : string)
    (events : list Event) : list logproto_Entry :=
  ev ← events;
  match ev with
  | EvEntry e => streamEntry c t k e
  | _ => []
  end.

(** ** Notions about the answers of the server *)

(** The next [n] attempts, at least, will meet an answer with a 2xx status. *)
Definition answered (n : nat) (w : World) : Prop :=
  ∃ oks rest,
    wire w = oks ++ rest ∧ Forall (λ rt, (outcome rt).2 = None) oks ∧ (n ≤ length oks)%nat.

(** ** Notions about what the replay reads *)

Section Reading.
Context `{Collaborators}.

(** The entries of a sample record the replay reads when the open batch
    holds [n] bytes, with the bytes the open batch holds afterwards: the
    entries that fit and the first that does not, which starts a batch of
    its own. *)
Fixpoint readEntries (maxSize : Z) (l : LabelSet) (es : list logproto_Entry) (n : Z)
  : list logproto_Entry * Z :=
  match es with
  | [] => ([], n)
  | e :: es' =>
      let size := Z.of_nat (entrySize {| Labels := l; Entry := e |}) in
      if maxSize <? n + size then ([e], size)
      else let r := readEntries maxSize l es' (n + size) in (e :: r.1, r.2)
  end.

(** The same over the sample records of a WAL record, over the records of a
    WAL, which starts with an empty batch, and over the tenant directories. *)
Fixpoint samplesRead (maxSize : Z) (t : string) (seriesRecs : gmap Z LabelSet)
    (refEntries : list (Z * list logproto_Entry)) (n : Z) : list Item * Z :=
  match refEntries with
  | [] => ([], n)
  | (ref, es) :: rest =>
      match seriesRecs !! ref with
      | Some l =>
          let r := readEntries maxSize l es n in
          let r' := samplesRead maxSize t seriesRecs rest r.2 in
          (entriesItems t l r.1 ++ r'.1, r'.2)
      | None => samplesRead maxSize t seriesRecs rest n
      end
  end.

Fixpoint recordsRead (maxSize : Z) (t : string) (records : list WALRecord)
    (seriesRecs : gmap Z LabelSet) (n : Z) : list Item * Z :=
  match records with
  | [] => ([], n)
  | rec :: records' =>
      let seriesRecs := recordSeries seriesRecs (rec_Series rec) in
      let r := samplesRead maxSize t seriesRecs (rec_RefEntries rec) n in
      let r' := recordsRead maxSize t records' seriesRecs r.2 in
      (r.1 ++ r'.1, r'.2)
  end.

Fixpoint tenantsRead (maxSize : Z) (p : Platform) (tenantDirs : list string) : list Item :=
  match tenantDirs with
  | [] => []
  | tenantDir :: rest =>
      match wal_NewWalReader p tenantDir with
      | inl _ => []
      | inr records =>
          (recordsRead maxSize (afterLastSlash tenantDir tenantDir) records ∅ 0).1
          ++ tenantsRead maxSize p rest
      end
  end.

Definition walRead (c : client) (p : Platform) : list Item :=
  let clientBaseWALDir := path_Join p (WAL_Dir (cfg c)) (name c) in
  match os_Stat p clientBaseWALDir with
  | StatNotExist _ => []
  | _ =>
      match tenantDirsOf p (filepath_Glob p (clientBaseWALDir +:+ "/*")) with
      | Some tenantDirs => tenantsRead (BatchSize (cfg c)) p tenantDirs
      | None => []
      end
  end.

End Reading.

(** ** Sample data *)

Module Cases.

(** A batch whose only entry has no labels: the demo marshaller refuses it. *)
Definition unlabelled : batch := replay (newBatch 0 0) (Demo.entry [] 1 "a").

(** A batch with a stream whose label name the metric parser refuses. *)
Definition dashed : batch := replay (newBatch 0 0) (Demo.entry [("my-label", "x")] 1 "a").

(** A batch of two streams. *)
Definition twoStreams : batch :=
  replay (replay (replay (newBatch 0 0)
    (Demo.entry [("job", "x")] 10 "a"))
    (Demo.entry [("job", "x")] 20 "b"))
    (Demo.entry [("job", "y"); ("filename", "f.log")] 30 "c").

End Cases.

Module ConsumerRun.

Definition e1 : logproto_Entry := {| Timestamp := 1; Line := "first" |}.
Definition e2 : logproto_Entry := {| Timestamp := 2; Line := "second" |}.
Definition jobX : LabelSet := {[ "job" := "x" ]}.

(** A consumer as [getWAL] builds it, after the series record and the one
    entry of segment 0. *)
Definition start : M (clientConsumer (list Z)) :=
  c ← newClientConsumer (sendBatch Demo.version Demo.theClient "t1") [];
  let c := (ConsumeSeries c (7, jobX)).1 in
  r ← ConsumeEntries c (7, [e1]);
  mret r.1.

(** A consumer in the middle of a segment. *)
Definition busy : clientConsumer (list Z) := {|
  series := {[ 7 := jobX ]};
  currentBatch := Cases.twoStreams;
  cc_sendBatch := sendBatch Demo.version Demo.theClient "t1";
  segmentDeleter := []
|}.

(** Segment 0 ends; then segment 1 brings one more entry and ends. *)
Definition twoSegments : M (clientConsumer (list Z)) :=
  c ← start;
  c ← SegmentEnd c 0;
  r ← ConsumeEntries c (7, [e2]);
  SegmentEnd r.1 1.

End ConsumerRun.

Module Disks.

Definition join (a b : string) : string := a +:+ "/" +:+ b.

(** No WAL directory at all. *)
Definition missing : Platform := {|
  path_Join := join;
  os_Stat := λ p, StatNotExist (ErrOther ("stat " +:+ p +:+ ": no such file or directory"));
  filepath_Glob := λ _, [];
  wal_NewWalReader := λ _, inl (ErrOther "no such directory")
|}.

(** A WAL directory that holds one plain file and no tenant directory. *)
Definition noTenants : Platform := {|
  path_Join := join;
  os_Stat := λ p, StatInfo (String.eqb p "/wal/demo");
  filepath_Glob := λ _, ["/wal/demo/lock"];
  wal_NewWalReader := λ _, inl (ErrOther "not a directory")
|}.

(** A WAL directory whose only entry cannot be stat'ed. *)
Definition unreadable : Platform := {|
  path_Join := join;
  os_Stat := λ p, if String.eqb p "/wal/demo" then StatInfo true
                  else StatFailed (ErrOther ("stat " +:+ p +:+ ": permission denied"));
  filepath_Glob := λ _, ["/wal/demo/t1"];
  wal_NewWalReader := λ _, inl (ErrOther "permission denied")
|}.

End Disks.

Module Refusal.

Definition good : api_Entry := Demo.entry [("job", "x")] 1 "ok".
Definition bad : api_Entry := Demo.entry [("job", "x")] 2 "refused".

(** One open batch, of the tenant ["static"], with room. *)
Definition open : gmap string batch := {[ "static" := replay (newBatch 0 0) good ]}.

End Refusal.

Module Overflowing.

Definition small : api_Entry := Demo.entry [("job", "x")] 1 "aaaaa".
Definition medium : api_Entry := Demo.entry [("job", "x")] 2 "bbbbbbb".
Definition huge : api_Entry := Demo.entry [("job", "x")] 3 "cccccccccccccc".

Definition events : list Event :=
  [EvEntry small; EvEntry medium; EvEntry huge; EvEntry small; EvClosed].

(** A WAL with one tenant directory and one record of four entries. *)
Definition disk : Platform := {|
  path_Join := Disks.join;
  os_Stat := λ p, StatInfo true;
  filepath_Glob := λ _, ["/wal/demo/t1"];
  wal_NewWalReader := λ _,
    inr [{| rec_decodeErr := None;
            rec_Series := [(7, {[ "job" := "x" ]})];
            rec_RefEntries := [(7, Entry <$> [small; medium; huge; small])] |}]
|}.

End Overflowing.


Module Fitting.

Definition a1 : logproto_Entry := {| Timestamp := 1; Line := "aa" |}.
Definition a2 : logproto_Entry := {| Timestamp := 2; Line := "bbb" |}.
Definition b1 : logproto_Entry := {| Timestamp := 3; Line := "cccc" |}.

(** A WAL directory with a plain file and three tenant directories: the
    first two hold little, the third cannot be read. *)
Definition disk : Platform := {|
  path_Join := Disks.join;
  os_Stat := λ p, StatInfo (negb (String.eqb p "/wal/demo/lock"));
  filepath_Glob := λ _, ["/wal/demo/t1"; "/wal/demo/lock"; "/wal/demo/t2"; "/wal/demo/t3"];
  wal_NewWalReader := λ d,
    if String.eqb d "/wal/demo/t1" then
      inr [{| rec_decodeErr := None;
              rec_Series := [(7, {[ "job" := "x" ]})];
              rec_RefEntries := [(7, [a1]); (8, [b1])] |};
           {| rec_decodeErr := Some (ErrOther "corrupt");
              rec_Series := [];
              rec_RefEntries := [(7, [a2])] |}]
    else if String.eqb d "/wal/demo/t2" then
      inr [{| rec_decodeErr := None;
              rec_Series := [(1, {[ "job" := "y" ]})];
              rec_RefEntries := [(1, [b1])] |}]
    else inl (ErrOther "segment missing")
|}.

End Fitting.


Module Negative.

(** A client whose maximum batch size is negative, and a WAL with one tenant
    directory that holds no record. *)
Definition theClient : client := {|
  name := "demo"; streamLagLabels := ["filename"];
  cfg := {| Name := "demo"; URL := "http://loki:3100/loki/api/v1/push"; Host := "loki:3100";
            BatchWait := 1000 * millisecond; BatchSize := -1;
            Backoff_Config := Backoff_Config Demo.config;
            ExternalLabels := ∅; Timeout := 10000 * millisecond; TenantID := "static";
            WAL_Dir := "/wal"; WAL_Enabled := false |};
  externalLabels := ∅; ctxCancelled := false; maxStreams := 0
|}.

Definition disk : Platform := {|
  path_Join := Disks.join;
  os_Stat := λ p, StatInfo true;
  filepath_Glob := λ _, ["/wal/demo/t1"];
  wal_NewWalReader := λ _, inr []
|}.

End Negative.

(** * Properties *)

Ltac unfold_m :=
  unfold mbind, M_bind, mret, M_ret, updMetrics, logMsg, modify, halt, timeNow, getWire in *.

Lemma bind_eq {A C} (m : M A) (f : A → M C) (w : World) :
  (m ≫= f) w = match m w with Ok a w' => f a w' | Stop h w' => Stop h w' end.
Proof. reflexivity. Qed.

(** ** Tenant resolution and routing *)

Lemma processEntry_reserved (c : client) (e : api_Entry) (v : string) :
  Labels e !! ReservedLabelTenantID = Some v → (processEntry c e).2 = v.
Proof.
  intros Hv. unfold processEntry, getTenantID, LabelSet_Merge.
  destruct (Nat.ltb 0 (size (externalLabels c))); simpl.
  - erewrite lookup_union_Some_l by exact Hv. reflexivity.
  - rewrite Hv. reflexivity.
Qed.

Section Routing.
Context `{Collaborators} {B : Type} `{Backoff B}.
Variable build_Version : string.

Lemma handleEntry_touches_one_tenant (c : client) (batches : gmap string batch)
    (e : api_Entry) (w : World) :
  let tenantID := (processEntry c e).2 in
  ∀ batches' ok w',
    handleEntry build_Version c batches e w = Ok (batches', ok) w' →
    is_Some (batches' !! tenantID) ∧
    ∀ t, t ≠ tenantID → batches' !! t = batches !! t.
Proof.
  intros tenantID batches' ok w'. unfold handleEntry. subst tenantID.
  destruct (processEntry c e) as [e' t] eqn:Hp. simpl.
  assert (Hins : ∀ (b : batch) (m : gmap string batch),
             is_Some (<[t := b]> m !! t) ∧ ∀ t', t' ≠ t → <[t := b]> m !! t' = m !! t').
  { intros b m. split; [rewrite lookup_insert_eq; eauto|].
    intros t' Hne. by rewrite lookup_insert_ne. }
  destruct (batches !! t) as [b|] eqn:Hb.
  - destruct (BatchSize (cfg c) <? sizeBytesAfter b e').
    + unfold_m. unfold client_newBatch. unfold_m.
      destruct (sendBatch build_Version c t b w); [|discriminate].
      intros [= <- <- <-]. apply Hins.
    + destruct (add b e') as [b' [err|]]; unfold_m; intros [= <- <- <-]; apply Hins.
  - unfold client_newBatch. unfold_m. intros [= <- <- <-]. apply Hins.
Qed.

End Routing.

(** C8. Tenant resolution returns the value of the reserved label when the
    label set has it, otherwise the configured tenant ID when that is not
    empty, otherwise the empty string; an entry that carries the reserved
    label is processed under that tenant, and the dispatcher touches the
    open batch of that tenant only. *)
Theorem getTenantID_resolution `{Collaborators} {B : Type} `{Backoff B}
    (build_Version : string) (c : client) :
  (∀ labels v, labels !! ReservedLabelTenantID = Some v → getTenantID c labels = v) ∧
  (∀ labels, labels !! ReservedLabelTenantID = None → TenantID (cfg c) ≠ "" →
     getTenantID c labels = TenantID (cfg c)) ∧
  (∀ labels, labels !! ReservedLabelTenantID = None → TenantID (cfg c) = "" →
     getTenantID c labels = "") ∧
  (∀ e v, Labels e !! ReservedLabelTenantID = Some v →
     (processEntry c e).2 = v ∧
     ∀ batches w batches' ok w',
       handleEntry build_Version c batches e w = Ok (batches', ok) w' →
       is_Some (batches' !! v) ∧ ∀ t, t ≠ v → batches' !! t = batches !! t).
Proof.
  split; [|split; [|split]].
  - intros labels v Hv. unfold getTenantID. by rewrite Hv.
  - intros labels Hnone Hcfg. unfold getTenantID. rewrite Hnone.
    destruct (String.eqb_spec (TenantID (cfg c)) ""); [contradiction|reflexivity].
  - intros labels Hnone Hcfg. unfold getTenantID. rewrite Hnone, Hcfg. reflexivity.
  - intros e v Hv. split; [by apply processEntry_reserved|].
    intros batches w batches' ok w' Hrun.
    pose proof (processEntry_reserved c e v Hv) as <-.
    eapply handleEntry_touches_one_tenant; eauto.
Qed.

Lemma getTenantID_resolution_witness :
  getTenantID Demo.theClient (list_to_map [(ReservedLabelTenantID, "t1"); ("job", "x")]) = "t1".
Proof.
  apply (proj1 (@getTenantID_resolution Demo.collaborators _ Demo.backoff
                  Demo.version Demo.theClient)).
  vm_compute. reflexivity.
Defined.

(** ** The tenant header *)

Section Header.
Variable build_Version : string.

Lemma newRequest_header (c : client) (tenantID : string) (buf : list Byte.byte) :
  req_Header (newRequest build_Version c tenantID buf) !! "X-Scope-OrgID"
  = if String.eqb tenantID "" then None else Some tenantID.
Proof.
  unfold newRequest. simpl.
  destruct (String.eqb tenantID ""); simpl.
  - rewrite !lookup_insert_ne by discriminate. apply lookup_empty.
  - apply lookup_insert_eq.
Qed.

Lemma newRequest_carriesTenant (c : client) (tenantID : string) (buf : list Byte.byte) :
  carriesTenant tenantID (newRequest build_Version c tenantID buf).
Proof.
  unfold carriesTenant. rewrite newRequest_header.
  destruct (String.eqb_spec tenantID ""); split; split; try congruence; try done.
Qed.

Lemma send_request (c : client) (tenantID : string) (buf : list Byte.byte) (rt : RoundTrip)
    (q : Request) :
  (send build_Version c tenantID buf rt).1 = Some q →
  q = newRequest build_Version c tenantID buf.
Proof. destruct rt; simpl; congruence. Qed.

End Header.

(** ** Facts about one call of [sendBatch] *)

Section SenderFacts.
Context `{Collaborators} {B : Type} `{Backoff B}.
Variable build_Version : string.

Local Abbreviation send := (send build_Version).
Local Abbreviation attempt := (attempt build_Version).
Local Abbreviation sendLoop := (sendLoop build_Version).
Local Abbreviation sendBatch := (sendBatch build_Version).
Local Abbreviation afterAttempt := (afterAttempt build_Version).

Lemma attempt_eq c tenantID buf rt rest w :
  attempt c tenantID buf rt rest w
  = Ok (send c tenantID buf rt).2 (afterAttempt c tenantID buf rt rest w).
Proof.
  unfold attempt, afterAttempt. unfold_m.
  destruct (send c tenantID buf rt) as [[q|] r]; reflexivity.
Qed.

Lemma finalError_eq bufBytes entriesCount err w :
  finalError bufBytes entriesCount err w
  = Ok (Some err)
      (setMetrics (addDroppedEntries entriesCount)
         (setMetrics (addDroppedBytes bufBytes)
            (setLogs ((Error, "final error sending batch") :: logs w) w))).
Proof. reflexivity. Qed.

Lemma quiet_bind {A C} (m : M A) (f : A → M C) :
  quiet m → (∀ a, quiet (f a)) → quiet (m ≫= f).
Proof.
  intros Hm Hf w. unfold_m. specialize (Hm w).
  destruct (m w) as [a w1|h w1]; simpl in *; [|done].
  destruct (Hf a w1) as [-> ->]. done.
Qed.

Lemma quiet_ret {A} (a : A) : quiet (mret a).
Proof. by intros w. Qed.

Lemma quiet_halt {A} h : quiet (halt (A := A) h).
Proof. by intros w. Qed.

Lemma quiet_updMetrics f : quiet (updMetrics f).
Proof. by intros w. Qed.

Lemma quiet_logMsg l msg : quiet (logMsg l msg).
Proof. by intros w. Qed.

Lemma quiet_timeNow : quiet timeNow.
Proof. by intros w. Qed.

Create HintDb quiet.

#[local] Hint Resolve quiet_ret quiet_halt quiet_updMetrics quiet_logMsg quiet_timeNow : quiet.

Ltac quiet_step :=
  first [ apply quiet_bind; [|intros ?] | solve [auto with quiet] ].

Lemma quiet_updateStreamLag c ss : quiet (updateStreamLag c ss).
Proof.
  induction ss as [|s ss IH]; simpl; [auto with quiet|].
  destruct (ParseMetric (s_Labels s)); [repeat quiet_step|].
  destruct (last (Entries s)); [|auto with quiet].
  repeat quiet_step.
Qed.

Lemma quiet_finalError bufBytes entriesCount err :
  quiet (finalError bufBytes entriesCount err).
Proof. by intros w. Qed.

(** Every request of the loop is the one [send] builds for this tenant and
    payload; the history of sends is not touched. *)
Lemma sendLoop_requests c tenantID b buf entriesCount script bo w :
  let w' := worldOf (sendLoop c tenantID b buf entriesCount script bo w) in
  sent w' = sent w ∧
  ∃ new, requests w' = new ++ requests w ∧
         Forall (λ q, q = newRequest build_Version c tenantID buf) new.
Proof.
  revert bo w. induction script as [|rt rest IH]; intros bo w; simpl.
  { split; [done|]. exists []. by split. }
  rewrite bind_eq, attempt_eq.
  set (w1 := afterAttempt c tenantID buf rt rest w).
  assert (Hw1 : sent w1 = sent w ∧
            ∃ new, requests w1 = new ++ requests w ∧
                   Forall (λ q, q = newRequest build_Version c tenantID buf) new).
  { split; [done|]. subst w1. unfold afterAttempt. simpl.
    destruct (send c tenantID buf rt).1 as [q|] eqn:Hq.
    - exists [q]. split; [done|]. constructor; [|done]. by eapply send_request.
    - exists []. by split. }
  destruct Hw1 as [Hs (new & Hr & Hnew)].
  assert (Hquiet : ∀ m : M (option error), quiet m →
            sent (worldOf (m w1)) = sent w ∧
            ∃ new, requests (worldOf (m w1)) = new ++ requests w ∧
                   Forall (λ q, q = newRequest build_Version c tenantID buf) new).
  { intros m Hm. destruct (Hm w1) as [-> ->]. split; [done|]. by exists new. }
  destruct (send c tenantID buf rt).2 as [status [err|]]; simpl.
  - destruct ((0 <? status) && negb (status =? 429) && negb (status `quot` 100 =? 5)).
    + apply Hquiet, quiet_finalError.
    + unfold_m. simpl.
      destruct (negb (backoff_Ongoing (backoff_Wait bo))).
      * simpl. split; [done|]. by exists new.
      * match goal with |- context [sendLoop _ _ _ _ _ _ _ ?w2] =>
          destruct (IH (backoff_Wait bo) w2) as [IHs (new2 & IHr & IHnew)] end.
        simpl in *. split; [by rewrite IHs|].
        exists (new2 ++ new). rewrite IHr. simpl. rewrite Hr, app_assoc.
        split; [done|]. by apply Forall_app.
  - apply Hquiet. repeat quiet_step. apply quiet_updateStreamLag.
Qed.

Lemma sendBatch_log c tenantID b w :
  let w' := worldOf (sendBatch c tenantID b w) in
  sent w' = (tenantID, b) :: sent w ∧
  ∃ new, requests w' = new ++ requests w ∧
         Forall (carriesTenant tenantID) new.
Proof.
  unfold sendBatch. unfold_m. simpl.
  destruct (encode b) as [err|[buf n]]; simpl.
  { split; [done|]. exists []. by split. }
  match goal with |- context [sendLoop _ _ _ _ _ ?s ?bo ?w2] =>
    destruct (sendLoop_requests c tenantID b buf n s bo w2) as [Hs (new & Hr & Hnew)] end.
  simpl in *. split; [done|]. exists new. split; [done|].
  eapply Forall_impl; [exact Hnew|]. intros q ->. apply newRequest_carriesTenant.
Qed.

End SenderFacts.

(** C9. Every request a delivery attempt hands to the HTTP client carries the
    X-Scope-OrgID header with the tenant ID as its value if and only if the
    tenant ID is not empty, and has no such header if and only if it is
    empty; this holds of the request [send] builds and of every request a
    call of [sendBatch] adds to the log. *)
Theorem tenant_header_iff_nonempty `{Collaborators} {B : Type} `{Backoff B}
    (build_Version : string) (c : client) (tenantID : string) :
  (∀ buf rt q, (send build_Version c tenantID buf rt).1 = Some q →
     (tenantID ≠ "" ↔ req_Header q !! "X-Scope-OrgID" = Some tenantID) ∧
     (tenantID = "" ↔ req_Header q !! "X-Scope-OrgID" = None)) ∧
  (∀ b w, ∃ new,
     requests (worldOf (sendBatch build_Version c tenantID b w)) = new ++ requests w ∧
     Forall (λ q, (tenantID ≠ "" ↔ req_Header q !! "X-Scope-OrgID" = Some tenantID) ∧
                  (tenantID = "" ↔ req_Header q !! "X-Scope-OrgID" = None)) new).
Proof.
  split.
  - intros buf rt q Hq. apply send_request in Hq as ->.
    apply newRequest_carriesTenant.
  - intros b w. destruct (sendBatch_log build_Version c tenantID b w) as [_ Hnew].
    exact Hnew.
Qed.

Lemma tenant_header_iff_nonempty_witness :
  ∃ q, (send Demo.version Demo.theClient "t1" [] Demo.ok200).1 = Some q ∧
       req_Header q !! "X-Scope-OrgID" = Some "t1".
Proof.
  eexists. split; [reflexivity|].
  apply (proj1 (@tenant_header_iff_nonempty Demo.collaborators _ Demo.backoff
                  Demo.version Demo.theClient "t1") [] Demo.ok200 _ eq_refl).
  discriminate.
Defined.

(** ** The retry loop, attempt by attempt *)

Lemma send_outcome build_Version c tenantID buf rt :
  (send build_Version c tenantID buf rt).2 = outcome rt.
Proof. by destruct rt. Qed.

Lemma outcome_success rt st :
  outcome rt = (st, None) ↔ ∃ status body, rt = DoResponse status st body ∧ Z.quot st 100 = 2.
Proof.
  split.
  - destruct rt as [e|e|status code body]; simpl; try discriminate.
    destruct (Z.eqb_spec (code `quot` 100) 2); simpl; [|discriminate].
    intros [= ->]. eauto.
  - intros (status & body & -> & Hq). simpl. rewrite Hq. reflexivity.
Qed.

Lemma retryable_spec (st : Z) :
  retryable st = true ↔ st ≤ 0 ∨ st = 429 ∨ 500 ≤ st ≤ 599.
Proof.
  unfold retryable.
  destruct (Z.ltb_spec 0 st); simpl; [|split; [lia|done]].
  destruct (Z.eqb_spec st 429); simpl; [split; [lia|done]|].
  destruct (Z.eqb_spec (st `quot` 100) 5) as [Hq|Hq]; simpl.
  - split; [intros _|done]. right; right.
    pose proof (Z.quot_rem' st 100) as Hd.
    pose proof (Z.rem_bound_pos st 100 ltac:(lia) ltac:(lia)). lia.
  - split; [done|]. intros [?|[?|Hr]]; try lia. exfalso. apply Hq.
    symmetry. apply (Z.quot_unique st 100 5 (st - 500)); lia.
Qed.

Section RetryLoop.
Context `{Collaborators} {B : Type} `{Backoff B}.
Variable build_Version : string.

Local Abbreviation sendLoop := (sendLoop build_Version).
Local Abbreviation sendBatch := (sendBatch build_Version).
Local Abbreviation afterAttempt := (afterAttempt build_Version).
Local Abbreviation afterSuccess := (afterSuccess build_Version).
Local Abbreviation afterRetry := (afterRetry build_Version).

Lemma sendLoop_success_step c tenantID b buf n rt rest bo w st :
  outcome rt = (st, None) →
  sendLoop c tenantID b buf n (rt :: rest) bo w
  = updateStreamLag c (streamList b) (afterSuccess c tenantID buf n rt rest w).
Proof.
  intros Ho. simpl. rewrite bind_eq, attempt_eq, send_outcome, Ho. reflexivity.
Qed.

Lemma sendLoop_abort_step c tenantID b buf n rt rest bo w st err :
  outcome rt = (st, Some err) → retryable st = false →
  sendLoop c tenantID b buf n (rt :: rest) bo w
  = finalError (Z.of_nat (length buf)) n err (afterAttempt c tenantID buf rt rest w).
Proof.
  intros Ho Hr. simpl. rewrite bind_eq, attempt_eq, send_outcome, Ho. simpl.
  unfold retryable in Hr. apply negb_false_iff in Hr. rewrite Hr. reflexivity.
Qed.

Lemma sendLoop_retry_step c tenantID b buf n rt rest bo w st err :
  outcome rt = (st, Some err) → retryable st = true →
  backoff_Ongoing (backoff_Wait bo) = true →
  sendLoop c tenantID b buf n (rt :: rest) bo w
  = sendLoop c tenantID b buf n rest (backoff_Wait bo) (afterRetry c tenantID buf rt rest w).
Proof.
  intros Ho Hr Hon. simpl. rewrite bind_eq, attempt_eq, send_outcome, Ho. simpl.
  unfold retryable in Hr. apply negb_true_iff in Hr. rewrite Hr.
  rewrite !bind_eq. simpl. rewrite Hon. reflexivity.
Qed.

Lemma sendLoop_exhausted_step c tenantID b buf n rt rest bo w st err :
  outcome rt = (st, Some err) → retryable st = true →
  backoff_Ongoing (backoff_Wait bo) = false →
  sendLoop c tenantID b buf n (rt :: rest) bo w
  = finalError (Z.of_nat (length buf)) n err (afterRetry c tenantID buf rt rest w).
Proof.
  intros Ho Hr Hon. simpl. rewrite bind_eq, attempt_eq, send_outcome, Ho. simpl.
  unfold retryable in Hr. apply negb_true_iff in Hr. rewrite Hr.
  rewrite !bind_eq. simpl. rewrite Hon. reflexivity.
Qed.

Lemma updateStreamLag_cons c s ss lbls e w :
  ParseMetric (s_Labels s) = inr lbls → last (Entries s) = Some e →
  updateStreamLag c (s :: ss) w = updateStreamLag c ss (afterLag c lbls e w).
Proof. intros Hp Hl. simpl. rewrite Hp, Hl. reflexivity. Qed.

Lemma updateStreamLag_counters c ss w :
  let w' := worldOf (updateStreamLag c ss w) in
  counters w' = counters w ∧ wire w' = wire w.
Proof.
  revert w. induction ss as [|s ss IH]; intros w; [done|].
  destruct (ParseMetric (s_Labels s)) as [err|lbls] eqn:Hp; [simpl; by rewrite Hp|].
  destruct (last (Entries s)) as [e|] eqn:Hl; [|simpl; by rewrite Hp, Hl].
  erewrite updateStreamLag_cons by eauto. cbv zeta.
  destruct (IH (afterLag c lbls e w)) as [-> ->]. done.
Qed.

Lemma waited_S k bo : waited (S k) bo = waited k (backoff_Wait bo).
Proof. apply Nat.iter_succ_r. Qed.

(** What the loop has done when it returns: [used] are the attempts before
    the last one, [rt] is the last one. *)
Lemma sendLoop_outcome c tenantID b buf n script bo w r w' :
  sendLoop c tenantID b buf n script bo w = Ok r w' →
  ∃ used rt,
    script = used ++ rt :: wire w' ∧
    Forall (λ x, isRetryableFailure x = true) used ∧
    (∀ k, (k < length used)%nat →
          backoff_Ongoing (waited (S k) bo) = true) ∧
    encodedBytes (metrics w') = encodedBytes (metrics w) ∧
    match (outcome rt).2 with
    | None =>
        batchRetries (metrics w') = batchRetries (metrics w) + Z.of_nat (length used) ∧
        sentBytes (metrics w') = sentBytes (metrics w) + Z.of_nat (length buf) ∧
        sentEntries (metrics w') = sentEntries (metrics w) + n ∧
        droppedBytes (metrics w') = droppedBytes (metrics w) ∧
        droppedEntries (metrics w') = droppedEntries (metrics w)
    | Some err =>
        r = Some err ∧
        sentBytes (metrics w') = sentBytes (metrics w) ∧
        sentEntries (metrics w') = sentEntries (metrics w) ∧
        droppedBytes (metrics w') = droppedBytes (metrics w) + Z.of_nat (length buf) ∧
        droppedEntries (metrics w') = droppedEntries (metrics w) + n ∧
        if retryable (outcome rt).1
        then batchRetries (metrics w') = batchRetries (metrics w) + Z.of_nat (length used) + 1 ∧
             backoff_Ongoing (waited (S (length used)) bo) = false
        else batchRetries (metrics w') = batchRetries (metrics w) + Z.of_nat (length used)
    end.
Proof.
  revert bo w. induction script as [|rt rest IH]; intros bo w Hrun; [discriminate|].
  destruct (outcome rt) as [st [err|]] eqn:Ho.
  - destruct (retryable st) eqn:Hr.
    + destruct (backoff_Ongoing (backoff_Wait bo)) eqn:Hon.
      * erewrite sendLoop_retry_step in Hrun by eauto.
        apply IH in Hrun as (used & rt' & Hs & Hused & Hbo & Henc & Hlast).
        exists (rt :: used), rt'. split; [by rewrite Hs|].
        split; [constructor; [unfold isRetryableFailure; by rewrite Ho|done]|].
        split.
        { intros [|k] Hk; [done|]. simpl in Hk.
          specialize (Hbo k ltac:(lia)). by rewrite waited_S. }
        assert (Hret : batchRetries (metrics (afterRetry c tenantID buf rt rest w))
                       = batchRetries (metrics w) + 1) by reflexivity.
        split; [done|].
        destruct (outcome rt').2 as [err'|].
        -- destruct Hlast as (? & ? & ? & ? & ? & Hb). repeat (split; [done|]).
           destruct (retryable (outcome rt').1).
           ++ destruct Hb as [Hb Hon']. rewrite (waited_S (length (rt :: used))).
              split; [|done]. rewrite Hb, Hret. simpl length. lia.
           ++ rewrite Hb, Hret. simpl length. lia.
        -- destruct Hlast as (Hb & ? & ? & ? & ?).
           split; [rewrite Hb, Hret; simpl length; lia|]. done.
      * erewrite sendLoop_exhausted_step in Hrun by eauto.
        rewrite finalError_eq in Hrun. injection Hrun as <- <-.
        exists [], rt. rewrite Ho. simpl. rewrite Hr.
        repeat (split; [done || (intros; lia) || (simpl; lia)|]). done.
    + erewrite sendLoop_abort_step in Hrun by eauto.
      rewrite finalError_eq in Hrun. injection Hrun as <- <-.
      exists [], rt. rewrite Ho. simpl. rewrite Hr.
      repeat (split; [done || (intros; lia) || (simpl; lia)|]). simpl. lia.
  - erewrite sendLoop_success_step in Hrun by eauto.
    pose proof (updateStreamLag_counters c (streamList b)
                  (afterSuccess c tenantID buf n rt rest w)) as [Hc Hw].
    rewrite Hrun in Hc, Hw. simpl in Hc, Hw. injection Hc as ? ? ? ? ? ?.
    exists [], rt. rewrite Ho, Hw. simpl.
    repeat (split; [done || (intros; lia) || (simpl; lia)|]). done.
Qed.

End RetryLoop.

(** ** The lag gauge after a success *)

Section Lag.
Context `{Collaborators}.

(** Over a prefix of streams that are all ready, the loop sets the gauge once
    per stream, in order, each time from a fresh clock reading, and changes
    nothing else but the number of readings taken. *)
Lemma updateStreamLag_app (c : client) (pre post : list Stream) (w : World) :
  Forall lagReady pre →
  ∃ w1 new,
    updateStreamLag c (pre ++ post) w = updateStreamLag c post w1 ∧
    ticks w1 = (ticks w + length pre)%nat ∧ clock w1 = clock w ∧
    counters w1 = counters w ∧ wire w1 = wire w ∧ sent w1 = sent w ∧
    requests w1 = requests w ∧ logs w1 = logs w ∧
    requestDuration (metrics w1) = requestDuration (metrics w) ∧
    streamLag (metrics w1) = new ++ streamLag (metrics w) ∧
    length new = length pre ∧
    ∀ k s, pre !! k = Some s →
           rev new !! k = lagCall c (clock w (ticks w + k)%nat) s ∧
           is_Some (lagCall c (clock w (ticks w + k)%nat) s).
Proof.
  revert w. induction pre as [|s pre IH]; intros w Hready.
  { exists w, []. simpl. rewrite Nat.add_0_r. do 11 (split; [done|]). by intros k s. }
  apply Forall_cons in Hready as [(lbls & e & Hp & Hl) Hready].
  destruct (IH (afterLag c lbls e w) Hready)
    as (w1 & new & Hrun & Ht & Hc & Hcn & Hw & Hs & Hrq & Hlg & Hd & Hlag & Hlen & Hk).
  exists w1, (new ++ [(lagLabelSet c lbls, time_Sub (clock w (ticks w)) (Timestamp e))]).
  split. { simpl app. erewrite updateStreamLag_cons by eauto. exact Hrun. }
  split. { rewrite Ht. simpl. lia. }
  do 7 (split; [done|]).
  split. { rewrite Hlag. simpl. by rewrite <- app_assoc. }
  split. { rewrite length_app, Hlen. simpl. lia. }
  intros k s' Hlook. rewrite rev_app_distr. simpl.
  destruct k as [|k]; simpl in Hlook.
  - injection Hlook as <-. unfold lagCall. rewrite Hp, Hl, Nat.add_0_r. split; [done|eauto].
  - destruct (Hk k s' Hlook) as [Hrev Hsome]. simpl in Hrev, Hsome.
    replace (ticks w + S k)%nat with (S (ticks w) + k)%nat by lia. done.
Qed.

End Lag.

Section SendBatchOutcome.
Context `{Collaborators} {B : Type} `{Backoff B}.
Variable build_Version : string.

Local Abbreviation sendLoop := (sendLoop build_Version).
Local Abbreviation sendBatch := (sendBatch build_Version).

Lemma sendBatch_encoded c tenantID b buf n w :
  encode b = inr (buf, n) →
  sendBatch c tenantID b w
  = sendLoop c tenantID b buf n (wire w)
      (backoff_New (ctxCancelled c) (Backoff_Config (cfg c)))
      (beforeLoop tenantID b buf w).
Proof. intros He. unfold sendBatch. rewrite He. reflexivity. Qed.

Lemma sendBatch_encode_error c tenantID b err w :
  encode b = inl err →
  sendBatch c tenantID b w
  = Ok (Some err)
      (setLogs ((Error, "error encoding batch") :: logs w)
         (setSent ((tenantID, b) :: sent w) w)).
Proof. intros He. unfold sendBatch. rewrite He. reflexivity. Qed.

End SendBatchOutcome.

(** C2, as the claim states it, fails: a response with the status code 0 is
    not a 2xx, not a 429 and not a 5xx, yet the attempt is retried; the
    test of the loop, [status > 0 && ...], lets every status that is not
    positive through. *)
Lemma response_with_status_zero_is_retried :
  outcome (DoResponse "000" 0 "") = (0, Some (ErrHTTPStatus "000" 0 "")) ∧
  ∃ w', sendBatch Demo.version Demo.theClient "t1" Cases.twoStreams
          (Demo.world [DoResponse "000" 0 ""; Demo.ok200]) = Ok None w' ∧
        batchRetries (metrics w') = 1 ∧ length (requests w') = 2%nat ∧ wire w' = [].
Proof. split; [reflexivity|]. eexists. vm_compute. done. Qed.

(** C2, amended. After a failed attempt the loop of [sendBatch] goes on
    exactly when the status is retryable (429, 500 to 599, or not positive:
    the -1 of an attempt without a response, and a response whose status
    code is 0 or less) and the backoff is still
    ongoing after the wait: a retryable failure increments the retry counter
    and waits, then either the next attempt follows or, with the budget used
    up, the error is returned; any other failure returns the error at once,
    the retry counter untouched and no further attempt made. A call of
    [sendBatch] that returns has made only retryable failed attempts before
    its last one, and has counted one retry for each retryable failure. *)
Theorem sendBatch_retry_policy `{Collaborators} {B : Type} `{Backoff B}
    (build_Version : string) (c : client) (tenantID : string) (b : batch) :
  (∀ st, retryable st = true ↔ st ≤ 0 ∨ st = 429 ∨ 500 ≤ st ≤ 599) ∧
  (∀ err, outcome (DoError err) = (-1, Some err)) ∧
  (∀ buf n rt rest bo w st err,
     outcome rt = (st, Some err) →
     (retryable st = false →
        ∃ w', sendLoop build_Version c tenantID b buf n (rt :: rest) bo w = Ok (Some err) w' ∧
              batchRetries (metrics w') = batchRetries (metrics w) ∧ wire w' = rest) ∧
     (retryable st = true →
        let w1 := afterRetry build_Version c tenantID buf rt rest w in
        batchRetries (metrics w1) = batchRetries (metrics w) + 1 ∧ wire w1 = rest ∧
        (backoff_Ongoing (backoff_Wait bo) = true →
           sendLoop build_Version c tenantID b buf n (rt :: rest) bo w
           = sendLoop build_Version c tenantID b buf n rest (backoff_Wait bo) w1) ∧
        (backoff_Ongoing (backoff_Wait bo) = false →
           ∃ w', sendLoop build_Version c tenantID b buf n (rt :: rest) bo w = Ok (Some err) w' ∧
                 batchRetries (metrics w') = batchRetries (metrics w) + 1 ∧ wire w' = rest))) ∧
  (∀ buf n w r w',
     encode b = inr (buf, n) →
     sendBatch build_Version c tenantID b w = Ok r w' →
     ∃ used rt,
       wire w = used ++ rt :: wire w' ∧
       Forall (λ x, isRetryableFailure x = true) used ∧
       batchRetries (metrics w') - batchRetries (metrics w)
       = Z.of_nat (length (filter (λ x, isRetryableFailure x = true) (used ++ [rt])))).
Proof.
  split; [exact retryable_spec|]. split; [done|]. split.
  - intros buf n rt rest bo w st err Ho. split.
    + intros Hr. erewrite sendLoop_abort_step by eauto. rewrite finalError_eq.
      eexists. split; [reflexivity|]. done.
    + intros Hr. cbv zeta. split; [done|]. split; [done|]. split.
      * intros Hon. by eapply sendLoop_retry_step.
      * intros Hon. erewrite sendLoop_exhausted_step by eauto. rewrite finalError_eq.
        eexists. split; [reflexivity|]. done.
  - intros buf n w r w' He Hrun. erewrite sendBatch_encoded in Hrun by eauto.
    apply sendLoop_outcome in Hrun as (used & rt & Hs & Hused & _ & _ & Hlast).
    exists used, rt. split; [exact Hs|]. split; [exact Hused|].
    rewrite filter_app, length_app.
    assert (Hall : length (filter (λ x, isRetryableFailure x = true) used) = length used).
    { clear -Hused. induction Hused as [|x l Hx _ IH]; [done|].
      rewrite filter_cons_True by done. simpl. by rewrite IH. }
    rewrite Hall, filter_cons, filter_nil.
    assert (Hm : batchRetries (metrics (beforeLoop tenantID b buf w))
                 = batchRetries (metrics w)) by reflexivity.
    rewrite Hm in Hlast. clear Hm.
    destruct (outcome rt) as [st oerr] eqn:Ho. simpl in Hlast.
    assert (Hirf : isRetryableFailure rt
                   = match oerr with Some _ => retryable st | None => false end).
    { unfold isRetryableFailure. by rewrite Ho. }
    destruct oerr as [err|].
    + destruct Hlast as (_ & _ & _ & _ & _ & Hb).
      destruct (retryable st); case_decide; try congruence; simpl; lia.
    + destruct Hlast as (Hb & _). case_decide; [congruence|]. simpl. lia.
Qed.

Lemma sendBatch_retry_policy_witness :
  ∃ w', sendLoop Demo.version Demo.theClient "t1" (newBatch 0 0) [] 0 [Demo.err400]
          (backoff_New false (Backoff_Config Demo.config)) (Demo.world []) = Ok
          (Some (ErrHTTPStatus "400 Bad Request" 400 "bad")) w' ∧
        batchRetries (metrics w') = batchRetries (metrics (Demo.world [])) ∧ wire w' = [].
Proof.
  apply (proj1 (proj1 (proj2 (proj2 (@sendBatch_retry_policy Demo.collaborators _ Demo.backoff
           Demo.version Demo.theClient "t1" (newBatch 0 0)))) [] 0 Demo.err400 []
           (backoff_New false (Backoff_Config Demo.config)) (Demo.world []) 400
           (ErrHTTPStatus "400 Bad Request" 400 "bad") eq_refl)).
  reflexivity.
Defined.

(** The two runs the specification's test describes. *)
Example sendBatch_500_then_200 :
  let r := sendBatch Demo.version Demo.theClient "t1"
             (replay (newBatch 0 0) (Demo.entry [("job", "x")] 1 "a"))
             (Demo.world [Demo.err500; Demo.ok200]) in
  resultOf r = Some None ∧ batchRetries (metrics (worldOf r)) = 1 ∧
  length (requests (worldOf r)) = 2%nat.
Proof. vm_compute. done. Qed.

Example sendBatch_400 :
  let r := sendBatch Demo.version Demo.theClient "t1"
             (replay (newBatch 0 0) (Demo.entry [("job", "x")] 1 "a"))
             (Demo.world [Demo.err400; Demo.ok200]) in
  resultOf r = Some (Some (ErrHTTPStatus "400 Bad Request" 400 "bad")) ∧
  batchRetries (metrics (worldOf r)) = 0 ∧
  length (requests (worldOf r)) = 1%nat ∧ wire (worldOf r) = [Demo.ok200].
Proof. vm_compute. done. Qed.

(** A call of [sendBatch] that returns, the batch encoded, has counted the
    payload and the entries as sent or as dropped, never as both, and has
    counted the payload as encoded. *)
Theorem sendBatch_sent_or_dropped `{Collaborators} {B : Type} `{Backoff B}
    (build_Version : string) (c : client) (tenantID : string) (b : batch)
    (buf : list Byte.byte) (n : Z) (w w' : World) (r : option error) :
  encode b = inr (buf, n) →
  sendBatch build_Version c tenantID b w = Ok r w' →
  encodedBytes (metrics w') = encodedBytes (metrics w) + Z.of_nat (length buf) ∧
  ((sentBytes (metrics w') = sentBytes (metrics w) + Z.of_nat (length buf) ∧
    sentEntries (metrics w') = sentEntries (metrics w) + n ∧
    droppedBytes (metrics w') = droppedBytes (metrics w) ∧
    droppedEntries (metrics w') = droppedEntries (metrics w)) ∨
   (is_Some r ∧
    sentBytes (metrics w') = sentBytes (metrics w) ∧
    sentEntries (metrics w') = sentEntries (metrics w) ∧
    droppedBytes (metrics w') = droppedBytes (metrics w) + Z.of_nat (length buf) ∧
    droppedEntries (metrics w') = droppedEntries (metrics w) + n)).
Proof.
  intros He Hrun. erewrite sendBatch_encoded in Hrun by eauto.
  apply sendLoop_outcome in Hrun as (used & rt & _ & _ & _ & Henc & Hlast).
  split; [rewrite Henc; simpl; lia|].
  destruct (outcome rt).2 as [err|].
  - right. destruct Hlast as (-> & ? & ? & ? & ? & _). by eauto.
  - left. destruct Hlast as (_ & ? & ? & ? & ?). done.
Qed.

Lemma sendBatch_sent_or_dropped_witness :
  match sendBatch Demo.version Demo.theClient "t1" Cases.twoStreams
          (Demo.world [Demo.err500; Demo.err400]) with
  | Ok _ w' => droppedEntries (metrics w') = 3 ∨ sentEntries (metrics w') = 3
  | Stop _ _ => False
  end.
Proof.
  destruct (sendBatch Demo.version Demo.theClient "t1" Cases.twoStreams
              (Demo.world [Demo.err500; Demo.err400])) as [r w'|h w'] eqn:E.
  - destruct (@sendBatch_sent_or_dropped Demo.collaborators _ Demo.backoff
                Demo.version Demo.theClient "t1" Cases.twoStreams
                (repeat Byte.x00 3) 3 _ w' r eq_refl E) as [_ [Hs|Hd]].
    + right. apply Hs.
    + left. apply Hd.
  - vm_compute in E. discriminate.
Defined.

(** ** Dropped and sent counters *)

(** C6, as the claim states it, fails: a batch whose encode fails is dropped
    with both dropped counters left where they were. *)
Lemma encode_failure_leaves_dropped_counters :
  encode Cases.unlabelled = inl (ErrOther "marshal") ∧
  entriesCount Cases.unlabelled = 1%nat ∧
  resultOf (sendBatch Demo.version Demo.theClient "t1" Cases.unlabelled (Demo.world []))
  = Some (Some (ErrOther "marshal")) ∧
  droppedBytes (metrics (worldOf
    (sendBatch Demo.version Demo.theClient "t1" Cases.unlabelled (Demo.world [])))) = 0 ∧
  droppedEntries (metrics (worldOf
    (sendBatch Demo.version Demo.theClient "t1" Cases.unlabelled (Demo.world [])))) = 0.
Proof. vm_compute. done. Qed.

(** C6, amended. When the last attempt of [sendBatch] fails, with a status
    that is not retryable or with the backoff used up, the dropped-bytes
    counter grows by the length of the encoded payload, the dropped-entries
    counter by the batch's entry count, and that attempt's error is returned;
    a call that returns after a successful last attempt leaves both counters
    alone. When the encode fails, [sendBatch] returns the encode error at
    once: no counter changes and no request is made. *)
Theorem sendBatch_dropped_counters `{Collaborators} {B : Type} `{Backoff B}
    (build_Version : string) (c : client) (tenantID : string) (b : batch) :
  (∀ err w, encode b = inl err →
     ∃ w', sendBatch build_Version c tenantID b w = Ok (Some err) w' ∧
           metrics w' = metrics w ∧ wire w' = wire w ∧ requests w' = requests w) ∧
  (∀ buf n rt rest bo w st err,
     outcome rt = (st, Some err) →
     retryable st = false ∨ backoff_Ongoing (backoff_Wait bo) = false →
     ∃ w', sendLoop build_Version c tenantID b buf n (rt :: rest) bo w = Ok (Some err) w' ∧
           droppedBytes (metrics w') = droppedBytes (metrics w) + Z.of_nat (length buf) ∧
           droppedEntries (metrics w') = droppedEntries (metrics w) + n) ∧
  (∀ buf n w r w',
     encode b = inr (buf, n) →
     sendBatch build_Version c tenantID b w = Ok r w' →
     n = Z.of_nat (entriesCount b) ∧
     ∃ used rt,
       wire w = used ++ rt :: wire w' ∧
       match (outcome rt).2 with
       | Some err =>
           r = Some err ∧
           droppedBytes (metrics w') = droppedBytes (metrics w) + Z.of_nat (length buf) ∧
           droppedEntries (metrics w') = droppedEntries (metrics w) + n ∧
           (retryable (outcome rt).1 = true →
            backoff_Ongoing
              (waited (S (length used))
                 (backoff_New (ctxCancelled c) (Backoff_Config (cfg c)))) = false)
       | None =>
           droppedBytes (metrics w') = droppedBytes (metrics w) ∧
           droppedEntries (metrics w') = droppedEntries (metrics w)
       end).
Proof.
  split; [|split].
  - intros err w He. erewrite sendBatch_encode_error by eauto.
    eexists. split; [reflexivity|]. done.
  - intros buf n rt rest bo w st err Ho Hstop.
    destruct (retryable st) eqn:Hr.
    + destruct Hstop as [?|Hon]; [done|].
      erewrite sendLoop_exhausted_step by eauto. rewrite finalError_eq.
      eexists. split; [reflexivity|]. done.
    + erewrite sendLoop_abort_step by eauto. rewrite finalError_eq.
      eexists. split; [reflexivity|]. done.
  - intros buf n w r w' He Hrun. split.
    { unfold encode in He. destruct (marshal b); congruence. }
    erewrite sendBatch_encoded in Hrun by eauto.
    apply sendLoop_outcome in Hrun as (used & rt & Hs & _ & _ & _ & Hlast).
    exists used, rt. split; [exact Hs|].
    destruct (outcome rt).2 as [err|].
    + destruct Hlast as (? & _ & _ & ? & ? & Hb). repeat (split; [done|]).
      intros Hr. rewrite Hr in Hb. apply Hb.
    + destruct Hlast as (_ & _ & _ & ? & ?). done.
Qed.

Lemma sendBatch_dropped_counters_witness :
  ∃ w', sendLoop Demo.version Demo.theClient "t1" Cases.twoStreams [Byte.x00; Byte.x00] 3
          [Demo.err400] (backoff_New false (Backoff_Config Demo.config)) (Demo.world [])
        = Ok (Some (ErrHTTPStatus "400 Bad Request" 400 "bad")) w' ∧
        droppedBytes (metrics w') = droppedBytes (metrics (Demo.world [])) + Z.of_nat 2 ∧
        droppedEntries (metrics w') = droppedEntries (metrics (Demo.world [])) + 3.
Proof.
  apply (proj1 (proj2 (@sendBatch_dropped_counters Demo.collaborators _ Demo.backoff
           Demo.version Demo.theClient "t1" Cases.twoStreams))
           [Byte.x00; Byte.x00] 3 Demo.err400 []
           (backoff_New false (Backoff_Config Demo.config)) (Demo.world []) 400
           (ErrHTTPStatus "400 Bad Request" 400 "bad") eq_refl).
  left. reflexivity.
Defined.

(** C7, as the claim states it, fails: the attempt returns 200, yet
    [sendBatch] returns an error, because a stream's label string does not
    parse. *)
Lemma success_status_yet_error_returned :
  outcome Demo.ok200 = (200, None) ∧
  streamList Cases.dashed
  = [{| s_Labels := Demo.renderLabels (list_to_map [("my-label", "x")]);
        Entries := [{| Timestamp := 1; Line := "a" |}] |}] ∧
  resultOf (sendBatch Demo.version Demo.theClient "t1" Cases.dashed (Demo.world [Demo.ok200]))
  = Some (Some (ErrOther "parse error: unexpected character inside braces")).
Proof. vm_compute. done. Qed.

(** C7, amended. When an attempt returns a 2xx status, [sendBatch] adds the
    length of the encoded payload to the sent-bytes counter and the entry
    count to the sent-entries counter. It then visits the streams of the
    batch: if every stream holds an entry and has a label string that parses,
    it sets the lag gauge once per stream, under the stream's lag labels, to
    the time from the timestamp of the stream's last entry to a fresh clock
    reading as [time.Since] gives it, and returns nil; at the first stream
    whose label string does not parse it stops and returns the parse error,
    the gauge set for the streams before it only. The value of [time.Since]
    is the difference of the two instants when a [Duration] can hold it, and
    the largest or the smallest [Duration] otherwise. *)
Theorem sendBatch_success_updates `{Collaborators} {B : Type} `{Backoff B}
    (build_Version : string) (c : client) (tenantID : string) (b : batch) :
  ∀ buf n rt rest bo w st,
    outcome rt = (st, None) →
    let r := sendLoop build_Version c tenantID b buf n (rt :: rest) bo w in
    Z.quot st 100 = 2 ∧
    sentBytes (metrics (worldOf r)) = sentBytes (metrics w) + Z.of_nat (length buf) ∧
    sentEntries (metrics (worldOf r)) = sentEntries (metrics w) + n ∧
    (wire w = rt :: rest → encode b = inr (buf, n) →
     sentBytes (metrics (worldOf (sendBatch build_Version c tenantID b w)))
     = sentBytes (metrics w) + Z.of_nat (length buf) ∧
     sentEntries (metrics (worldOf (sendBatch build_Version c tenantID b w)))
     = sentEntries (metrics w) + Z.of_nat (entriesCount b) ∧
     resultOf (sendBatch build_Version c tenantID b w) = resultOf r) ∧
    (Forall lagReady (streamList b) →
     resultOf r = Some None ∧
     ∃ new, streamLag (metrics (worldOf r)) = new ++ streamLag (metrics w) ∧
            length new = length (streamList b) ∧
            ∀ k s, streamList b !! k = Some s →
                   rev new !! k = lagCall c (clock w (ticks w + 2 + k)%nat) s ∧
                   is_Some (lagCall c (clock w (ticks w + 2 + k)%nat) s)) ∧
    (∀ pre s post err,
       streamList b = pre ++ s :: post → Forall lagReady pre →
       ParseMetric (s_Labels s) = inl err →
       resultOf r = Some (Some err) ∧
       ∃ new, streamLag (metrics (worldOf r)) = new ++ streamLag (metrics w) ∧
              length new = length pre ∧
              ∀ k s', pre !! k = Some s' →
                      rev new !! k = lagCall c (clock w (ticks w + 2 + k)%nat) s') ∧
    (∀ now s lbls e,
       ParseMetric (s_Labels s) = inr lbls → last (Entries s) = Some e →
       lagCall c now s = Some (lagLabelSet c lbls, time_Sub now (Timestamp e)) ∧
       minDuration ≤ time_Sub now (Timestamp e) ≤ maxDuration ∧
       (minDuration ≤ now - Timestamp e ≤ maxDuration →
        time_Sub now (Timestamp e) = now - Timestamp e) ∧
       (maxDuration < now - Timestamp e → time_Sub now (Timestamp e) = maxDuration) ∧
       (now - Timestamp e < minDuration → time_Sub now (Timestamp e) = minDuration)).
Proof.
  intros buf n rt rest bo w st Ho r.
  assert (Hr : r = updateStreamLag c (streamList b)
                     (afterSuccess build_Version c tenantID buf n rt rest w)).
  { subst r. by eapply sendLoop_success_step. }
  set (ws := afterSuccess build_Version c tenantID buf n rt rest w) in *.
  pose proof (updateStreamLag_counters c (streamList b) ws) as [Hc _].
  rewrite <- Hr in Hc. injection Hc as _ Hsb _ Hse _ _.
  split. { apply outcome_success in Ho as (? & ? & _ & Hq). exact Hq. }
  split; [exact Hsb|]. split; [exact Hse|]. split; [|split; [|split]]; cycle 3.
  { intros now s lbls e Hp Hl. unfold lagCall. rewrite Hp, Hl.
    split; [done|]. unfold time_Sub, minDuration, maxDuration. lia. }
  - intros Hw He.
    assert (Hn : n = Z.of_nat (entriesCount b)).
    { unfold encode in He. destruct (marshal b); congruence. }
    erewrite sendBatch_encoded by eauto. rewrite Hw.
    pose proof (sendLoop_success_step build_Version c tenantID b buf n rt rest
                  (backoff_New (ctxCancelled c) (Backoff_Config (cfg c)))
                  (beforeLoop tenantID b buf w) st Ho) as Hs.
    rewrite Hs.
    set (ws' := afterSuccess build_Version c tenantID buf n rt rest (beforeLoop tenantID b buf w)).
    pose proof (updateStreamLag_counters c (streamList b) ws') as [Hc' _].
    injection Hc' as _ Hsb' _ Hse' _ _.
    split; [exact Hsb'|]. split; [rewrite <- Hn; exact Hse'|].
    rewrite Hr. clear.
    assert (Hgen : ∀ ss wa wb, ticks wa = ticks wb → clock wa = clock wb →
              resultOf (updateStreamLag c ss wa) = resultOf (updateStreamLag c ss wb)).
    { induction ss as [|s ss IH]; intros wa wb Ht Hc; [done|]. simpl.
      destruct (ParseMetric (s_Labels s)); [done|].
      destruct (last (Entries s)); [|done].
      rewrite !bind_eq. simpl. rewrite !bind_eq. simpl. apply IH; simpl; congruence. }
    apply Hgen; reflexivity.
  - intros Hready.
    destruct (updateStreamLag_app c (streamList b) [] ws Hready)
      as (w1 & new & Hrun & _ & _ & _ & _ & _ & _ & _ & _ & Hlag & Hlen & Hk).
    rewrite app_nil_r in Hrun. rewrite Hr, Hrun. simpl.
    split; [done|]. exists new. split; [exact Hlag|]. split; [exact Hlen|].
    intros k s Hs. replace (ticks w + 2 + k)%nat with (ticks ws + k)%nat by (simpl; lia).
    by apply Hk.
  - intros pre s post err Hsplit Hready Hp.
    destruct (updateStreamLag_app c pre (s :: post) ws Hready)
      as (w1 & new & Hrun & _ & _ & _ & _ & _ & _ & _ & _ & Hlag & Hlen & Hk).
    rewrite Hr, Hsplit, Hrun. simpl. rewrite Hp. simpl.
    split; [done|]. exists new. split; [exact Hlag|]. split; [exact Hlen|].
    intros k s' Hs. replace (ticks w + 2 + k)%nat with (ticks ws + k)%nat by (simpl; lia).
    by apply Hk.
Qed.

Lemma sendBatch_success_updates_witness :
  resultOf (sendLoop Demo.version Demo.theClient "t1" Cases.twoStreams [Byte.x00] 3
              [Demo.ok200] (backoff_New false (Backoff_Config Demo.config)) (Demo.world []))
  = Some None.
Proof.
  apply (proj1 (proj1 (proj2 (proj2 (proj2 (proj2
           (@sendBatch_success_updates Demo.collaborators _ Demo.backoff
              Demo.version Demo.theClient "t1" Cases.twoStreams
              [Byte.x00] 3 Demo.ok200 [] (backoff_New false (Backoff_Config Demo.config))
              (Demo.world []) 200 eq_refl)))))
           ltac:(vm_compute; repeat constructor; do 2 eexists; split; reflexivity))).
Defined.

(** An entry with a timestamp three hundred years before the clock: the gauge
    is set to the largest [Duration], 9223372036854775807 ns. *)
Example lag_of_an_old_entry_saturates :
  let old := replay (newBatch 0 0) (Demo.entry [("job", "x")] (- 300 * 31536000 * 1000 * millisecond) "a") in
  streamLag (metrics (worldOf (sendBatch Demo.version Demo.theClient "t1" old
                                 (Demo.world [Demo.ok200]))))
  = [(lagLabelSet Demo.theClient [("job", "x")], 9223372036854775807)].
Proof. vm_compute. done. Qed.

(** The lag gauge after a delivered batch of two streams: one call per
    stream, from successive clock readings. *)
Example sendBatch_lag_gauge :
  let r := sendBatch Demo.version Demo.theClient "t1" Cases.twoStreams
             (Demo.world [Demo.ok200]) in
  resultOf r = Some None ∧ sentEntries (metrics (worldOf r)) = 3 ∧
  (streamLag (metrics (worldOf r))).*2 = [103 - 20; 102 - 30].
Proof. vm_compute. done. Qed.

(** ** The consumer at the end of a segment *)

Lemma cons_neq_self {A} (x : A) (l : list A) : l ≠ x :: l.
Proof.
  intros Heq. apply (f_equal length) in Heq. simpl in Heq. lia.
Qed.

(** C3. [SegmentEnd] sends the current batch and asks the deleter to delete
    the segment, once and with the segment's number, if and only if the send
    returned nil; when the send returns an error no deletion is requested and
    nothing changes beyond what the send did. *)
Theorem SegmentEnd_deletes_iff_sent `{Collaborators} {D : Type} `{SegmentDeleter D}
    (c : clientConsumer (D * list Z)) (segmentNum : Z) (w : World) :
  match cc_sendBatch c (currentBatch c) w with
  | Ok err w1 =>
      ∃ c' w', SegmentEnd c segmentNum w = Ok c' w' ∧
        (err = None ↔ (segmentDeleter c').2 = segmentNum :: (segmentDeleter c).2) ∧
        (err = None ∨ (segmentDeleter c' = segmentDeleter c ∧ w' = w1)) ∧
        (err = None →
         (segmentDeleter c').1 = (DeleteSegment (segmentDeleter c).1 segmentNum).1)
  | Stop h w1 => SegmentEnd c segmentNum w = Stop h w1
  end.
Proof.
  unfold SegmentEnd. rewrite bind_eq.
  destruct (cc_sendBatch c (currentBatch c) w) as [[err|] w1|h w1]; [| |done].
  - exists c, w1. split; [done|]. split; [|split].
    + split; [done|]. intros Heq. by apply cons_neq_self in Heq.
    + by right.
    + done.
  - rewrite bind_eq. simpl. unfold DeleteSegment at 1, recordingDeleter.
    destruct (DeleteSegment (segmentDeleter c).1 segmentNum) as [d' [derr|]] eqn:Hd;
      simpl; eexists _, _; (split; [reflexivity|]); simpl; rewrite ?Hd; simpl;
      (split; [done|]); (split; [by left|done]).
Qed.

Example SegmentEnd_send_ok_deletes :
  let r := (c ← ConsumerRun.start; SegmentEnd c 5) (Demo.world [Demo.ok200]) in
  segmentDeleter <$> resultOf r = Some [5].
Proof. vm_compute. done. Qed.

Example SegmentEnd_send_fails_keeps :
  let r := (c ← ConsumerRun.start; SegmentEnd c 5) (Demo.world [Demo.err400]) in
  segmentDeleter <$> resultOf r = Some [].
Proof. vm_compute. done. Qed.

(** [SegmentEnd] never replaces the current batch: whatever the send and the
    deletion did, the consumer holds the batch it held before. *)
Lemma SegmentEnd_keeps_currentBatch `{Collaborators} {D : Type} `{SegmentDeleter D}
    (c c' : clientConsumer D) (segmentNum : Z) (w w' : World) :
  SegmentEnd c segmentNum w = Ok c' w' → currentBatch c' = currentBatch c.
Proof.
  unfold SegmentEnd. rewrite bind_eq.
  destruct (cc_sendBatch c (currentBatch c) w) as [[err|] w1|h w1]; [| |done].
  - by intros [= <- <-].
  - rewrite bind_eq. simpl.
    destruct (DeleteSegment (segmentDeleter c) segmentNum) as [d' [derr|]];
      simpl; by intros [= <- <-].
Qed.

Lemma SegmentEnd_keeps_currentBatch_witness :
  match SegmentEnd ConsumerRun.busy 5 (Demo.world [Demo.ok200]) with
  | Ok c' _ => currentBatch c' = Cases.twoStreams
  | Stop _ _ => False
  end.
Proof.
  destruct (SegmentEnd ConsumerRun.busy 5 (Demo.world [Demo.ok200])) as [c' w'|h w'] eqn:E.
  - exact (SegmentEnd_keeps_currentBatch ConsumerRun.busy c' 5 _ w' E).
  - vm_compute in E. discriminate.
Defined.

(** C4 does not hold of the code: after a [SegmentEnd] whose send succeeded
    the current batch still holds the entry of segment 0, and the batch sent
    at the end of segment 1 carries that entry again beside the new one. *)
Theorem SegmentEnd_leaves_batch_in_place :
  let w := Demo.world [Demo.ok200; Demo.ok200] in
  (streamList ∘ currentBatch <$>
     resultOf ((c ← ConsumerRun.start; SegmentEnd c 0) w))
  = Some [{| s_Labels := Demo.renderLabels ConsumerRun.jobX;
             Entries := [ConsumerRun.e1] |}] ∧
  (segmentDeleter <$> resultOf (ConsumerRun.twoSegments w)) = Some [1; 0] ∧
  (streamList ∘ snd <$> sent (worldOf (ConsumerRun.twoSegments w)))
  = [ [{| s_Labels := Demo.renderLabels ConsumerRun.jobX;
          Entries := [ConsumerRun.e1; ConsumerRun.e2] |}];
      [{| s_Labels := Demo.renderLabels ConsumerRun.jobX;
          Entries := [ConsumerRun.e1] |}] ].
Proof. vm_compute. done. Qed.

(** ** Replay without a WAL directory *)


Lemma tenantDirsOf_None p matches :
  tenantDirsOf p matches = None ↔ Exists (statFails p) matches.
Proof.
  induction matches as [|m matches IH]; simpl.
  { split; [done|]. intros Hex. by apply Exists_nil in Hex. }
  rewrite Exists_cons, <- IH. unfold statFails.
  destruct (os_Stat p m) as [isDir|err|err]; simpl; [|by split; auto..].
  destruct (tenantDirsOf p matches); simpl.
  - split; [done|]. by intros [?|?].
  - split; [by right|done].
Qed.



(** A WAL directory whose only entry cannot be looked at: the replay panics. *)
Example replayWAL_panics_on_a_failed_stat :
  replayWAL Demo.version Demo.theClient Disks.unreadable (Demo.world [Demo.ok200])
  = Stop Panic (Demo.world [Demo.ok200]).
Proof. vm_compute. done. Qed.

(** ** Errors of [add] in the dispatcher *)

(** C10. In the dispatcher an error of [add] ends the loop, after one
    increment of dropped-entries, only where the entry is added to an open
    batch that has room; where the entry goes into a new batch (the first
    entry of a tenant, or the entry that caused a flush for size) the result
    of [add] is not looked at and the loop goes on. *)
Theorem dispatcher_add_errors `{Collaborators} {B : Type} `{Backoff B}
    (build_Version : string) (c : client) (batches : gmap string batch)
    (e : api_Entry) (w : World) :
  let e' := (processEntry c e).1 in
  let tenantID := (processEntry c e).2 in
  (batches !! tenantID = None →
   ∃ w', handleEntry build_Version c batches e w
         = Ok (<[tenantID := (add (newBatch 0 (clock w (ticks w))) e').1]> batches, true) w' ∧
         droppedEntries (metrics w') = droppedEntries (metrics w)) ∧
  (∀ b r w1,
     batches !! tenantID = Some b →
     BatchSize (cfg c) < sizeBytesAfter b e' →
     sendBatch build_Version c tenantID b w = Ok r w1 →
     ∃ w', handleEntry build_Version c batches e w
           = Ok (<[tenantID := (add (newBatch 0 (clock w1 (ticks w1))) e').1]> batches, true) w' ∧
           droppedEntries (metrics w') = droppedEntries (metrics w1)) ∧
  (∀ b,
     batches !! tenantID = Some b →
     sizeBytesAfter b e' ≤ BatchSize (cfg c) →
     match (add b e').2 with
     | Some err =>
         ∃ w', handleEntry build_Version c batches e w
               = Ok (<[tenantID := (add b e').1]> batches, false) w' ∧
               droppedEntries (metrics w') = droppedEntries (metrics w) + 1
     | None =>
         handleEntry build_Version c batches e w
         = Ok (<[tenantID := (add b e').1]> batches, true) w
     end) ∧
  (∀ rest batches' ok w',
     handleEntry build_Version c batches e w = Ok (batches', ok) w' →
     dispatch build_Version c (EvEntry e :: rest) batches w
     = if ok then dispatch build_Version c rest batches' w'
       else deferred build_Version c batches' w').
Proof.
  intros e' tenantID. subst e' tenantID. unfold handleEntry.
  destruct (processEntry c e) as [e' t] eqn:Hp. simpl.
  split; [|split; [|split]].
  - intros ->. rewrite bind_eq. simpl. eexists. split; [reflexivity|]. done.
  - intros b r w1 -> Hover Hsend.
    apply Z.ltb_lt in Hover. rewrite Hover.
    rewrite bind_eq, Hsend, bind_eq. simpl. eexists. split; [reflexivity|]. done.
  - intros b -> Hfits.
    assert (Hnot : (BatchSize (cfg c) <? sizeBytesAfter b e') = false) by (apply Z.ltb_ge; lia).
    rewrite Hnot.
    destruct (add b e') as [b' [err|]]; simpl.
    + eexists. split; [reflexivity|]. done.
    + reflexivity.
  - intros rest batches' ok w' Hrun. simpl. rewrite bind_eq.
    unfold handleEntry. rewrite Hp. simpl. rewrite Hrun. by destruct ok.
Qed.

Lemma dispatcher_add_errors_witness :
  ∃ w', handleEntry Demo.version Demo.theClient Refusal.open Refusal.bad (Demo.world [])
        = Ok (<["static" := (add (replay (newBatch 0 0) Refusal.good) Refusal.bad).1]>
                Refusal.open, false) w' ∧
        droppedEntries (metrics w') = droppedEntries (metrics (Demo.world [])) + 1.
Proof.
  apply (proj1 (proj2 (proj2 (@dispatcher_add_errors Demo.collaborators _ Demo.backoff
           Demo.version Demo.theClient Refusal.open Refusal.bad (Demo.world []))))
           (replay (newBatch 0 0) Refusal.good)).
  - vm_compute. reflexivity.
  - vm_compute. discriminate.
Defined.

(** A refused first entry of a tenant is passed over in silence and the loop
    goes on; a refused entry for an open batch ends the loop at once. *)
Example dispatch_refused_first_entry :
  let r := runSendSide Demo.version Demo.theClient
             [EvEntry Refusal.bad; EvEntry Refusal.good; EvClosed]
             (Demo.world [Demo.ok200]) in
  resultOf r = Some tt ∧ droppedEntries (metrics (worldOf r)) = 0 ∧
  sentEntries (metrics (worldOf r)) = 1.
Proof. vm_compute. done. Qed.

Example dispatch_refused_later_entry :
  let r := runSendSide Demo.version Demo.theClient
             [EvEntry Refusal.good; EvEntry Refusal.bad; EvEntry Refusal.good; EvClosed]
             (Demo.world [Demo.ok200]) in
  resultOf r = Some tt ∧ droppedEntries (metrics (worldOf r)) = 1 ∧
  sentEntries (metrics (worldOf r)) = 1.
Proof. vm_compute. done. Qed.

(** ** Batches and the entries they hold *)

Section BatchFacts.
Context `{Collaborators}.

Lemma entriesCount_items (tenantID : string) (b : batch) :
  entriesCount b = length (batchItems tenantID b).
Proof.
  unfold entriesCount, batchItems, streamList.
  induction (map_to_list (streams b)) as [|[k s] l IH]; [done|].
  rewrite !fmap_cons, bind_cons, length_app, length_fmap. simpl. by rewrite IH.
Qed.

Lemma batchItems_newBatch tenantID maxStreams now :
  batchItems tenantID (newBatch maxStreams now) = [].
Proof. unfold batchItems. simpl. by rewrite map_to_list_empty. Qed.

Lemma batchItems_replay (tenantID : string) (b : batch) (e : api_Entry) :
  batchItems tenantID (replay b e)
  ≡ₚ batchItems tenantID b ++ [(tenantID, labelsMapToString (Labels e), Entry e)].
Proof.
  unfold batchItems, replay. simpl.
  set (k := labelsMapToString (Labels e)).
  destruct (streams b !! k) as [s0|] eqn:Hk.
  - rewrite <- insert_delete_eq.
    rewrite map_to_list_insert by apply lookup_delete_eq.
    rewrite <- (map_to_list_delete (streams b) k s0 Hk).
    rewrite !bind_cons. simpl. rewrite fmap_app. simpl.
    rewrite <- !app_assoc. apply Permutation_app_head, Permutation_app_comm.
  - rewrite map_to_list_insert by done. rewrite bind_cons. simpl.
    apply Permutation_cons_append.
Qed.

Lemma entriesCount_newBatch maxStreams now : entriesCount (newBatch maxStreams now) = 0%nat.
Proof. by rewrite (entriesCount_items ""), batchItems_newBatch. Qed.

Lemma entriesCount_replay (b : batch) (e : api_Entry) :
  entriesCount (replay b e) = S (entriesCount b).
Proof.
  rewrite !(entriesCount_items ""), batchItems_replay, length_app. simpl. lia.
Qed.

Lemma bytes_replay (b : batch) (e : api_Entry) : bytes (replay b e) = sizeBytesAfter b e.
Proof. reflexivity. Qed.

(** An entry placed in a batch just created is alone in it. *)
Lemma batchItems_replay_new tenantID maxStreams now (e : api_Entry) :
  batchItems tenantID (replay (newBatch maxStreams now) e)
  = [(tenantID, labelsMapToString (Labels e), Entry e)].
Proof.
  apply Permutation_singleton_r.
  by rewrite batchItems_replay, batchItems_newBatch.
Qed.

Lemma fits_newBatch maxSize maxStreams now : 0 ≤ maxSize → fits maxSize (newBatch maxStreams now).
Proof. intros Hs. by left. Qed.

Lemma fits_replay_new maxSize maxStreams now e :
  fits maxSize (replay (newBatch maxStreams now) e).
Proof. right. by rewrite entriesCount_replay, entriesCount_newBatch. Qed.

Lemma fits_replay maxSize b e :
  sizeBytesAfter b e ≤ maxSize → fits maxSize (replay b e).
Proof. intros Hs. left. by rewrite bytes_replay. Qed.

Lemma fits_add_new maxSize maxStreams now e :
  0 ≤ maxSize → fits maxSize (add (newBatch maxStreams now) e).1.
Proof.
  intros Hs. unfold add. destruct (addCheck _ e); simpl.
  - by apply fits_newBatch.
  - apply fits_replay_new.
Qed.

Lemma fits_add maxSize b e :
  fits maxSize b → sizeBytesAfter b e ≤ maxSize → fits maxSize (add b e).1.
Proof.
  intros Hb Hs. unfold add. destruct (addCheck b e); simpl; [done|].
  by apply fits_replay.
Qed.

(** What [add] puts in the batch: the entry, or nothing when it refuses. *)
Lemma batchItems_add tenantID b e :
  batchItems tenantID (add b e).1
  ⊆+ batchItems tenantID b ++ [(tenantID, labelsMapToString (Labels e), Entry e)].
Proof.
  unfold add. destruct (addCheck b e); simpl.
  - by apply submseteq_inserts_r.
  - by rewrite batchItems_replay.
Qed.

End BatchFacts.

(** ** What is sent, and in which batches *)

Lemma post_bind {A C} (m : M A) (f : A → M C) (w : World)
    (Q1 : A → World → Prop) (Q : C → World → Prop) (Qs : World → Prop) :
  post (m w) Q1 Qs →
  (∀ a w1, Q1 a w1 → post (f a w1) Q Qs) →
  post ((m ≫= f) w) Q Qs.
Proof.
  intros Hm Hf. rewrite bind_eq. destruct (m w) as [a w1|h w1]; simpl in *; auto.
Qed.

Lemma post_worldOf {A} (r : Res A) (Qs : World → Prop) :
  post r (λ _, Qs) Qs ↔ Qs (worldOf r).
Proof. by destruct r. Qed.

Lemma post_impl {A} (r : Res A) (Q Q' : A → World → Prop) (Qs Qs' : World → Prop) :
  post r Q Qs → (∀ a w, Q a w → Q' a w) → (∀ w, Qs w → Qs' w) → post r Q' Qs'.
Proof. destruct r; simpl; auto. Qed.

Lemma openItems_delete (batches : gmap string batch) t b :
  batches !! t = Some b →
  openItems batches ≡ₚ batchItems t b ++ openItems (delete t batches).
Proof.
  intros Hb. unfold openItems, sentItems.
  by rewrite <- (map_to_list_delete batches t b Hb), bind_cons.
Qed.

Lemma openItems_insert_None (batches : gmap string batch) t b :
  batches !! t = None →
  openItems (<[t := b]> batches) ≡ₚ batchItems t b ++ openItems batches.
Proof.
  intros Hb. unfold openItems, sentItems.
  by rewrite map_to_list_insert, bind_cons.
Qed.

Lemma openItems_insert_Some (batches : gmap string batch) t b0 b :
  batches !! t = Some b0 →
  openItems (<[t := b]> batches) ≡ₚ batchItems t b ++ openItems (delete t batches).
Proof.
  intros Hb. rewrite <- insert_delete_eq.
  apply openItems_insert_None, lookup_delete_eq.
Qed.

Section SendLog.
Context `{Collaborators} {B : Type} `{Backoff B}.
Variable build_Version : string.

Lemma sendBatch_post c tenantID b w :
  post (sendBatch build_Version c tenantID b w)
    (λ _ w', sent w' = (tenantID, b) :: sent w)
    (λ w', sent w' = (tenantID, b) :: sent w).
Proof.
  apply post_worldOf. by destruct (sendBatch_log build_Version c tenantID b w) as [-> _].
Qed.

(** ** The invariant of the loops *)

Section Invariant.
Variable c : client.
Variable F : batch → Prop.

Local Abbreviation Good := (Good F).
Local Abbreviation GoodSent := (GoodSent F).

Lemma Good_GoodSent P batches w : Good P batches w → GoodSent P w.
Proof.
  intros (_ & Hs & Hi). split; [done|].
  etrans; [|exact Hi]. by apply submseteq_inserts_r.
Qed.

Lemma Good_sent_eq P batches w w' : sent w' = sent w → Good P batches w → Good P batches w'.
Proof. unfold Good. by intros ->. Qed.

(** Sending an open batch and taking it off the map. *)
Lemma Good_flush P batches w w' t b :
  batches !! t = Some b → sent w' = (t, b) :: sent w →
  Good P batches w → Good P (delete t batches) w'.
Proof.
  intros Hb Hs (Ho & Hf & Hi). unfold Good. rewrite Hs. split; [|split].
  - by apply map_Forall_delete.
  - constructor; [|done]. by apply (Ho t b).
  - unfold sentItems at 1. rewrite bind_cons. fold (sentItems (sent w)). simpl.
    rewrite (openItems_delete batches t b Hb) in Hi.
    etrans; [|exact Hi]. apply Permutation_submseteq. solve_Permutation.
Qed.

(** Putting a batch back under a key that is free. *)
Lemma Good_insert P batches w t b items :
  batches !! t = None → F b → batchItems t b ⊆+ items →
  Good P batches w → Good (P ++ items) (<[t := b]> batches) w.
Proof.
  intros Hb HF Hitems (Ho & Hf & Hi). split; [|split].
  - by apply map_Forall_insert_2.
  - done.
  - rewrite openItems_insert_None by done.
    trans ((sentItems (sent w) ++ openItems batches) ++ batchItems t b).
    { apply Permutation_submseteq. solve_Permutation. }
    by apply submseteq_app.
Qed.

Lemma Good_weaken P P' batches w : P ⊆+ P' → Good P batches w → Good P' batches w.
Proof. intros HP (Ho & Hf & Hi). repeat split; [done..|]. by etrans. Qed.

Lemma GoodSent_weaken P P' w : P ⊆+ P' → GoodSent P w → GoodSent P' w.
Proof. intros HP (Hf & Hi). split; [done|]. by etrans. Qed.

(** Replacing the batch under a key by one that holds [items] more. *)
Lemma Good_update P batches w t b0 b items :
  batches !! t = Some b0 → F b → batchItems t b ⊆+ batchItems t b0 ++ items →
  Good P batches w → Good (P ++ items) (<[t := b]> batches) w.
Proof.
  intros Hb HF Hitems (Ho & Hf & Hi). split; [|split].
  - by apply map_Forall_insert_2.
  - done.
  - rewrite (openItems_insert_Some batches t b0 b Hb).
    rewrite (openItems_delete batches t b0 Hb) in Hi.
    trans (sentItems (sent w) ++ (batchItems t b0 ++ items) ++ openItems (delete t batches)).
    { apply submseteq_app; [done|]. by apply submseteq_app. }
    trans ((sentItems (sent w) ++ batchItems t b0 ++ openItems (delete t batches)) ++ items).
    { apply Permutation_submseteq. solve_Permutation. }
    by apply submseteq_app.
Qed.

End Invariant.
End SendLog.

Section DispatcherInvariant.
Context `{Collaborators} {B : Type} `{Backoff B}.
Variable build_Version : string.
Variable c : client.
Variable F : batch → Prop.
Hypothesis F_first : ∀ now e, F (add (newBatch 0 now) e).1.
Hypothesis F_add :
  ∀ b e, F b → sizeBytesAfter b e ≤ BatchSize (cfg c) → F (add b e).1.

Local Abbreviation Good := (Good F).
Local Abbreviation GoodSent := (GoodSent F).

Lemma batchItems_add_new t now e :
  batchItems t (add (newBatch 0 now) e).1 ⊆+ [(t, labelsMapToString (Labels e), Entry e)].
Proof.
  etrans; [apply batchItems_add|]. by rewrite batchItems_newBatch.
Qed.

(** Sending an open batch in the middle of a computation. *)
Lemma post_bind_send {C} P batches t b w (f : option error → M C)
    (Q : C → World → Prop) :
  batches !! t = Some b → Good P batches w →
  (∀ r w1, sent w1 = (t, b) :: sent w → post (f r w1) Q (λ w', GoodSent P w')) →
  post ((sendBatch build_Version c t b ≫= f) w) Q (λ w', GoodSent P w').
Proof.
  intros Hb HG Hf. eapply post_bind; [|exact Hf].
  eapply post_impl; [apply sendBatch_post|done|].
  intros w1 Hs. simpl in Hs. eapply Good_GoodSent, Good_flush; eauto.
Qed.

Lemma handleEntry_Good P batches e w :
  Good P batches w →
  post (handleEntry build_Version c batches e w)
    (λ r w', Good (P ++ [entryItem c e]) r.1 w')
    (λ w', GoodSent P w').
Proof.
  intros HG. unfold handleEntry, entryItem.
  destruct (processEntry c e) as [e' t]. simpl.
  destruct (batches !! t) as [b|] eqn:Hb.
  - destruct (Z.ltb_spec (BatchSize (cfg c)) (sizeBytesAfter b e')) as [Hover|Hroom].
    + eapply post_bind_send; [exact Hb|exact HG|]. simpl.
      intros _ w1 Hs.
      pose proof (Good_flush F P batches w w1 t b Hb Hs HG) as HG1.
      rewrite <- insert_delete_eq.
      apply Good_insert; [apply lookup_delete_eq|apply F_first|apply batchItems_add_new|].
      by eapply Good_sent_eq; [|exact HG1].
    + assert (Hu : Good (P ++ [(t, labelsMapToString (Labels e'), Entry e')])
                     (<[t := (add b e').1]> batches) w).
      { eapply Good_update; [exact Hb| |apply batchItems_add|exact HG].
        apply F_add; [|done]. destruct HG as (Ho & _). by apply (Ho t b). }
      destruct (add b e') as [b' [err|]]; simpl in *; exact Hu.
  - simpl. apply Good_insert; [done|apply F_first|apply batchItems_add_new|done].
Qed.

Lemma flushAged_Good P open batches w :
  NoDup open.*1 → (∀ t b, (t, b) ∈ open → batches !! t = Some b) →
  Good P batches w →
  post (flushAged build_Version c open batches w) (λ bs' w', Good P bs' w') (λ w', GoodSent P w').
Proof.
  revert batches w. induction open as [|[t b] open IH]; intros batches w Hnd Hin HG; [done|].
  apply NoDup_cons in Hnd as [Hnotin Hnd]. simpl.
  rewrite bind_eq. simpl.
  set (w1 := setTicks (S (ticks w)) w).
  assert (HG1 : Good P batches w1) by done.
  destruct (age b (clock w (ticks w)) <? BatchWait (cfg c)).
  - apply IH; [done| |done]. intros t' b' Hel. apply Hin. by right.
  - eapply post_bind_send; [apply Hin; by left|exact HG1|]. simpl.
    intros _ w2 Hs. apply IH; [done| |].
    + intros t' b' Hel. rewrite lookup_delete_ne; [apply Hin; by right|].
      intros <-. apply Hnotin. apply list_elem_of_fmap. by exists (t, b').
    + eapply Good_flush; [apply Hin; by left|exact Hs|exact HG1].
Qed.

Lemma handleTick_Good P batches w :
  Good P batches w →
  post (handleTick build_Version c batches w) (λ bs' w', Good P bs' w') (λ w', GoodSent P w').
Proof.
  intros HG. apply flushAged_Good; [apply NoDup_fst_map_to_list| |done].
  intros t b Hel. by apply elem_of_map_to_list.
Qed.

Lemma sendAll_GoodSent P open w :
  Forall (λ tb, F tb.2) open → Forall (λ tb, F tb.2) (sent w) →
  sentItems (sent w) ++ sentItems open ⊆+ P →
  GoodSent P (worldOf (sendAll build_Version c open w)).
Proof.
  revert w. induction open as [|[t b] open IH]; intros w Hopen Hsent Hitems.
  { simpl. split; [done|]. by rewrite app_nil_r in Hitems. }
  apply Forall_cons in Hopen as [Hb Hopen]. simpl.
  assert (Hstep : ∀ w1, sent w1 = (t, b) :: sent w →
            Forall (λ tb, F tb.2) (sent w1) ∧
            sentItems (sent w1) ++ sentItems open ⊆+ P).
  { intros w1 Hs. rewrite Hs. split; [by constructor|].
    etrans; [|exact Hitems].
    unfold sentItems. rewrite !bind_cons. simpl.
    apply Permutation_submseteq. solve_Permutation. }
  apply post_worldOf. eapply post_bind.
  - eapply post_impl; [apply sendBatch_post|done|].
    intros w1 Hs. simpl. destruct (Hstep w1 Hs) as [Hf Hi]. split; [done|].
    etrans; [|exact Hi]. by apply submseteq_inserts_r.
  - simpl. intros _ w1 Hs. apply post_worldOf. destruct (Hstep w1 Hs). by apply IH.
Qed.

Lemma deferred_GoodSent P batches w :
  Good P batches w → GoodSent P (worldOf (deferred build_Version c batches w)).
Proof.
  intros (Ho & Hs & Hi). apply sendAll_GoodSent; [|done|done].
  apply Forall_forall. intros [t b] Hel. apply elem_of_map_to_list in Hel. by apply (Ho t b).
Qed.

Lemma dispatch_GoodSent events : ∀ P batches w,
  Good P batches w →
  GoodSent (P ++ eventItems c events) (worldOf (dispatch build_Version c events batches w)).
Proof.
  induction events as [|ev events IH]; intros P batches w HG.
  { simpl. rewrite app_nil_r. by eapply Good_GoodSent. }
  unfold eventItems. rewrite bind_cons. fold (eventItems c events).
  destruct ev as [e| |]; simpl.
  - rewrite cons_middle, app_assoc.
    apply post_worldOf. eapply post_bind.
    + eapply post_impl; [by apply handleEntry_Good|intros a w1 HQ; exact HQ|].
      intros w1 HGs. simpl. eapply GoodSent_weaken; [|exact HGs].
      rewrite <- app_assoc. by apply submseteq_inserts_r.
    + simpl. intros [bs' ok] w1 HG1. simpl in HG1. apply post_worldOf.
      destruct ok.
      * by apply IH.
      * eapply GoodSent_weaken; [|by apply deferred_GoodSent].
        by apply submseteq_inserts_r.
  - eapply GoodSent_weaken; [|by apply deferred_GoodSent]. by apply submseteq_inserts_r.
  - apply post_worldOf. eapply post_bind.
    + eapply post_impl; [by apply handleTick_Good|intros a w1 HQ; exact HQ|].
      intros w1 HGs. simpl. eapply GoodSent_weaken; [|exact HGs].
      by apply submseteq_inserts_r.
    + simpl. intros bs' w1 HG1. apply post_worldOf. by apply IH.
Qed.

End DispatcherInvariant.

Section ReplayInvariant.
Context `{Collaborators} {B : Type} `{Backoff B}.
Variable build_Version : string.
Variable c : client.
Variable F : batch → Prop.
Hypothesis F_new : ∀ now, F (newBatch 0 now).
Hypothesis F_first : ∀ now e, F (replay (newBatch 0 now) e).
Hypothesis F_replay :
  ∀ b e, F b → sizeBytesAfter b e ≤ BatchSize (cfg c) → F (replay b e).

Local Abbreviation Good := (Good F).
Local Abbreviation GoodSent := (GoodSent F).
Local Abbreviation Replaying := (Replaying F).
Local Abbreviation Idle := (Idle F).

Lemma Replaying_open P t b w : Idle P w → F b → batchItems t b = [] → Replaying P t b w.
Proof.
  intros HI HF Hb. unfold Replaying. rewrite <- insert_empty.
  eapply Good_weaken; [|apply (Good_insert F P ∅ w t b []); try done].
  - by rewrite app_nil_r.
  - by rewrite Hb.
Qed.

Lemma Replaying_flush P t b w w1 :
  sent w1 = (t, b) :: sent w → Replaying P t b w → Idle P w1.
Proof.
  intros Hs HG. unfold Idle. rewrite <- (delete_singleton_eq t b).
  eapply Good_flush; [apply lookup_singleton_eq|exact Hs|exact HG].
Qed.

Lemma Replaying_first P t now e w :
  Idle P w →
  Replaying (P ++ [(t, labelsMapToString (Labels e), Entry e)]) t
    (replay (newBatch 0 now) e) w.
Proof.
  intros HI. unfold Replaying. rewrite <- insert_empty.
  apply Good_insert; [done|apply F_first| |done].
  by rewrite batchItems_replay_new.
Qed.

Lemma Replaying_replay P t b e w :
  sizeBytesAfter b e ≤ BatchSize (cfg c) → Replaying P t b w →
  Replaying (P ++ [(t, labelsMapToString (Labels e), Entry e)]) t (replay b e) w.
Proof.
  intros Hroom HG. unfold Replaying. rewrite <- (insert_singleton_eq t (replay b e) b).
  eapply Good_update; [apply lookup_singleton_eq| | |exact HG].
  - apply F_replay; [|done]. destruct HG as (Ho & _).
    apply (Ho t b), lookup_singleton_eq.
  - by rewrite batchItems_replay.
Qed.

Lemma post_bind_flush {C} P P' t b w (f : option error → M C) (Q : C → World → Prop) :
  P ⊆+ P' → Replaying P t b w →
  (∀ r w1, Idle P w1 → post (f r w1) Q (λ w', GoodSent P' w')) →
  post ((sendBatch build_Version c t b ≫= f) w) Q (λ w', GoodSent P' w').
Proof.
  intros HP HG Hf. eapply post_bind.
  - eapply post_impl; [apply sendBatch_post|intros a w1 HQ; exact HQ|].
    intros w1 Hs. simpl in Hs. eapply GoodSent_weaken; [exact HP|].
    eapply Good_GoodSent, Replaying_flush; eauto.
  - simpl. intros r w1 Hs. apply Hf. eapply Replaying_flush; eauto.
Qed.

Lemma replayEntries_Good t l es : ∀ P b w,
  Replaying P t b w →
  post (replayEntries build_Version c t l es b w)
    (λ b' w', Replaying (P ++ entriesItems t l es) t b' w')
    (λ w', GoodSent (P ++ entriesItems t l es) w').
Proof.
  induction es as [|e es IH]; intros P b w HG.
  { simpl. by rewrite app_nil_r. }
  simpl. rewrite cons_middle, app_assoc.
  set (entry := {| Labels := l; Entry := e |}).
  set (item := (t, labelsMapToString l, e)).
  destruct (Z.ltb_spec (BatchSize (cfg c)) (sizeBytesAfter b entry)) as [Hover|Hroom].
  - eapply (post_bind_flush P); [|exact HG|].
    + rewrite <- app_assoc. by apply submseteq_inserts_r.
    + intros _ w1 HI. simpl. eapply Good_weaken; [|by apply (Replaying_first P t _ entry)].
      by apply submseteq_inserts_r.
  - apply IH. by apply (Replaying_replay P t b entry).
Qed.

Lemma replaySamples_Good t seriesRecs refEntries : ∀ P b w,
  Replaying P t b w →
  post (replaySamples build_Version c t seriesRecs refEntries b w)
    (λ b' w', Replaying (P ++ samplesItems t seriesRecs refEntries) t b' w')
    (λ w', GoodSent (P ++ samplesItems t seriesRecs refEntries) w').
Proof.
  induction refEntries as [|[ref es] rest IH]; intros P b w HG.
  { simpl. by rewrite app_nil_r. }
  simpl. destruct (seriesRecs !! ref) as [l|]; [|by apply IH].
  rewrite app_assoc. eapply post_bind.
  - eapply post_impl; [by apply replayEntries_Good|intros a w1 HQ; exact HQ|].
    intros w1 HGs. simpl in *. eapply GoodSent_weaken; [|exact HGs].
    by apply submseteq_inserts_r.
  - simpl. intros b1 w1 HG1. by apply IH.
Qed.

Lemma replayRecords_Good t records : ∀ seriesRecs P b w,
  Replaying P t b w →
  post (replayRecords build_Version c t records seriesRecs b w)
    (λ b' w', Replaying (P ++ recordsItems t records seriesRecs) t b' w')
    (λ w', GoodSent (P ++ recordsItems t records seriesRecs) w').
Proof.
  induction records as [|rec records IH]; intros seriesRecs P b w HG.
  { simpl. by rewrite app_nil_r. }
  simpl. rewrite bind_eq.
  assert (Hlog : ∃ w0, sent w0 = sent w ∧
            (if rec_decodeErr rec is Some _
             then logMsg Warn "failed to decode a wal record" else mret tt) w = Ok tt w0).
  { destruct (rec_decodeErr rec); eexists; (split; [|reflexivity]); done. }
  destruct Hlog as (w0 & Hs0 & ->).
  assert (HG0 : Replaying P t b w0) by (by eapply Good_sent_eq).
  rewrite app_assoc. eapply post_bind.
  - eapply post_impl; [by apply replaySamples_Good|intros a w1 HQ; exact HQ|].
    intros w1 HGs. simpl in *. eapply GoodSent_weaken; [|exact HGs].
    by apply submseteq_inserts_r.
  - simpl. intros b1 w1 HG1. by apply IH.
Qed.

Lemma replayTenants_GoodSent p tenantDirs : ∀ P w,
  Idle P w →
  GoodSent (P ++ tenantsItems p tenantDirs)
    (worldOf (replayTenants build_Version c p tenantDirs w)).
Proof.
  induction tenantDirs as [|tenantDir rest IH]; intros P w HI.
  { simpl. rewrite app_nil_r. by eapply Good_GoodSent. }
  simpl. destruct (wal_NewWalReader p tenantDir) as [err|records].
  { simpl. rewrite app_nil_r. by eapply Good_GoodSent. }
  set (t := afterLastSlash tenantDir tenantDir).
  rewrite bind_eq. simpl. rewrite app_assoc.
  set (w0 := setTicks (S (ticks w)) w).
  assert (HG0 : Replaying P t (newBatch 0 (clock w (ticks w))) w0).
  { apply Replaying_open; [done|apply F_new|apply batchItems_newBatch]. }
  apply post_worldOf. eapply post_bind.
  - eapply post_impl; [by apply replayRecords_Good|intros a w1 HQ; exact HQ|].
    intros w1 HGs. simpl in *. eapply GoodSent_weaken; [|exact HGs].
    by apply submseteq_inserts_r.
  - simpl. intros b1 w1 HG1.
    eapply (post_bind_flush (P ++ recordsItems t records ∅)); [|exact HG1|].
    + by apply submseteq_inserts_r.
    + intros _ w2 HI2. apply post_worldOf. by apply IH.
Qed.

Lemma replayWAL_GoodSent p P w :
  Idle P w → GoodSent (P ++ walItems c p) (worldOf (replayWAL build_Version c p w)).
Proof.
  intros HI. unfold replayWAL, walItems.
  assert (Hidle : ∀ Q, GoodSent (P ++ Q) w).
  { intros Q. eapply GoodSent_weaken; [|by eapply Good_GoodSent].
    by apply submseteq_inserts_r. }
  set (base := path_Join p (WAL_Dir (cfg c)) (name c)).
  set (matches := filepath_Glob p (base +:+ "/*")).
  assert (Hrun : GoodSent
            (P ++ match tenantDirsOf p matches with
                  | Some tenantDirs => tenantsItems p tenantDirs
                  | None => []
                  end)
            (worldOf (match tenantDirsOf p matches with
                      | Some tenantDirs =>
                          if (length matches <? 1)%nat then mret None
                          else replayTenants build_Version c p tenantDirs
                      | None => halt Panic
                      end w))).
  { destruct (tenantDirsOf p matches) as [tenantDirs|]; [|apply Hidle].
    destruct (length matches <? 1)%nat; [apply Hidle|].
    by apply replayTenants_GoodSent. }
  destruct (os_Stat p base); [exact Hrun|apply Hidle|exact Hrun].
Qed.

End ReplayInvariant.

(** ** Batches and the maximum size *)

Section Overflow.
Context `{Collaborators} {B : Type} `{Backoff B}.
Variable build_Version : string.

(** The dispatcher on an entry that does not fit the open batch of its
    tenant: the open batch is sent as it is, and a batch created for the
    entry takes its place. *)
Lemma handleEntry_overflow (c : client) (batches : gmap string batch) (e : api_Entry)
    (w : World) (b : batch) :
  let e' := (processEntry c e).1 in
  let t := (processEntry c e).2 in
  batches !! t = Some b → BatchSize (cfg c) < sizeBytesAfter b e' →
  sent (worldOf (handleEntry build_Version c batches e w)) = (t, b) :: sent w ∧
  ∀ batches' ok w',
    handleEntry build_Version c batches e w = Ok (batches', ok) w' →
    ∃ now, batches' = <[t := (add (newBatch 0 now) e').1]> batches ∧
           ((add (newBatch 0 now) e').2 = None →
            batchItems t (add (newBatch 0 now) e').1
            = [(t, labelsMapToString (Labels e'), Entry e')]).
Proof.
  intros e' t. subst e' t. unfold handleEntry.
  destruct (processEntry c e) as [e' t]. simpl. intros Hb Hover.
  apply Z.ltb_lt in Hover. rewrite Hb, Hover. rewrite bind_eq.
  pose proof (sendBatch_post build_Version c t b w) as Hs.
  destruct (sendBatch build_Version c t b w) as [r w1|h w1]; simpl in Hs.
  - rewrite bind_eq. simpl. split; [done|].
    intros batches' ok w' [= <- <- <-]. eexists. split; [reflexivity|].
    unfold add. destruct (addCheck _ e'); simpl; [done|]. intros _.
    apply batchItems_replay_new.
  - split; [done|]. discriminate.
Qed.

(** The replay on an entry that does not fit the open batch. *)
Lemma replayEntries_overflow (c : client) (t : string) (l : LabelSet)
    (e : logproto_Entry) (es : list logproto_Entry) (b : batch) (w : World) :
  BatchSize (cfg c) < sizeBytesAfter b {| Labels := l; Entry := e |} →
  sent (worldOf (replayEntries build_Version c t l (e :: es) b w)) = (t, b) :: sent w ∧
  ∀ b' w',
    replayEntries build_Version c t l (e :: es) b w = Ok b' w' →
    batchItems t b' = [(t, labelsMapToString l, e)].
Proof.
  intros Hover. simpl. apply Z.ltb_lt in Hover. rewrite Hover. rewrite bind_eq.
  pose proof (sendBatch_post build_Version c t b w) as Hs.
  destruct (sendBatch build_Version c t b w) as [r w1|h w1]; simpl in Hs.
  - rewrite bind_eq. simpl. split; [done|].
    intros b' w' [= <- <-]. apply (batchItems_replay_new t 0 _ {| Labels := l; Entry := e |}).
  - split; [done|]. discriminate.
Qed.

End Overflow.

(** In the replay a flush for size ends the loop over the entries of the
    sample record: the entries after the one that did not fit are not looked
    at, whatever they are. *)
Lemma replayEntries_flush_ends_sample `{Collaborators} {B : Type} `{Backoff B}
    (build_Version : string) (c : client) (t : string) (l : LabelSet)
    (e : logproto_Entry) (es : list logproto_Entry) (b : batch) (w : World) :
  BatchSize (cfg c) < sizeBytesAfter b {| Labels := l; Entry := e |} →
  replayEntries build_Version c t l (e :: es) b w
  = replayEntries build_Version c t l [e] b w.
Proof.
  intros Hover. simpl. apply Z.ltb_lt in Hover. by rewrite Hover.
Qed.

Lemma replayEntries_flush_ends_sample_witness :
  replayEntries Demo.version Demo.theClient "t1" {[ "job" := "x" ]}
    (Entry <$> [Overflowing.medium; Overflowing.huge; Overflowing.small])
    (replay (newBatch 0 0) Overflowing.small) (Demo.world [Demo.ok200])
  = replayEntries Demo.version Demo.theClient "t1" {[ "job" := "x" ]}
      [Entry Overflowing.medium]
      (replay (newBatch 0 0) Overflowing.small) (Demo.world [Demo.ok200]).
Proof.
  apply (@replayEntries_flush_ends_sample Demo.collaborators _ Demo.backoff).
  vm_compute. reflexivity.
Defined.

(** The dispatcher on entries of 5, 7, 14 and 5 bytes with a maximum of 10:
    four sends, of 5, 7, 14 and 5 bytes. *)
Example runSendSide_splits_on_size :
  let w := worldOf (runSendSide Demo.version Demo.theClient Overflowing.events
                      (Demo.world [Demo.ok200; Demo.ok200; Demo.ok200; Demo.ok200])) in
  (λ tb, (bytes tb.2, entriesCount tb.2)) <$> sent w = [(5, 1%nat); (14, 1%nat); (7, 1%nat); (5, 1%nat)].
Proof. vm_compute. done. Qed.

(** The replay of the same four entries from one sample record: the send of
    the first entry, then the end of the loop over the record's entries at
    the first flush, so that the batch sent last holds the second entry only
    and the last two entries are not sent. *)
Example replayWAL_splits_on_size :
  let w := worldOf (replayWAL Demo.version Demo.theClient Overflowing.disk
                      (Demo.world [Demo.ok200; Demo.ok200; Demo.ok200; Demo.ok200])) in
  (λ tb, (tb.1, bytes tb.2, entriesCount tb.2)) <$> sent w
  = [("t1", 7, 1%nat); ("t1", 5, 1%nat)].
Proof. vm_compute. done. Qed.

(** * Further properties of the code *)

(** ** The tenant of a WAL directory *)

Lemma afterLastSlash_lastSegment (s cur : string) :
  afterLastSlash s cur = default cur (lastSegment s).
Proof.
  revert cur. induction s as [|a s IH]; intros cur; [done|]. simpl.
  destruct (Ascii.eqb a "/"); rewrite IH; by destruct (lastSegment s).
Qed.

Lemma lastSegment_None (s : string) : lastSegment s = None ↔ hasChar "/" s = false.
Proof.
  induction s as [|a s IH]; [done|]. simpl.
  destruct (lastSegment s) as [r|].
  - split; [done|]. intros Hf. apply orb_false_iff in Hf as [_ Hf].
    by apply IH in Hf.
  - destruct (Ascii.eqb a "/"); simpl; [done|]. split; [intros _; by apply IH|done].
Qed.

Lemma lastSegment_Some (s r : string) :
  lastSegment s = Some r → hasChar "/" r = false ∧ ∃ p, s = p +:+ String "/" r.
Proof.
  revert r. induction s as [|a s IH]; intros r; [done|]. simpl.
  destruct (lastSegment s) as [r'|] eqn:Hs.
  - intros [= <-]. destruct (IH r' eq_refl) as [Hr (p & ->)].
    split; [done|]. by exists (String a p).
  - destruct (Ascii.eqb_spec a "/") as [->|]; [|done].
    intros [= <-]. split; [by apply lastSegment_None|]. by exists "".
Qed.

Lemma lastSegment_app (p t : string) :
  hasChar "/" t = false → lastSegment (p +:+ String "/" t) = Some t.
Proof.
  intros Ht. induction p as [|a p IH]; simpl.
  - apply lastSegment_None in Ht. by rewrite Ht.
  - by rewrite IH.
Qed.

(** The tenant ID the replay takes from a tenant directory has no slash and
    is what follows the last slash of the path (the whole path when it has
    none); a tenant ID without a slash comes back from the path of its
    directory. *)
Theorem afterLastSlash_tenant (tenantDir : string) :
  let tenantID := afterLastSlash tenantDir tenantDir in
  hasChar "/" tenantID = false ∧
  (hasChar "/" tenantDir = false ∧ tenantID = tenantDir ∨
   ∃ p, tenantDir = p +:+ String "/" tenantID) ∧
  (∀ base t, hasChar "/" t = false →
     afterLastSlash (base +:+ String "/" t) (base +:+ String "/" t) = t).
Proof.
  cbv zeta. rewrite afterLastSlash_lastSegment. split; [|split].
  - destruct (lastSegment tenantDir) as [r|] eqn:Hs; simpl.
    + by apply lastSegment_Some in Hs as [? _].
    + by apply lastSegment_None.
  - destruct (lastSegment tenantDir) as [r|] eqn:Hs; simpl.
    + right. by apply lastSegment_Some in Hs as [_ ?].
    + left. split; [by apply lastSegment_None|done].
  - intros base t Ht. by rewrite afterLastSlash_lastSegment, lastSegment_app.
Qed.

(** ** The first line of an error body *)

Lemma takeString_length (n : nat) (s : string) : (String.length (takeString n s) ≤ n)%nat.
Proof.
  revert s. induction n as [|n IH]; intros [|a s]; simpl; try lia.
  specialize (IH s). lia.
Qed.

Lemma untilNewline_spec (s : string) :
  (String.length (untilNewline s) ≤ String.length s)%nat ∧
  hasChar "010" (untilNewline s) = false.
Proof.
  induction s as [|a s [IHl IHc]]; [done|]. simpl.
  destruct (Ascii.eqb a "010") eqn:Ha; simpl; [split; [lia|done]|].
  rewrite Ha. split; [lia|done].
Qed.

Lemma dropCR_spec (a : ascii) (s : string) :
  (String.length (dropCR s) ≤ String.length s)%nat ∧
  (hasChar a s = false → hasChar a (dropCR s) = false).
Proof.
  induction s as [|a' s [IHl IHc]]; [done|].
  destruct s as [|a'' s].
  - simpl. destruct (Ascii.eqb a' "013"); simpl; split; (lia || done).
  - change (dropCR (String a' (String a'' s))) with (String a' (dropCR (String a'' s))).
    split; [simpl in *; lia|].
    change (hasChar a (String a' ?x)) with (Ascii.eqb a' a || hasChar a x).
    intros Hf. apply orb_false_iff in Hf as [-> Hf]. by apply IHc.
Qed.

Lemma dropCR_id (s : string) : hasChar "013" s = false → dropCR s = s.
Proof.
  induction s as [|a' s IH]; [done|]. simpl. intros Hf.
  apply orb_false_iff in Hf as [Ha Hf]. rewrite Ha.
  destruct s; [done|]. by rewrite IH.
Qed.

Lemma untilNewline_id (s : string) : hasChar "010" s = false → untilNewline s = s.
Proof.
  induction s as [|a' s IH]; [done|]. simpl. intros Hf.
  apply orb_false_iff in Hf as [-> Hf]. by rewrite IH.
Qed.

Lemma takeString_id (n : nat) (s : string) : (String.length s ≤ n)%nat → takeString n s = s.
Proof.
  revert s. induction n as [|n IH]; intros [|a s]; simpl; try done; try lia.
  intros Hl. rewrite IH; [done|lia].
Qed.

(** The line [send] quotes from the body of a response that is not a 2xx is
    at most [maxErrMsgLen] bytes long and holds no line feed; a body of at
    most [maxErrMsgLen] bytes without line feed or carriage return is quoted
    whole. *)
Theorem firstLine_bounded (body : string) :
  (String.length (firstLine body) ≤ maxErrMsgLen)%nat ∧
  hasChar "010" (firstLine body) = false ∧
  ((String.length body ≤ maxErrMsgLen)%nat → hasChar "010" body = false →
   hasChar "013" body = false → firstLine body = body).
Proof.
  unfold firstLine. split; [|split].
  - pose proof (takeString_length maxErrMsgLen body).
    pose proof (untilNewline_spec (takeString maxErrMsgLen body)) as [? _].
    pose proof (dropCR_spec "010" (untilNewline (takeString maxErrMsgLen body))) as [? _].
    lia.
  - apply dropCR_spec, untilNewline_spec.
  - intros Hl Hn Hr. rewrite takeString_id, untilNewline_id, dropCR_id; done.
Qed.

(** ** What [send] returns *)

(** [send] returns a nil error exactly when a response arrived whose status
    is between 200 and 299; the status is -1 exactly when no response
    arrived or the server sent -1 itself; the error of a response that is
    not a 2xx carries the status code and the first line of the body. *)
Theorem send_status_and_error (build_Version : string) (c : client) (tenantID : string)
    (buf : list Byte.byte) (rt : RoundTrip) :
  let r := (send build_Version c tenantID buf rt).2 in
  (r.2 = None ↔ ∃ status code body, rt = DoResponse status code body ∧ 200 ≤ code ≤ 299) ∧
  (∀ status code body, rt = DoResponse status code body →
     r.1 = code ∧
     (¬ 200 ≤ code ≤ 299 → r.2 = Some (ErrHTTPStatus status code (firstLine body)))) ∧
  (∀ err, rt = NewRequestError err ∨ rt = DoError err → r = (-1, Some err)) ∧
  (∀ err, rt = NewRequestError err → (send build_Version c tenantID buf rt).1 = None).
Proof.
  assert (Hq : ∀ code, Z.quot code 100 = 2 ↔ 200 ≤ code ≤ 299).
  { intros code. split.
    - intros Hc. pose proof (Z.quot_rem' code 100) as Hd.
      pose proof (Z.rem_bound_abs code 100 ltac:(lia)) as Ha.
      assert (0 ≤ code) as Hpos by lia.
      pose proof (Z.rem_bound_pos code 100 Hpos ltac:(lia)). lia.
    - intros Hc. symmetry. apply (Z.quot_unique code 100 2 (code - 200)); lia. }
  cbv zeta. split; [|split; [|split]].
  - destruct rt as [e|e|status code body]; simpl.
    + split; [done|]. by intros (? & ? & ? & ? & _).
    + split; [done|]. by intros (? & ? & ? & ? & _).
    + destruct (Z.eqb_spec (Z.quot code 100) 2) as [He|He]; simpl.
      * split; [|done]. intros _. exists status, code, body. split; [done|]. by apply Hq.
      * split; [done|]. intros (? & ? & ? & [= <- <- <-] & Hc). by apply Hq in Hc.
  - intros status code body ->. simpl. split; [done|]. intros Hn.
    destruct (Z.eqb_spec (Z.quot code 100) 2) as [He|He]; [by apply Hq in He|done].
  - by intros err [->| ->].
  - by intros err ->.
Qed.

(** ** Every request of one call of [sendBatch] *)

(** The payload is encoded once: every request a call of [sendBatch] hands to
    the HTTP client is the same POST to the configured URL, with the
    configured timeout, the protobuf content type, the promtail user agent
    and, as its body, the encoded batch. *)
Theorem sendBatch_requests_identical `{Collaborators} {B : Type} `{Backoff B}
    (build_Version : string) (c : client) (tenantID : string) (b : batch)
    (buf : list Byte.byte) (n : Z) (w : World) :
  encode b = inr (buf, n) →
  ∃ new,
    requests (worldOf (sendBatch build_Version c tenantID b w)) = new ++ requests w ∧
    Forall (λ q,
      q = newRequest build_Version c tenantID buf ∧
      req_Method q = "POST" ∧ req_URL q = URL (cfg c) ∧ req_Timeout q = Timeout (cfg c) ∧
      req_Body q = buf ∧
      req_Header q !! "Content-Type" = Some contentType ∧
      req_Header q !! "User-Agent" = Some ("promtail/" +:+ build_Version)) new.
Proof.
  intros He. erewrite sendBatch_encoded by eauto.
  destruct (sendLoop_requests build_Version c tenantID b buf n (wire w)
              (backoff_New (ctxCancelled c) (Backoff_Config (cfg c)))
              (beforeLoop tenantID b buf w)) as [_ (new & Hr & Hnew)].
  exists new. split; [exact Hr|].
  eapply Forall_impl; [exact Hnew|]. intros q ->. repeat (split; [done|]).
  unfold newRequest. simpl.
  destruct (negb (String.eqb tenantID "")); simpl.
  - split.
    + rewrite !lookup_insert_ne by discriminate. apply lookup_insert_eq.
    + rewrite lookup_insert_ne by discriminate. apply lookup_insert_eq.
  - split.
    + rewrite lookup_insert_ne by discriminate. apply lookup_insert_eq.
    + apply lookup_insert_eq.
Qed.

Lemma sendBatch_requests_identical_witness :
  ∃ new,
    requests (worldOf (sendBatch Demo.version Demo.theClient "t1" Cases.twoStreams
                         (Demo.world [Demo.err500; Demo.ok200])))
    = new ++ requests (Demo.world [Demo.err500; Demo.ok200]) ∧
    Forall (λ q,
      q = newRequest Demo.version Demo.theClient "t1" (repeat Byte.x00 3) ∧
      req_Method q = "POST" ∧ req_URL q = URL (cfg Demo.theClient) ∧
      req_Timeout q = Timeout (cfg Demo.theClient) ∧
      req_Body q = repeat Byte.x00 3 ∧
      req_Header q !! "Content-Type" = Some contentType ∧
      req_Header q !! "User-Agent" = Some ("promtail/" +:+ Demo.version)) new.
Proof.
  apply (@sendBatch_requests_identical Demo.collaborators _ Demo.backoff
           Demo.version Demo.theClient "t1" Cases.twoStreams (repeat Byte.x00 3) 3).
  reflexivity.
Defined.

(** ** The labels of the lag gauge *)

Lemma foldl_insert_lookup (f : string → string) (l : list string) (m : gmap string string)
    (k : string) :
  foldl (λ m lbl, <[lbl := f lbl]> m) m l !! k
  = if bool_decide (k ∈ l) then Some (f k) else m !! k.
Proof.
  revert m. induction l as [|x l IH]; intros m; simpl; [done|].
  rewrite IH. destruct (decide (k = x)) as [->|Hne].
  - rewrite lookup_insert_eq.
    rewrite (bool_decide_eq_true_2 (x ∈ x :: l)) by (apply elem_of_cons; by left).
    by case_bool_decide.
  - rewrite lookup_insert_ne by done.
    destruct (bool_decide (k ∈ l)) eqn:Hin.
    + apply bool_decide_eq_true_1 in Hin.
      by rewrite (bool_decide_eq_true_2 (k ∈ x :: l)) by (apply elem_of_cons; by right).
    + apply bool_decide_eq_false_1 in Hin.
      rewrite (bool_decide_eq_false_2 (k ∈ x :: l)); [done|].
      intros Hel. apply elem_of_cons in Hel as [?|?]; done.
Qed.

Lemma labelValue_foldl_absent (lbls : list (string * string)) (lbl v : string) :
  lbl ∉ lbls.*1 →
  foldl (λ value l, if String.eqb l.1 lbl then l.2 else value) v lbls = v.
Proof.
  revert v. induction lbls as [|[k x] lbls IH]; intros v Hn; [done|]. simpl.
  rewrite fmap_cons in Hn. apply not_elem_of_cons in Hn as [Hne Hn]. simpl in Hne.
  destruct (String.eqb_spec k lbl) as [->|_]; [done|]. by apply IH.
Qed.

Lemma labelValue_absent (lbls : list (string * string)) (lbl : string) :
  lbl ∉ lbls.*1 → labelValue lbls lbl = "".
Proof. apply labelValue_foldl_absent. Qed.

Lemma labelValue_last (lbls lbls' : list (string * string)) (lbl v : string) :
  lbl ∉ lbls'.*1 → labelValue (lbls ++ (lbl, v) :: lbls') lbl = v.
Proof.
  intros Hn. unfold labelValue. rewrite foldl_app. simpl. rewrite String.eqb_refl.
  by apply labelValue_foldl_absent.
Qed.

(** The label set under which [sendBatch] sets the lag gauge always has the
    client's name under "client" and the host under "host", also when these
    names are among the configured lag labels; any other key is there exactly
    when it is a configured lag label, with the value of the stream's label
    of that name (the last one, should several have it) and the empty string
    when the stream has no such label. *)
Theorem lagLabelSet_keys (c : client) (lbls : list (string * string)) :
  lagLabelSet c lbls !! ClientLabel = Some (name c) ∧
  lagLabelSet c lbls !! HostLabel = Some (Host (cfg c)) ∧
  (∀ k, k ≠ ClientLabel → k ≠ HostLabel →
     lagLabelSet c lbls !! k
     = if bool_decide (k ∈ streamLagLabels c) then Some (labelValue lbls k) else None) ∧
  (∀ k, k ∉ lbls.*1 → labelValue lbls k = "") ∧
  (∀ k v before after, k ∉ after.*1 → labelValue (before ++ (k, v) :: after) k = v).
Proof.
  unfold lagLabelSet. split; [|split; [|split; [|split]]].
  - apply lookup_insert_eq.
  - rewrite lookup_insert_ne by discriminate. apply lookup_insert_eq.
  - intros k Hc Hh. rewrite !lookup_insert_ne by done.
    rewrite (foldl_insert_lookup (labelValue lbls)). by rewrite lookup_empty.
  - apply labelValue_absent.
  - intros k v before after. apply labelValue_last.
Qed.

(** ** External labels *)

(** [processEntry] leaves the timestamp and the line of the entry alone; a
    label of the entry keeps its value, and a name the entry does not have
    gets the value the external labels give it, if any. The tenant is
    resolved from the labels so merged, so an external label can set it. *)
Theorem processEntry_labels (c : client) (e : api_Entry) :
  Entry (processEntry c e).1 = Entry e ∧
  (∀ k, Labels (processEntry c e).1 !! k
        = match Labels e !! k with
          | Some v => Some v
          | None => externalLabels c !! k
          end) ∧
  (processEntry c e).2 = getTenantID c (Labels (processEntry c e).1).
Proof.
  unfold processEntry.
  destruct (Nat.ltb_spec 0 (size (externalLabels c))) as [Hpos|Hzero]; simpl.
  - split; [done|]. split; [|done]. intros k. unfold LabelSet_Merge.
    rewrite lookup_union. destruct (Labels e !! k), (externalLabels c !! k); done.
  - split; [done|]. split; [|done]. intros k.
    assert (externalLabels c = ∅) as -> by (apply map_size_empty_iff; lia).
    rewrite lookup_empty. by destruct (Labels e !! k).
Qed.

(** ** The period of the wait check *)

(** The dispatcher checks the age of its batches every tenth of [BatchWait],
    and never more often than every 10 ms. *)
Theorem maxWaitCheckFrequency_bounds (c : client) :
  maxWaitCheckFrequency c = Z.max (10 * millisecond) (Z.quot (BatchWait (cfg c)) 10) ∧
  10 * millisecond ≤ maxWaitCheckFrequency c ∧
  (100 * millisecond ≤ BatchWait (cfg c) →
   10 * maxWaitCheckFrequency c ≤ BatchWait (cfg c) < 10 * maxWaitCheckFrequency c + 10).
Proof.
  unfold maxWaitCheckFrequency, millisecond.
  destruct (Z.ltb_spec (BatchWait (cfg c) `quot` 10) (10 * 1000000)) as [Hlt|Hge].
  - split; [lia|]. split; [lia|]. intros Hw. exfalso.
    pose proof (Z.quot_rem' (BatchWait (cfg c)) 10).
    pose proof (Z.rem_bound_pos (BatchWait (cfg c)) 10 ltac:(lia) ltac:(lia)). lia.
  - split; [lia|]. split; [lia|]. intros Hw.
    pose proof (Z.quot_rem' (BatchWait (cfg c)) 10).
    pose proof (Z.rem_bound_pos (BatchWait (cfg c)) 10 ltac:(lia) ltac:(lia)). lia.
Qed.

(** ** What can panic *)

Lemma unpanicked_bind {A C} (m : M A) (f : A → M C) (w : World)
    (Q1 : A → Prop) (Q : C → Prop) :
  unpanicked (m w) Q1 → (∀ a w1, Q1 a → unpanicked (f a w1) Q) →
  unpanicked ((m ≫= f) w) Q.
Proof.
  intros Hm Hf. rewrite bind_eq. destruct (m w) as [a w1|h w1]; simpl in *; auto.
Qed.

Lemma unpanicked_impl {A} (r : Res A) (Q Q' : A → Prop) :
  unpanicked r Q → (∀ a, Q a → Q' a) → unpanicked r Q'.
Proof. destruct r; simpl; auto. Qed.

Lemma unpanicked_panics {A} (r : Res A) (Q : A → Prop) : unpanicked r Q → ¬ panics r.
Proof. destruct r as [a w|[] w]; simpl; [tauto|tauto|discriminate]. Qed.

Section Safety.
Context `{Collaborators} {B : Type} `{Backoff B}.
Variable build_Version : string.

Lemma populated_newBatch maxStreams now : populated (newBatch maxStreams now).
Proof. apply map_Forall_empty. Qed.

Lemma populated_replay b e : populated b → populated (replay b e).
Proof.
  intros Hb. unfold populated, replay. simpl. apply map_Forall_insert_2; [|done].
  destruct (streams b !! labelsMapToString (Labels e)) as [s|]; simpl; [|done].
  by destruct (Entries s).
Qed.

Lemma populated_add b e : populated b → populated (add b e).1.
Proof.
  intros Hb. unfold add. destruct (addCheck b e); simpl; [done|by apply populated_replay].
Qed.

Lemma populated_streamList b : populated b → Forall (λ s, Entries s ≠ []) (streamList b).
Proof.
  intros Hb. unfold streamList. apply Forall_fmap, Forall_forall.
  intros [k s] Hel. apply elem_of_map_to_list in Hel. by apply (Hb k s).
Qed.

Lemma updateStreamLag_unpanicked c ss w :
  Forall (λ s, Entries s ≠ []) ss →
  unpanicked (updateStreamLag c ss w) (λ _, True).
Proof.
  revert w. induction ss as [|s ss IH]; intros w Hss; [done|].
  apply Forall_cons in Hss as [Hs Hss]. simpl.
  destruct (ParseMetric (s_Labels s)); [done|].
  destruct (last (Entries s)) eqn:Hl.
  - rewrite !bind_eq. simpl. by apply IH.
  - by apply last_None in Hl.
Qed.

Lemma sendLoop_unpanicked c t b buf n script bo w :
  populated b →
  unpanicked (sendLoop build_Version c t b buf n script bo w) (λ _, True).
Proof.
  intros Hb. revert bo w. induction script as [|rt rest IH]; intros bo w; [done|].
  simpl. rewrite bind_eq, attempt_eq.
  destruct (send build_Version c t buf rt).2 as [status [err|]]; simpl.
  - destruct ((0 <? status) && negb (status =? 429) && negb (status `quot` 100 =? 5));
      [done|].
    rewrite !bind_eq. simpl.
    destruct (negb (backoff_Ongoing (backoff_Wait bo))); [done|apply IH].
  - rewrite !bind_eq. simpl. by apply updateStreamLag_unpanicked, populated_streamList.
Qed.

Lemma sendBatch_unpanicked c t b w :
  populated b → unpanicked (sendBatch build_Version c t b w) (λ _, True).
Proof.
  intros Hb. unfold sendBatch. rewrite bind_eq. simpl.
  destruct (encode b) as [err|[buf n]]; [done|].
  rewrite !bind_eq. simpl. by apply sendLoop_unpanicked.
Qed.

Lemma handleEntry_unpanicked c batches e w :
  map_Forall (λ _, populated) batches →
  unpanicked (handleEntry build_Version c batches e w) (λ r, map_Forall (λ _, populated) r.1).
Proof.
  intros Hbs. unfold handleEntry. destruct (processEntry c e) as [e' t].
  destruct (batches !! t) as [b|] eqn:Hb.
  - destruct (BatchSize (cfg c) <? sizeBytesAfter b e').
    + eapply unpanicked_bind; [apply sendBatch_unpanicked; by apply (Hbs t b)|].
      intros _ w1 _. simpl. apply map_Forall_insert_2; [|done].
      apply populated_add, populated_newBatch.
    + pose proof (populated_add b e' (Hbs t b Hb)) as Ha.
      destruct (add b e') as [b' [err|]]; simpl in *; by apply map_Forall_insert_2.
  - simpl. apply map_Forall_insert_2; [|done]. apply populated_add, populated_newBatch.
Qed.

Lemma flushAged_unpanicked c open batches w :
  Forall (λ tb, populated tb.2) open → map_Forall (λ _, populated) batches →
  unpanicked (flushAged build_Version c open batches w) (map_Forall (λ _, populated)).
Proof.
  revert batches w. induction open as [|[t b] open IH]; intros batches w Hopen Hbs; [done|].
  apply Forall_cons in Hopen as [Hb Hopen]. simpl. rewrite bind_eq. simpl.
  destruct (age b (clock w (ticks w)) <? BatchWait (cfg c)); [by apply IH|].
  eapply unpanicked_bind; [by apply sendBatch_unpanicked|].
  intros _ w1 _. apply IH; [done|]. by apply map_Forall_delete.
Qed.

Lemma populated_map_to_list (batches : gmap string batch) :
  map_Forall (λ _, populated) batches → Forall (λ tb, populated tb.2) (map_to_list batches).
Proof.
  intros Hbs. apply Forall_forall. intros [t b] Hel.
  apply elem_of_map_to_list in Hel. by apply (Hbs t b).
Qed.

Lemma sendAll_unpanicked c open w :
  Forall (λ tb, populated tb.2) open →
  unpanicked (sendAll build_Version c open w) (λ _, True).
Proof.
  revert w. induction open as [|[t b] open IH]; intros w Hopen; [done|].
  apply Forall_cons in Hopen as [Hb Hopen]. simpl.
  eapply unpanicked_bind; [by apply sendBatch_unpanicked|]. intros _ w1 _. by apply IH.
Qed.

Lemma dispatch_unpanicked c events : ∀ batches w,
  map_Forall (λ _, populated) batches →
  unpanicked (dispatch build_Version c events batches w) (λ _, True).
Proof.
  induction events as [|ev events IH]; intros batches w Hbs; [done|].
  destruct ev as [e| |]; simpl.
  - eapply unpanicked_bind; [by apply handleEntry_unpanicked|].
    intros [bs' ok] w1 Hbs'. simpl in Hbs'. destruct ok; [by apply IH|].
    by apply sendAll_unpanicked, populated_map_to_list.
  - by apply sendAll_unpanicked, populated_map_to_list.
  - eapply unpanicked_bind.
    + by apply flushAged_unpanicked; [apply populated_map_to_list|].
    + intros bs' w1 Hbs'. by apply IH.
Qed.

(** The dispatcher does not panic on code of its own: the lag update of
    [sendBatch] indexes the last entry of every stream of the batch, and
    every stream of a batch the dispatcher builds holds an entry. When
    [runSendSide] does not return, it waits, for the next event or for the
    answer to a request. *)
Theorem runSendSide_never_panics (c : client) (events : list Event) (w : World) :
  ¬ panics (runSendSide build_Version c events w) ∧
  (∀ h w', runSendSide build_Version c events w = Stop h w' → h = Blocked).
Proof.
  pose proof (dispatch_unpanicked c events ∅ w (map_Forall_empty _)) as Hd.
  unfold runSendSide. split; [by eapply unpanicked_panics|].
  intros h w' Heq. by rewrite Heq in Hd.
Qed.

Lemma replayEntries_unpanicked c t l es : ∀ b w,
  populated b →
  unpanicked (replayEntries build_Version c t l es b w) populated.
Proof.
  induction es as [|e es IH]; intros b w Hb; [done|]. simpl.
  destruct (BatchSize (cfg c) <? sizeBytesAfter b {| Labels := l; Entry := e |}).
  - eapply unpanicked_bind; [by apply sendBatch_unpanicked|].
    intros _ w1 _. simpl. apply populated_replay, populated_newBatch.
  - by apply IH, populated_replay.
Qed.

Lemma replaySamples_unpanicked c t seriesRecs refEntries : ∀ b w,
  populated b →
  unpanicked (replaySamples build_Version c t seriesRecs refEntries b w) populated.
Proof.
  induction refEntries as [|[ref es] rest IH]; intros b w Hb; [done|]. simpl.
  destruct (seriesRecs !! ref) as [l|]; [|by apply IH].
  eapply unpanicked_bind; [by apply replayEntries_unpanicked|].
  intros b1 w1 Hb1. by apply IH.
Qed.

Lemma replayRecords_unpanicked c t records : ∀ seriesRecs b w,
  populated b →
  unpanicked (replayRecords build_Version c t records seriesRecs b w) populated.
Proof.
  induction records as [|rec records IH]; intros seriesRecs b w Hb; [done|]. simpl.
  eapply (unpanicked_bind _ _ _ (λ _, True)).
  { by destruct (rec_decodeErr rec). }
  intros _ w1 _. eapply unpanicked_bind; [by apply replaySamples_unpanicked|].
  intros b1 w2 Hb1. by apply IH.
Qed.

Lemma replayTenants_unpanicked c p tenantDirs : ∀ w,
  unpanicked (replayTenants build_Version c p tenantDirs w) (λ _, True).
Proof.
  induction tenantDirs as [|d rest IH]; intros w; [done|]. simpl.
  destruct (wal_NewWalReader p d) as [err|records]; [done|].
  rewrite bind_eq. simpl.
  eapply unpanicked_bind; [apply replayRecords_unpanicked, populated_newBatch|].
  intros b w1 Hb. eapply unpanicked_bind; [by apply sendBatch_unpanicked|].
  intros _ w2 _. apply IH.
Qed.

(** The replay panics on code of its own exactly when the WAL directory of
    the client is there (or its [os.Stat] fails for another reason than its
    absence) and [os.Stat] fails for one of the paths under it: [f.IsDir()]
    is then called on a nil [FileInfo]. It panics before anything is read or
    sent. *)
Theorem replayWAL_panics_iff (c : client) (p : Platform) (w : World) :
  let clientBaseWALDir := path_Join p (WAL_Dir (cfg c)) (name c) in
  (panics (replayWAL build_Version c p w) ↔
   (∀ err, os_Stat p clientBaseWALDir ≠ StatNotExist err) ∧
   Exists (statFails p) (filepath_Glob p (clientBaseWALDir +:+ "/*"))) ∧
  (panics (replayWAL build_Version c p w) → replayWAL build_Version c p w = Stop Panic w).
Proof.
  cbv zeta. unfold replayWAL.
  set (base := path_Join p (WAL_Dir (cfg c)) (name c)).
  set (matches := filepath_Glob p (base +:+ "/*")).
  rewrite <- tenantDirsOf_None.
  assert (Hrest : ∀ dirs,
            ¬ panics ((if (length matches <? 1)%nat then mret None
                       else replayTenants build_Version c p dirs) w)).
  { intros dirs. destruct (length matches <? 1)%nat; [by intros []|].
    eapply unpanicked_panics, replayTenants_unpanicked. }
  destruct (os_Stat p base) as [isDir|err|err].
  - destruct (tenantDirsOf p matches) as [dirs|].
    + split; [|by intros ?%Hrest]. split; [by intros ?%Hrest|by intros [_ ?]].
    + split; [|done]. split; [done|]. by intros _.
  - split; [|by intros []]. split; [by intros []|]. intros [Hne _]. by destruct (Hne err).
  - destruct (tenantDirsOf p matches) as [dirs|].
    + split; [|by intros ?%Hrest]. split; [by intros ?%Hrest|by intros [_ ?]].
    + split; [|done]. split; [done|]. by intros _.
Qed.

End Safety.

(** ** Every entry received is sent *)

Lemma sentItems_cons (t : string) (b : batch) (l : list (string * batch)) :
  sentItems ((t, b) :: l) = batchItems t b ++ sentItems l.
Proof. unfold sentItems. by rewrite bind_cons. Qed.

Lemma sentItems_app (l1 l2 : list (string * batch)) :
  sentItems (l1 ++ l2) = sentItems l1 ++ sentItems l2.
Proof. unfold sentItems. by rewrite bind_app. Qed.

Section Delivery.
Context `{Collaborators} {B : Type} `{Backoff B}.
Variable build_Version : string.
Variable c : client.

Lemma sendBatch_returns t b w :
  post (sendBatch build_Version c t b w) (λ _ w', sent w' = (t, b) :: sent w) (λ _, True).
Proof. eapply post_impl; [apply sendBatch_post|done|done]. Qed.

Lemma handleEntry_exact P batches e w :
  (∀ b, addCheck b (processEntry c e).1 = None) →
  sentItems (sent w) ++ openItems batches ≡ₚ P →
  post (handleEntry build_Version c batches e w)
    (λ r w', r.2 = true ∧ sentItems (sent w') ++ openItems r.1 ≡ₚ P ++ [entryItem c e])
    (λ _, True).
Proof.
  intros Hno HP. unfold handleEntry, entryItem.
  destruct (processEntry c e) as [e' t]. simpl in *.
  assert (Hadd : ∀ b, add b e' = (replay b e', None)).
  { intros b. unfold add. by rewrite Hno. }
  destruct (batches !! t) as [b|] eqn:Hb.
  - destruct (BatchSize (cfg c) <? sizeBytesAfter b e').
    + eapply post_bind; [apply sendBatch_returns|]. simpl.
      intros _ w1 Hs. split; [done|]. rewrite Hs, sentItems_cons, Hadd. simpl.
      rewrite (openItems_insert_Some batches t b _ Hb), batchItems_replay_new.
      rewrite <- HP, (openItems_delete batches t b Hb). solve_Permutation.
    + rewrite Hadd. simpl. split; [done|].
      rewrite (openItems_insert_Some batches t b _ Hb), batchItems_replay.
      rewrite <- HP, (openItems_delete batches t b Hb). solve_Permutation.
  - simpl. split; [done|]. rewrite Hadd. simpl.
    rewrite (openItems_insert_None batches t _ Hb), batchItems_replay_new.
    rewrite <- HP. solve_Permutation.
Qed.

Lemma sendAll_exact open : ∀ w,
  post (sendAll build_Version c open w)
    (λ _ w', sentItems (sent w') ≡ₚ sentItems (sent w) ++ sentItems open) (λ _, True).
Proof.
  induction open as [|[t b] open IH]; intros w; simpl.
  { by rewrite app_nil_r. }
  eapply post_bind; [apply sendBatch_returns|]. simpl. intros _ w1 Hs.
  eapply post_impl; [apply IH| |done]. simpl. intros _ w' ->.
  rewrite Hs, !sentItems_cons. solve_Permutation.
Qed.

Lemma flushAged_exact P open : ∀ batches w,
  NoDup open.*1 → (∀ t b, (t, b) ∈ open → batches !! t = Some b) →
  sentItems (sent w) ++ openItems batches ≡ₚ P →
  post (flushAged build_Version c open batches w)
    (λ bs' w', sentItems (sent w') ++ openItems bs' ≡ₚ P) (λ _, True).
Proof.
  induction open as [|[t b] open IH]; intros batches w Hnd Hin HP; [done|].
  apply NoDup_cons in Hnd as [Hnotin Hnd]. simpl. rewrite bind_eq. simpl.
  destruct (age b (clock w (ticks w)) <? BatchWait (cfg c)).
  - apply IH; [done| |done]. intros t' b' Hel. apply Hin. by right.
  - assert (Hb : batches !! t = Some b) by (apply Hin; by left).
    eapply post_bind; [apply sendBatch_returns|]. simpl. intros _ w1 Hs.
    apply IH; [done| |].
    + intros t' b' Hel. rewrite lookup_delete_ne; [apply Hin; by right|].
      intros <-. apply Hnotin. apply list_elem_of_fmap. by exists (t, b').
    + rewrite Hs, sentItems_cons. simpl.
      rewrite <- HP, (openItems_delete batches t b Hb). solve_Permutation.
Qed.

Lemma dispatch_exact events : ∀ P batches w,
  (∀ e b, EvEntry e ∈ received events → addCheck b (processEntry c e).1 = None) →
  sentItems (sent w) ++ openItems batches ≡ₚ P →
  post (dispatch build_Version c events batches w)
    (λ _ w', sentItems (sent w') ≡ₚ P ++ eventItems c (received events)) (λ _, True).
Proof.
  induction events as [|ev events IH]; intros P batches w Hno HP; [done|].
  destruct ev as [e| |]; simpl.
  - eapply post_bind.
    + apply (handleEntry_exact P); [|done]. intros b. apply Hno. by left.
    + simpl. intros [bs' ok] w1 [Hok HP1]. simpl in Hok, HP1. subst ok.
      eapply post_impl; [apply (IH (P ++ [entryItem c e]) bs' w1); [|exact HP1]| |done].
      * intros e' b Hel. apply Hno. by right.
      * simpl. intros _ w' ->. by rewrite <- app_assoc.
  - eapply post_impl; [apply sendAll_exact| |done]. simpl. intros _ w' ->.
    by rewrite app_nil_r.
  - eapply post_bind.
    + apply (flushAged_exact P); [apply NoDup_fst_map_to_list| |done].
      intros t b Hel. by apply elem_of_map_to_list.
    + simpl. intros bs' w1 HP1.
      eapply post_impl; [apply (IH P bs' w1); [|exact HP1]| |done].
      * intros e' b Hel. apply Hno. by right.
      * simpl. by intros _ w' ->.
Qed.


End Delivery.


(** ** The clock *)

Lemma steady_bind {A C} (m : M A) (f : A → M C) :
  steady m → (∀ a, steady (f a)) → steady (m ≫= f).
Proof.
  intros Hm Hf w. rewrite bind_eq. specialize (Hm w).
  destruct (m w) as [a w1|h w1]; simpl in *; [|done].
  destruct (Hf a w1) as [-> Ht]. destruct Hm as [-> ?]. split; [done|lia].
Qed.

Lemma steady_ret {A} (a : A) : steady (mret a).
Proof. by intros w. Qed.

Lemma steady_halt {A} h : steady (halt (A := A) h).
Proof. by intros w. Qed.

Lemma steady_updMetrics f : steady (updMetrics f).
Proof. by intros w. Qed.

Lemma steady_logMsg l msg : steady (logMsg l msg).
Proof. by intros w. Qed.

Lemma steady_timeNow : steady timeNow.
Proof. intros w. simpl. split; [done|lia]. Qed.

Create HintDb steady.

#[local] Hint Resolve steady_ret steady_halt steady_updMetrics steady_logMsg steady_timeNow
  : steady.

Ltac steady_step :=
  first [ apply steady_bind; [|intros ?] | solve [auto with steady] ].

Section Clock.
Context `{Collaborators} {B : Type} `{Backoff B}.
Variable build_Version : string.
Variable c : client.

Lemma steady_updateStreamLag ss : steady (updateStreamLag c ss).
Proof.
  induction ss as [|s ss IH]; simpl; [auto with steady|].
  destruct (ParseMetric (s_Labels s)); [repeat steady_step|].
  destruct (last (Entries s)); [|auto with steady].
  repeat steady_step.
Qed.

Lemma steady_finalError bufBytes entriesCount err :
  steady (finalError bufBytes entriesCount err).
Proof. unfold finalError. repeat steady_step. Qed.

Lemma steady_attempt t buf rt rest : steady (attempt build_Version c t buf rt rest).
Proof. intros w. rewrite attempt_eq. simpl. split; [done|lia]. Qed.

Lemma steady_sendLoop t b buf n script : ∀ bo,
  steady (sendLoop build_Version c t b buf n script bo).
Proof.
  induction script as [|rt rest IH]; intros bo; simpl; [auto with steady|].
  apply steady_bind; [apply steady_attempt|]. intros [status [err|]]; simpl.
  - destruct ((0 <? status) && negb (status =? 429) && negb (status `quot` 100 =? 5));
      [apply steady_finalError|].
    repeat steady_step.
    destruct (negb (backoff_Ongoing (backoff_Wait bo))); [apply steady_finalError|apply IH].
  - repeat steady_step. apply steady_updateStreamLag.
Qed.

Lemma steady_sendBatch t b : steady (sendBatch build_Version c t b).
Proof.
  unfold sendBatch. apply steady_bind; [by intros w|]. intros _.
  destruct (encode b) as [err|[buf n]]; [repeat steady_step|].
  apply steady_bind; [auto with steady|]. intros _.
  apply steady_bind; [by intros w|]. intros script. apply steady_sendLoop.
Qed.

Lemma sendBatch_frame t b w :
  post (sendBatch build_Version c t b w)
    (λ _ w', sent w' = (t, b) :: sent w ∧ clock w' = clock w ∧ (ticks w ≤ ticks w')%nat)
    (λ _, True).
Proof.
  pose proof (sendBatch_post build_Version c t b w) as Hs.
  pose proof (steady_sendBatch t b w) as Hc.
  by destruct (sendBatch build_Version c t b w).
Qed.

Lemma flushAged_keep t b open batches w :
  (age b (clock w (ticks w)) <? BatchWait (cfg c)) = true →
  flushAged build_Version c ((t, b) :: open) batches w
  = flushAged build_Version c open batches (setTicks (S (ticks w)) w).
Proof. intros Hage. simpl. rewrite bind_eq. simpl. by rewrite Hage. Qed.

Lemma flushAged_send t b open batches w r w2 :
  (age b (clock w (ticks w)) <? BatchWait (cfg c)) = false →
  sendBatch build_Version c t b (setTicks (S (ticks w)) w) = Ok r w2 →
  flushAged build_Version c ((t, b) :: open) batches w
  = flushAged build_Version c open (delete t batches) w2.
Proof. intros Hage Hsend. simpl. rewrite bind_eq. simpl. by rewrite Hage, bind_eq, Hsend. Qed.

Lemma flushAged_blocked t b open batches w h w2 :
  (age b (clock w (ticks w)) <? BatchWait (cfg c)) = false →
  sendBatch build_Version c t b (setTicks (S (ticks w)) w) = Stop h w2 →
  flushAged build_Version c ((t, b) :: open) batches w = Stop h w2.
Proof. intros Hage Hsend. simpl. rewrite bind_eq. simpl. by rewrite Hage, bind_eq, Hsend. Qed.

Lemma flushAged_spec open : ∀ batches w,
  NoDup open.*1 → (∀ t b, (t, b) ∈ open → batches !! t = Some b) →
  post (flushAged build_Version c open batches w)
    (λ bs' w', clock w' = clock w ∧ (ticks w ≤ ticks w')%nat ∧
       ∃ new, sent w' = new ++ sent w ∧ NoDup new.*1 ∧ (∀ tb, tb ∈ new → tb ∈ open) ∧
         (∀ t, t ∉ open.*1 → bs' !! t = batches !! t) ∧
         (∀ pre t b post',
            open = pre ++ (t, b) :: post' →
            let n := ticks (worldOf (flushAged build_Version c pre batches w)) in
            (ticks w + length pre ≤ n)%nat ∧
            (n < ticks (worldOf (flushAged build_Version c (pre ++ [(t, b)]) batches w)))%nat ∧
            (ticks (worldOf (flushAged build_Version c (pre ++ [(t, b)]) batches w))
             ≤ ticks w')%nat ∧
            if age b (clock w n) <? BatchWait (cfg c)
            then bs' !! t = Some b ∧ ((t, b) ∉ new)
            else bs' !! t = None ∧ (t, b) ∈ new))
    (λ _, True).
Proof.
  induction open as [|[t0 b0] open IH]; intros batches w Hnd Hin.
  { simpl. split; [done|]. split; [done|]. exists []. split; [done|].
    split; [constructor|]. split; [done|]. split; [done|].
    intros pre t b post' Heq. by destruct pre. }
  rewrite fmap_cons in Hnd. apply NoDup_cons in Hnd as [Hnotin Hnd]. simpl in Hnotin.
  assert (Hb : batches !! t0 = Some b0) by (apply Hin; by left).
  assert (Hfresh : ∀ new : list (string * batch),
            (∀ tb, tb ∈ new → tb ∈ open) → ∀ b, (t0, b) ∉ new).
  { intros new Hsub b Hel. apply Hnotin. apply list_elem_of_fmap.
    exists (t0, b). split; [done|]. by apply Hsub. }
  set (w1 := setTicks (S (ticks w)) w).
  destruct (age b0 (clock w (ticks w)) <? BatchWait (cfg c)) eqn:Hage.
  - rewrite (flushAged_keep t0 b0 open batches w Hage).
    eapply post_impl; [apply (IH batches w1 Hnd)| |done].
    { intros t' b' Hel. apply Hin. by right. }
    simpl. intros bs' w' (Hc & Ht & new & Hs & Hndn & Hsub & Hout & Hopen).
    split; [done|]. split; [lia|]. exists new. split; [done|]. split; [done|].
    split; [intros tb Hel; right; by apply Hsub|]. split.
    { intros t' Hel. apply Hout. intros Hel'. apply Hel. by right. }
    intros pre t b post' Hsplit. destruct pre as [|x pre]; simpl in Hsplit.
    + injection Hsplit as <- <- <-. cbn [app].
      rewrite (flushAged_keep t0 b0 [] batches w Hage). simpl. rewrite Hage.
      split; [lia|]. split; [lia|]. split; [lia|].
      split; [by rewrite Hout|]. by apply Hfresh.
    + injection Hsplit as <- Hsplit. cbn [app].
      rewrite !(flushAged_keep t0 b0 _ batches w Hage).
      destruct (Hopen pre t b post' Hsplit) as (Hn1 & Hn2 & Hn3 & Hdec).
      simpl in *. fold w1. split; [lia|]. split; [done|]. split; [done|]. done.
  - destruct (sendBatch build_Version c t0 b0 w1) as [r w2|h w2] eqn:Hsend;
      [|by rewrite (flushAged_blocked t0 b0 open batches w h w2 Hage Hsend)].
    pose proof (sendBatch_frame t0 b0 w1) as Hframe. rewrite Hsend in Hframe.
    simpl in Hframe. destruct Hframe as (Hs2 & Hc2 & Ht2).
    rewrite (flushAged_send t0 b0 open batches w r w2 Hage Hsend).
    eapply post_impl; [apply (IH (delete t0 batches) w2 Hnd)| |done].
    { intros t' b' Hel. rewrite lookup_delete_ne; [apply Hin; by right|].
      intros <-. apply Hnotin. apply list_elem_of_fmap. by exists (t0, b'). }
    simpl. intros bs' w' (Hc & Ht & new & Hs & Hndn & Hsub & Hout & Hopen).
    split; [by rewrite Hc, Hc2|]. split; [lia|].
    exists (new ++ [(t0, b0)]). split; [by rewrite Hs, Hs2, <- app_assoc|]. split.
    { rewrite fmap_app. apply NoDup_app. split; [done|]. split.
      - intros t' Hel Hel'. apply list_elem_of_singleton in Hel'. subst t'.
        apply list_elem_of_fmap in Hel as ([t' b'] & Heq & Hel). simpl in Heq. subst t'.
        by apply (Hfresh new Hsub b').
      - apply NoDup_singleton. }
    split.
    { intros tb Hel. apply elem_of_app in Hel as [Hel|Hel].
      - right. by apply Hsub.
      - apply list_elem_of_singleton in Hel. subst tb. by left. }
    split.
    { intros t' Hel. apply not_elem_of_cons in Hel as [Hne Hel].
      rewrite Hout by done. by rewrite lookup_delete_ne. }
    intros pre t b post' Hsplit. destruct pre as [|x pre]; simpl in Hsplit.
    + injection Hsplit as <- <- <-. cbn [app].
      rewrite (flushAged_send t0 b0 [] batches w r w2 Hage Hsend). simpl. rewrite Hage.
      split; [lia|]. split; [lia|]. split; [lia|].
      split; [by rewrite Hout, lookup_delete_eq|].
      apply elem_of_app. right. by apply list_elem_of_singleton.
    + injection Hsplit as <- Hsplit. cbn [app].
      rewrite !(flushAged_send t0 b0 _ batches w r w2 Hage Hsend).
      destruct (Hopen pre t b post' Hsplit) as (Hn1 & Hn2 & Hn3 & Hdec).
      assert (t ≠ t0) as Hne.
      { intros ->. apply Hnotin. apply list_elem_of_fmap. exists (t0, b).
        split; [done|]. rewrite Hsplit. apply elem_of_app. right. by left. }
      simpl in *. split; [lia|]. split; [done|]. split; [done|].
      rewrite Hc2 in Hdec.
      destruct (age b (clock w _) <? BatchWait (cfg c)).
      * destruct Hdec as [Hk Hn]. split; [done|].
        intros Hel'. apply elem_of_app in Hel' as [Hel'|Hel']; [done|].
        apply list_elem_of_singleton in Hel'. by injection Hel'.
      * destruct Hdec as [Hk Hn]. split; [done|]. apply elem_of_app. by left.
Qed.

(** On a tick the dispatcher visits the open batches in the order of the
    [range], and for each takes a clock reading of its own: the first
    reading after it is through with the batches visited before. It sends
    the batch and takes it off its map exactly when the batch is at least
    [BatchWait] old at that reading; a younger batch stays as it is. No
    batch is sent twice, and none is sent that was not open. *)
Theorem handleTick_flushes_aged (batches : gmap string batch) (w : World) :
  post (handleTick build_Version c batches w)
    (λ bs' w', ∃ new,
       sent w' = new ++ sent w ∧ NoDup new.*1 ∧
       (∀ t b, (t, b) ∈ new → batches !! t = Some b) ∧
       (∀ t, batches !! t = None → bs' !! t = None) ∧
       (∀ t b, batches !! t = Some b →
          bs' !! t = Some b ∧ ((t, b) ∉ new) ∨ bs' !! t = None ∧ (t, b) ∈ new) ∧
       (∀ pre t b post',
          map_to_list batches = pre ++ (t, b) :: post' →
          let n := ticks (worldOf (flushAged build_Version c pre batches w)) in
          (ticks w + length pre ≤ n)%nat ∧
          (n < ticks (worldOf (flushAged build_Version c (pre ++ [(t, b)]) batches w)))%nat ∧
          (ticks (worldOf (flushAged build_Version c (pre ++ [(t, b)]) batches w))
           ≤ ticks w')%nat ∧
          if age b (clock w n) <? BatchWait (cfg c)
          then bs' !! t = Some b ∧ ((t, b) ∉ new)
          else bs' !! t = None ∧ (t, b) ∈ new))
    (λ _, True).
Proof.
  unfold handleTick.
  eapply post_impl; [apply (flushAged_spec (map_to_list batches) batches w)| |done].
  { apply NoDup_fst_map_to_list. }
  { intros t b Hel. by apply elem_of_map_to_list. }
  simpl. intros bs' w' (_ & _ & new & Hs & Hnd & Hsub & Hout & Hopen).
  exists new. split; [done|]. split; [done|]. split.
  { intros t b Hel. by apply elem_of_map_to_list, Hsub. }
  split.
  { intros t Ht. rewrite Hout; [done|]. intros Hel.
    apply list_elem_of_fmap in Hel as ([t' b'] & Heq & Hel).
    simpl in Heq. subst t'. apply elem_of_map_to_list in Hel. congruence. }
  split; [|exact Hopen].
  intros t b Ht. apply elem_of_map_to_list in Ht.
  apply list_elem_of_split in Ht as (pre & post' & Hsplit).
  destruct (Hopen pre t b post' Hsplit) as (_ & _ & _ & Hdec).
  destruct (age b _ <? BatchWait (cfg c)); [by left|by right].
Qed.

End Clock.

(** ** A replay in which nothing overflows *)

Section Room.
Context `{Collaborators} {B : Type} `{Backoff B}.
Variable build_Version : string.
Variable c : client.

Lemma entriesBytes_nonneg l es : 0 ≤ entriesBytes l es.
Proof. induction es as [|e es IH]; simpl; lia. Qed.

Lemma samplesBytes_nonneg seriesRecs refEntries : 0 ≤ samplesBytes seriesRecs refEntries.
Proof.
  induction refEntries as [|[ref es] rest IH]; simpl; [lia|].
  destruct (seriesRecs !! ref) as [l|]; [|lia].
  pose proof (entriesBytes_nonneg l es). lia.
Qed.

Lemma recordsBytes_nonneg records : ∀ seriesRecs, 0 ≤ recordsBytes records seriesRecs.
Proof.
  induction records as [|rec records IH]; intros seriesRecs; simpl; [lia|].
  pose proof (samplesBytes_nonneg (recordSeries seriesRecs (rec_Series rec))
                (rec_RefEntries rec)).
  pose proof (IH (recordSeries seriesRecs (rec_Series rec))). lia.
Qed.

Lemma replayEntries_room t l es : ∀ b w,
  bytes b + entriesBytes l es ≤ BatchSize (cfg c) →
  ∃ b', replayEntries build_Version c t l es b w = Ok b' w ∧
        bytes b' = bytes b + entriesBytes l es ∧
        batchItems t b' ≡ₚ batchItems t b ++ entriesItems t l es.
Proof.
  induction es as [|e es IH]; intros b w Hroom; simpl in *.
  { exists b. split; [done|]. split; [lia|]. by rewrite app_nil_r. }
  pose proof (entriesBytes_nonneg l es) as Hpos.
  destruct (Z.ltb_spec (BatchSize (cfg c)) (sizeBytesAfter b {| Labels := l; Entry := e |}))
    as [Hover|_].
  { unfold sizeBytesAfter in Hover. lia. }
  destruct (IH (replay b {| Labels := l; Entry := e |}) w) as (b' & -> & Hbytes & Hitems).
  { simpl. lia. }
  exists b'. split; [done|]. split; [simpl in Hbytes; lia|].
  rewrite Hitems, batchItems_replay. simpl. unfold entriesItems. solve_Permutation.
Qed.

Lemma replaySamples_room t seriesRecs refEntries : ∀ b w,
  bytes b + samplesBytes seriesRecs refEntries ≤ BatchSize (cfg c) →
  ∃ b', replaySamples build_Version c t seriesRecs refEntries b w = Ok b' w ∧
        bytes b' = bytes b + samplesBytes seriesRecs refEntries ∧
        batchItems t b' ≡ₚ batchItems t b ++ samplesItems t seriesRecs refEntries.
Proof.
  induction refEntries as [|[ref es] rest IH]; intros b w Hroom; simpl in *.
  { exists b. split; [done|]. split; [lia|]. by rewrite app_nil_r. }
  pose proof (samplesBytes_nonneg seriesRecs rest) as Hpos.
  destruct (seriesRecs !! ref) as [l|].
  - destruct (replayEntries_room t l es b w) as (b1 & Heq & Hbytes & Hitems); [lia|].
    rewrite bind_eq, Heq.
    destruct (IH b1 w) as (b' & -> & Hbytes' & Hitems'); [lia|].
    exists b'. split; [done|]. split; [lia|].
    rewrite Hitems', Hitems. by rewrite <- app_assoc.
  - destruct (IH b w) as (b' & -> & Hbytes' & Hitems'); [lia|].
    exists b'. split; [done|]. split; [lia|]. done.
Qed.

Lemma replayRecords_room t records : ∀ seriesRecs b w,
  bytes b + recordsBytes records seriesRecs ≤ BatchSize (cfg c) →
  ∃ b' w', replayRecords build_Version c t records seriesRecs b w = Ok b' w' ∧
           sent w' = sent w ∧ wire w' = wire w ∧
           batchItems t b' ≡ₚ batchItems t b ++ recordsItems t records seriesRecs.
Proof.
  induction records as [|rec records IH]; intros seriesRecs b w Hroom; simpl in *.
  { exists b, w. split; [done|]. split; [done|]. split; [done|]. by rewrite app_nil_r. }
  pose proof (recordsBytes_nonneg records (recordSeries seriesRecs (rec_Series rec))) as Hpos.
  rewrite bind_eq.
  set (w1 := worldOf ((if rec_decodeErr rec is Some _
                       then logMsg Warn "failed to decode a wal record" else mret tt) w)).
  assert (Hw1 : (if rec_decodeErr rec is Some _
                 then logMsg Warn "failed to decode a wal record" else mret tt) w = Ok tt w1
                ∧ sent w1 = sent w ∧ wire w1 = wire w).
  { subst w1. by destruct (rec_decodeErr rec). }
  destruct Hw1 as (-> & Hs1 & Hwire1).
  destruct (replaySamples_room t (recordSeries seriesRecs (rec_Series rec))
              (rec_RefEntries rec) b w1) as (b1 & Heq & Hbytes & Hitems); [lia|].
  rewrite bind_eq, Heq.
  destruct (IH (recordSeries seriesRecs (rec_Series rec)) b1 w1)
    as (b' & w' & -> & Hs & Hwire & Hitems'); [lia|].
  exists b', w'. split; [done|]. split; [congruence|]. split; [congruence|].
  rewrite Hitems', Hitems. by rewrite <- app_assoc.
Qed.

Lemma replayTenants_room p pre rest : ∀ w,
  Forall (fitsOneBatch c p) pre →
  (rest ≠ [] → is_Some (readerError p rest)) →
  post (replayTenants build_Version c p (pre ++ rest) w)
    (λ r w', r = readerError p rest ∧
       ∃ new, sent w' = rev new ++ sent w ∧ Forall2 (replayedAs p) pre new)
    (λ _, True).
Proof.
  induction pre as [|d pre IH]; intros w Hpre Hrest; simpl.
  { destruct rest as [|d rest]; simpl.
    - split; [done|]. exists []. by split.
    - destruct (Hrest ltac:(done)) as [err Herr]. simpl in Herr.
      destruct (wal_NewWalReader p d) as [err'|records]; [|done]. simpl.
      split; [done|]. exists []. by split. }
  apply Forall_cons in Hpre as [Hd Hpre]. unfold fitsOneBatch in Hd.
  destruct (wal_NewWalReader p d) as [err|records] eqn:Hreader; [done|].
  rewrite bind_eq. simpl.
  set (t := afterLastSlash d d). set (w1 := setTicks (S (ticks w)) w).
  destruct (replayRecords_room t records ∅ (newBatch 0 (clock w (ticks w))) w1)
    as (b & w2 & Heq & Hs2 & _ & Hitems); [simpl; lia|].
  rewrite bind_eq, Heq.
  eapply post_bind; [apply sendBatch_returns|]. simpl. intros _ w3 Hs3.
  eapply post_impl; [apply (IH w3 Hpre Hrest)| |done].
  simpl. intros r w' (Hr & new & Hs & Hnew). split; [done|].
  exists ((t, b) :: new). split.
  - rewrite Hs, Hs3, Hs2. simpl. by rewrite <- app_assoc.
  - constructor; [|done]. split; [done|]. simpl. rewrite Hreader.
    by rewrite Hitems, batchItems_newBatch.
Qed.

(** When the WALs of the first tenant directories can be read and each fits
    in one batch, a replay that returns has made one call of [sendBatch] per
    such directory, in their order, for the tenant the directory is named
    after and with a batch holding exactly the entries of known series the
    WAL has. It returns nil when these are all the directories, and when the
    next one cannot be read it returns the error of its reader and touches
    no directory after it. *)
Theorem replayWAL_one_batch_per_tenant (p : Platform) (pre rest : list string) (w : World) :
  let clientBaseWALDir := path_Join p (WAL_Dir (cfg c)) (name c) in
  (∀ err, os_Stat p clientBaseWALDir ≠ StatNotExist err) →
  tenantDirsOf p (filepath_Glob p (clientBaseWALDir +:+ "/*")) = Some (pre ++ rest) →
  Forall (fitsOneBatch c p) pre →
  (rest ≠ [] → is_Some (readerError p rest)) →
  is_Some (resultOf (replayWAL build_Version c p w)) →
  resultOf (replayWAL build_Version c p w) = Some (readerError p rest) ∧
  ∃ new, sent (worldOf (replayWAL build_Version c p w)) = rev new ++ sent w ∧
         Forall2 (replayedAs p) pre new.
Proof.
  cbv zeta. intros Hbase Hdirs Hpre Hrest Hret. unfold replayWAL in *.
  set (base := path_Join p (WAL_Dir (cfg c)) (name c)) in *.
  assert (Hgoal : ∀ m : M (option error),
            m = match tenantDirsOf p (filepath_Glob p (base +:+ "/*")) with
                | Some tenantDirs =>
                    if (length (filepath_Glob p (base +:+ "/*")) <? 1)%nat then mret None
                    else replayTenants build_Version c p tenantDirs
                | None => halt Panic
                end →
            is_Some (resultOf (m w)) →
            resultOf (m w) = Some (readerError p rest) ∧
            ∃ new, sent (worldOf (m w)) = rev new ++ sent w ∧ Forall2 (replayedAs p) pre new).
  { intros m -> Hm. rewrite Hdirs in *.
    destruct (filepath_Glob p (base +:+ "/*")) as [|m0 matches] eqn:Hglob.
    - simpl in Hdirs. injection Hdirs as Hnil. symmetry in Hnil.
      apply app_eq_nil in Hnil as [-> ->]. simpl.
      split; [done|]. exists []. by split.
    - change (length (m0 :: matches) <? 1)%nat with false in *. cbv iota in *.
      pose proof (replayTenants_room p pre rest w Hpre Hrest) as Hpost.
      destruct (replayTenants build_Version c p (pre ++ rest) w) as [r w'|h w'];
        [|by destruct Hm].
      simpl in *. destruct Hpost as [-> Hnew]. done. }
  destruct (os_Stat p base) as [isDir|err|err] eqn:Hstat.
  - by apply Hgoal.
  - by destruct (Hbase err).
  - by apply Hgoal.
Qed.

End Room.

Lemma replayWAL_one_batch_per_tenant_witness :
  resultOf (replayWAL Demo.version Demo.theClient Fitting.disk
              (Demo.world [Demo.ok200; Demo.err400]))
  = Some (readerError Fitting.disk ["/wal/demo/t3"]) ∧
  ∃ new, sent (worldOf (replayWAL Demo.version Demo.theClient Fitting.disk
                          (Demo.world [Demo.ok200; Demo.err400])))
         = rev new ++ sent (Demo.world [Demo.ok200; Demo.err400]) ∧
         Forall2 (replayedAs Fitting.disk) ["/wal/demo/t1"; "/wal/demo/t2"] new.
Proof.
  apply (@replayWAL_one_batch_per_tenant Demo.collaborators _ Demo.backoff
           Demo.version Demo.theClient Fitting.disk
           ["/wal/demo/t1"; "/wal/demo/t2"] ["/wal/demo/t3"]).
  - intros err. discriminate.
  - reflexivity.
  - repeat constructor; unfold fitsOneBatch; vm_compute; discriminate.
  - intros _. vm_compute. eauto.
  - vm_compute. eauto.
Defined.

(** ** The duration histogram *)

Section Durations.
Context `{Collaborators} {B : Type} `{Backoff B}.
Variable build_Version : string.
Variable c : client.

Lemma updateStreamLag_durations ss : ∀ w,
  requestDuration (metrics (worldOf (updateStreamLag c ss w))) = requestDuration (metrics w).
Proof.
  induction ss as [|s ss IH]; intros w; simpl; [done|].
  destruct (ParseMetric (s_Labels s)); [done|].
  destruct (last (Entries s)); [|done].
  unfold_m. simpl. by rewrite IH.
Qed.

Lemma sendLoop_observed t b buf n script : ∀ bo w r w',
  sendLoop build_Version c t b buf n script bo w = Ok r w' →
  ∃ attempts,
    script = attempts ++ wire w' ∧ attempts ≠ [] ∧
    requestDuration (metrics w')
    = rev (observed (clock w) (ticks w) attempts) ++ requestDuration (metrics w).
Proof.
  induction script as [|rt rest IH]; intros bo w r w'; [done|].
  assert (Hone : requestDuration (metrics (afterAttempt build_Version c t buf rt rest w))
                 = rev (observed (clock w) (ticks w) [rt]) ++ requestDuration (metrics w)).
  { simpl. by rewrite send_outcome. }
  destruct (outcome rt) as [st [err|]] eqn:Ho.
  - destruct (retryable st) eqn:Hr.
    + destruct (backoff_Ongoing (backoff_Wait bo)) eqn:Hon.
      * rewrite (sendLoop_retry_step build_Version c t b buf n rt rest bo w st err Ho Hr Hon).
        intros Heq. apply IH in Heq as (attempts & Hscript & Hne & Hd).
        exists (rt :: attempts). split; [by rewrite Hscript|]. split; [done|].
        rewrite Hd. simpl. rewrite send_outcome, <- app_assoc. done.
      * rewrite (sendLoop_exhausted_step build_Version c t b buf n rt rest bo w st err
                   Ho Hr Hon), finalError_eq.
        intros [= <- <-]. exists [rt]. split; [done|]. split; [done|]. exact Hone.
    + rewrite (sendLoop_abort_step build_Version c t b buf n rt rest bo w st err Ho Hr),
        finalError_eq.
      intros [= <- <-]. exists [rt]. split; [done|]. split; [done|]. exact Hone.
  - rewrite (sendLoop_success_step build_Version c t b buf n rt rest bo w st Ho).
    intros Heq. exists [rt].
    pose proof (updateStreamLag_durations (streamList b)
                  (afterSuccess build_Version c t buf n rt rest w)) as Hd.
    destruct (updateStreamLag_counters c (streamList b)
                (afterSuccess build_Version c t buf n rt rest w)) as [_ Hw].
    rewrite Heq in Hd, Hw. simpl in Hd, Hw.
    split; [by rewrite Hw|]. split; [done|]. rewrite Hd. exact Hone.
Qed.

(** A call of [sendBatch] that returns after a successful encode has made at
    least one attempt and has observed each of its attempts once in the
    duration histogram, in their order: under the status code of the
    response, or -1 when there was none, with the time between the clock
    readings before and after the attempt. Nothing else reads the clock
    between two attempts. *)
Theorem sendBatch_observes_every_attempt (t : string) (b : batch) (buf : list Byte.byte)
    (n : Z) (w : World) :
  encode b = inr (buf, n) →
  is_Some (resultOf (sendBatch build_Version c t b w)) →
  ∃ attempts,
    wire w = attempts ++ wire (worldOf (sendBatch build_Version c t b w)) ∧
    attempts ≠ [] ∧
    requestDuration (metrics (worldOf (sendBatch build_Version c t b w)))
    = rev (observed (clock w) (ticks w) attempts) ++ requestDuration (metrics w).
Proof.
  intros He Hret. rewrite (sendBatch_encoded build_Version c t b buf n w He) in *.
  destruct (sendLoop build_Version c t b buf n (wire w)
              (backoff_New (ctxCancelled c) (Backoff_Config (cfg c)))
              (beforeLoop t b buf w)) as [r w'|h w'] eqn:Heq; [|by destruct Hret].
  apply sendLoop_observed in Heq as (attempts & Hw & Hne & Hd). by exists attempts.
Qed.

End Durations.

Lemma sendBatch_observes_every_attempt_witness :
  ∃ attempts,
    wire (Demo.world [Demo.err500; Demo.err429; Demo.ok200; Demo.ok200])
    = attempts ++ wire (worldOf (sendBatch Demo.version Demo.theClient "t1" Cases.twoStreams
                                   (Demo.world [Demo.err500; Demo.err429; Demo.ok200;
                                                Demo.ok200]))) ∧
    attempts ≠ [] ∧
    requestDuration
      (metrics (worldOf (sendBatch Demo.version Demo.theClient "t1" Cases.twoStreams
                           (Demo.world [Demo.err500; Demo.err429; Demo.ok200; Demo.ok200]))))
    = rev (observed (clock (Demo.world [Demo.err500; Demo.err429; Demo.ok200; Demo.ok200]))
             (ticks (Demo.world [Demo.err500; Demo.err429; Demo.ok200; Demo.ok200]))
             attempts)
      ++ requestDuration (metrics (Demo.world [Demo.err500; Demo.err429; Demo.ok200;
                                               Demo.ok200])).
Proof.
  apply (@sendBatch_observes_every_attempt Demo.collaborators _ Demo.backoff
           Demo.version Demo.theClient "t1" Cases.twoStreams (repeat Byte.x00 3) 3).
  - reflexivity.
  - vm_compute. eauto.
Defined.

(** ** What the WAL consumer files *)

(** [ConsumeEntries] never fails and never sends. The entries of a series
    the consumer knows all go to the current batch, under the labels of the
    series and whatever the size the batch reaches; the entries of a series
    it does not know are dropped with a debug message. After
    [ConsumeSeries] the series is known under the labels given last. *)
Theorem ConsumeEntries_files_known_series `{Collaborators} {D : Type} `{SegmentDeleter D}
    (c : clientConsumer D) (samples : Z * list logproto_Entry) (w : World) :
  (∃ c' w',
     ConsumeEntries c samples w = Ok (c', None) w' ∧
     sent w' = sent w ∧ requests w' = requests w ∧ metrics w' = metrics w ∧
     series c' = series c ∧ segmentDeleter c' = segmentDeleter c ∧
     match series c !! samples.1 with
     | Some l =>
         (∀ t, batchItems t (currentBatch c')
               ≡ₚ batchItems t (currentBatch c) ++ entriesItems t l samples.2) ∧
         bytes (currentBatch c') = bytes (currentBatch c) + entriesBytes l samples.2 ∧
         createdAt (currentBatch c') = createdAt (currentBatch c) ∧
         logs w' = logs w
     | None =>
         c' = c ∧ logs w' = (Debug, "series for sample not found") :: logs w
     end) ∧
  (∀ l, series (ConsumeSeries c (samples.1, l)).1 !! samples.1 = Some l ∧
        currentBatch (ConsumeSeries c (samples.1, l)).1 = currentBatch c ∧
        (ConsumeSeries c (samples.1, l)).2 = None ∧
        ∀ ref, ref ≠ samples.1 →
               series (ConsumeSeries c (samples.1, l)).1 !! ref = series c !! ref).
Proof.
  split.
  - unfold ConsumeEntries. destruct (series c !! samples.1) as [l|].
    + eexists _, w. split; [reflexivity|]. simpl. do 5 (split; [done|]).
      generalize (currentBatch c) as b. destruct samples as [ref es]. simpl.
      induction es as [|e es IH]; intros b; simpl.
      { split; [intros t; by rewrite app_nil_r|]. split; [lia|done]. }
      destruct (IH (replay b {| Labels := l; Entry := e |})) as (Hitems & Hbytes & Hc & _).
      split; [|split; [|done]].
      * intros t. rewrite Hitems, batchItems_replay. simpl. unfold entriesItems.
        by rewrite <- app_assoc.
      * rewrite Hbytes. simpl. lia.
    + eexists c, _. split; [reflexivity|]. simpl. done.
  - intros l. simpl. split; [apply lookup_insert_eq|]. split; [done|]. split; [done|].
    intros ref Hne. by rewrite lookup_insert_ne.
Qed.

(** ** The label names of the lag gauge *)

Lemma remove_dups_length {A} `{EqDecision A} (l : list A) :
  (length (remove_dups l) ≤ length l)%nat.
Proof.
  induction l as [|x l IH]; simpl; [done|].
  destruct (decide_rel elem_of x l); simpl; lia.
Qed.

Lemma remove_dups_length_NoDup {A} `{EqDecision A} (l : list A) :
  length (remove_dups l) = length l ↔ NoDup l.
Proof.
  induction l as [|x l IH]; simpl.
  { split; [constructor|done]. }
  pose proof (remove_dups_length l) as Hle. rewrite NoDup_cons.
  destruct (decide_rel elem_of x l) as [Hin|Hnotin]; simpl.
  - split; [lia|]. by intros [? _].
  - rewrite <- IH. split; [intros [= ?]; by split|intros [_ ?]; by f_equal].
Qed.

(** The label set [sendBatch] hands to the lag gauge has exactly the label
    names [NewMetrics] declares the gauge with, and as many labels as were
    declared exactly when the declared names are distinct, that is when the
    configured lag labels have no duplicate and name neither the host nor
    the client label. *)
Theorem lagLabelSet_matches_gauge (c : client) (lbls : list (string * string)) :
  (∀ k, is_Some (lagLabelSet c lbls !! k) ↔ k ∈ streamLagLabelsMerged (streamLagLabels c)) ∧
  (size (lagLabelSet c lbls) ≤ length (streamLagLabelsMerged (streamLagLabels c)))%nat ∧
  (size (lagLabelSet c lbls) = length (streamLagLabelsMerged (streamLagLabels c))
   ↔ NoDup (streamLagLabelsMerged (streamLagLabels c))).
Proof.
  assert (Hkeys : ∀ k, is_Some (lagLabelSet c lbls !! k)
                       ↔ k ∈ streamLagLabelsMerged (streamLagLabels c)).
  { intros k. unfold lagLabelSet, streamLagLabelsMerged. simpl.
    rewrite !elem_of_cons.
    destruct (decide (k = ClientLabel)) as [->|Hc].
    { rewrite lookup_insert_eq. split; [auto|eauto]. }
    rewrite lookup_insert_ne by done.
    destruct (decide (k = HostLabel)) as [->|Hh].
    { rewrite lookup_insert_eq. split; [auto|eauto]. }
    rewrite lookup_insert_ne by done.
    rewrite (foldl_insert_lookup (labelValue lbls)), lookup_empty.
    case_bool_decide as Hin.
    - split; [auto|eauto].
    - split; [by intros []|]. intros [?|[?|?]]; done. }
  assert (Hsize : size (lagLabelSet c lbls)
                  = length (remove_dups (streamLagLabelsMerged (streamLagLabels c)))).
  { rewrite <- size_dom.
    assert (dom (lagLabelSet c lbls)
            = list_to_set (remove_dups (streamLagLabelsMerged (streamLagLabels c)))) as ->.
    { apply set_eq. intros k. rewrite elem_of_dom, Hkeys, elem_of_list_to_set.
      by rewrite elem_of_remove_dups. }
    apply size_list_to_set, NoDup_remove_dups. }
  split; [exact Hkeys|]. rewrite Hsize. split.
  - apply remove_dups_length.
  - apply remove_dups_length_NoDup.
Qed.

(** ** The WALs of the client *)

Section WALFacts.
Context {W : Type}.

Lemma receiveAndWriteToWAL_cons (c : client) (e : api_Entry) (created : error + W)
    (entries : list (api_Entry * (error + W))) (cw : clientWAL W) written w :
  receiveAndWriteToWAL c ((e, created) :: entries) cw written w
  = match getWAL cw (processEntry c e).2 created w with
    | Ok r w1 =>
        receiveAndWriteToWAL c entries r.1
          (((processEntry c e).1, r.2.1, (processEntry c e).2) :: written) w1
    | Stop h w1 => Stop h w1
    end.
Proof. cbn [receiveAndWriteToWAL]. by destruct (processEntry c e). Qed.

Lemma receiveAndWriteToWAL_spec (c : client) (entries : list (api_Entry * (error + W))) :
  ∀ (cw : clientWAL W) written w,
    watchers cw = tenantWALs cw →
    (∀ e wal t, (e, Some wal, t) ∈ written → tenantWALs cw !! t = Some wal) →
    ∃ cw' written' w',
      receiveAndWriteToWAL c entries cw written w = Ok (cw', written') w' ∧
      sent w' = sent w ∧
      (λ x, (x.1.1, x.2)) <$> written'
      = rev ((λ x, processEntry c x.1) <$> entries) ++ ((λ x, (x.1.1, x.2)) <$> written) ∧
      watchers cw' = tenantWALs cw' ∧
      (∀ t wal, tenantWALs cw !! t = Some wal → tenantWALs cw' !! t = Some wal) ∧
      (∀ e wal t, (e, Some wal, t) ∈ written' → tenantWALs cw' !! t = Some wal).
Proof.
  induction entries as [|[e created] entries IH]; intros cw written w Hwatch Hwritten.
  { exists cw, written, w. simpl. by repeat split. }
  rewrite receiveAndWriteToWAL_cons, fmap_cons. cbn [fst rev].
  destruct (processEntry c e) as [e' t]. cbn [fst snd].
  assert (Hstep : ∃ cw1 ow w1,
            getWAL cw t created w = Ok (cw1, ow) w1 ∧ sent w1 = sent w ∧
            watchers cw1 = tenantWALs cw1 ∧
            (∀ t' wal, tenantWALs cw !! t' = Some wal → tenantWALs cw1 !! t' = Some wal) ∧
            (∀ wal, ow.1 = Some wal → tenantWALs cw1 !! t = Some wal)).
  { unfold getWAL. destruct (tenantWALs cw !! t) as [wal|] eqn:Ht.
    - exists cw, (Some wal, None), w. repeat split; try done. by intros ? [= <-].
    - destruct created as [err|wal].
      + eexists cw, (None, Some err), _. split; [reflexivity|]. by repeat split.
      + eexists _, (Some wal, None), w. split; [reflexivity|]. simpl.
        split; [done|]. split; [by rewrite Hwatch|]. split.
        * intros t' wal' Ht'. rewrite lookup_insert_ne; [done|]. congruence.
        * intros ? [= <-]. apply lookup_insert_eq. }
  destruct Hstep as (cw1 & ow & w1 & -> & Hs1 & Hwatch1 & Hmono1 & Hres1). cbn [fst snd].
  destruct (IH cw1 ((e', ow.1, t) :: written) w1 Hwatch1)
    as (cw' & written' & w' & Heq & Hs & Hall & Hwatch' & Hmono & Hwals).
  { intros e0 wal t0 Hel. apply elem_of_cons in Hel as [[= -> Hw ->]|Hel].
    - by apply Hres1.
    - eapply Hmono1, Hwritten. exact Hel. }
  exists cw', written', w'. split; [exact Heq|]. split; [congruence|]. split.
  { rewrite Hall. simpl. by rewrite <- app_assoc. }
  split; [done|]. split; [|done].
  intros t' wal Ht'. by apply Hmono, Hmono1.
Qed.

(** The loop that writes the received entries to the WAL hands every entry
    to [writeEntryToWAL] once and in order, the external labels applied and
    for the tenant resolved from them; it sends nothing itself. The entries
    of one tenant that get a WAL all get the same one, the one the client
    keeps for the tenant, and the client has one watcher for each WAL it
    keeps and no other. *)
Theorem receiveAndWriteToWAL_one_WAL_per_tenant (c : client)
    (entries : list (api_Entry * (error + W))) (w : World) :
  ∃ cw' written' w',
    receiveAndWriteToWAL c entries newClientWAL [] w = Ok (cw', written') w' ∧
    sent w' = sent w ∧
    (λ x, (x.1.1, x.2)) <$> written' = rev ((λ x, processEntry c x.1) <$> entries) ∧
    watchers cw' = tenantWALs cw' ∧
    (∀ e wal t, (e, Some wal, t) ∈ written' → tenantWALs cw' !! t = Some wal) ∧
    (∀ e1 e2 wal1 wal2 t,
       (e1, Some wal1, t) ∈ written' → (e2, Some wal2, t) ∈ written' → wal1 = wal2).
Proof.
  destruct (receiveAndWriteToWAL_spec c entries newClientWAL [] w)
    as (cw' & written' & w' & Heq & Hs & Hall & Hwatch & _ & Hwals); [done| |].
  { intros e wal t Hel. by apply elem_of_nil in Hel. }
  exists cw', written', w'. split; [done|]. split; [done|].
  split; [by rewrite Hall, app_nil_r|]. split; [done|]. split; [done|].
  intros e1 e2 wal1 wal2 t H1 H2. apply Hwals in H1, H2. congruence.
Qed.

Lemma syncAll_spec `{Syncer W} (wals : list W) : ∀ synced,
  ∃ done,
    (syncAll wals synced).1 = rev done ++ synced ∧
    match (syncAll wals synced).2 with
    | None => done = wals ∧ Forall (λ wal, wal_Sync wal = None) wals
    | Some err =>
        ∃ before failing after,
          wals = before ++ failing :: after ∧ done = before ++ [failing] ∧
          Forall (λ wal, wal_Sync wal = None) before ∧ wal_Sync failing = Some err
    end.
Proof.
  induction wals as [|wal wals IH]; intros synced; simpl.
  { exists []. by repeat split. }
  destruct (wal_Sync wal) as [err|] eqn:Hsync; simpl.
  - exists [wal]. split; [done|]. exists [], wal, wals. by repeat split.
  - destruct (IH (wal :: synced)) as (done & Hd & Hres).
    exists (wal :: done). split; [rewrite Hd; simpl; by rewrite <- app_assoc|].
    destruct (syncAll wals (wal :: synced)).2 as [err|].
    + destruct Hres as (before & failing & after & -> & -> & Hbefore & Hfail).
      exists (wal :: before), failing, after. repeat split; try done. by constructor.
    + destruct Hres as [-> Hall]. split; [done|]. by constructor.
Qed.

(** [Sync] returns nil exactly when the [Sync] of every WAL the client keeps
    returns nil, and it has then synced each of them once. When it returns
    an error, it is the error of the WAL it synced last, the WALs synced
    before it returned nil, and the others were not synced. *)
Theorem Sync_first_error `{Syncer W} (cw : clientWAL W) :
  ((Sync cw).2 = None ↔ ∀ t wal, tenantWALs cw !! t = Some wal → wal_Sync wal = None) ∧
  ((Sync cw).2 = None → rev (Sync cw).1 = (map_to_list (tenantWALs cw)).*2) ∧
  (∀ err, (Sync cw).2 = Some err →
     ∃ before failing after,
       (map_to_list (tenantWALs cw)).*2 = before ++ failing :: after ∧
       rev (Sync cw).1 = before ++ [failing] ∧
       Forall (λ wal, wal_Sync wal = None) before ∧ wal_Sync failing = Some err).
Proof.
  unfold Sync.
  destruct (syncAll_spec (map_to_list (tenantWALs cw)).*2 []) as (done & Hd & Hres).
  rewrite app_nil_r in Hd.
  assert (Hall : Forall (λ wal, wal_Sync wal = None) (map_to_list (tenantWALs cw)).*2
                 ↔ ∀ t wal, tenantWALs cw !! t = Some wal → wal_Sync wal = None).
  { rewrite Forall_fmap, Forall_forall. split.
    - intros Hf t wal Ht. apply (Hf (t, wal)). by apply elem_of_map_to_list.
    - intros Hf [t wal] Hel. apply elem_of_map_to_list in Hel. simpl. by eapply Hf. }
  destruct (syncAll (map_to_list (tenantWALs cw)).*2 []) as [synced [err|]]; simpl in *.
  - destruct Hres as (before & failing & after & Hwals & -> & Hbefore & Hfail).
    split; [|split; [done|]].
    + split; [done|]. intros Hnone. apply Hall in Hnone. rewrite Hwals in Hnone.
      apply Forall_app in Hnone as [_ Hnone]. apply Forall_cons in Hnone as [Hnone _].
      congruence.
    + intros err' [= <-]. exists before, failing, after.
      split; [done|]. split; [|done]. rewrite Hd. by rewrite rev_involutive.
  - destruct Hres as [-> Hnone]. split; [|split; [|done]].
    + split; [|done]. intros _. by apply Hall.
    + intros _. rewrite Hd. by rewrite rev_involutive.
Qed.

(** ** Stopping twice *)

(** For a client that was not stopped before and has started no watcher
    (none is started when the WAL is off): the first [Stop] closes the entry
    channel and the read channel and goes on to wait for the dispatcher; it
    leaves the context as it was, where [StopNow] cancels it. After either,
    a second [Stop] or [StopNow] panics: [sync.Once] guards the entry
    channel only, and the read channel is closed again. *)
Theorem Stop_twice_panics (s : Running W) (w : World) :
  watchers (wal s) = ∅ →
  readChannelClosed (wal s) = false →
  onceDone s = false →
  ∃ s1 s2,
    client_Stop s w = Ok s1 w ∧ StopNow s w = Ok s2 w ∧
    entriesClosed s1 = true ∧ readChannelClosed (wal s1) = true ∧
    entriesClosed s2 = true ∧ readChannelClosed (wal s2) = true ∧
    cancelCalled s1 = cancelCalled s ∧ cancelCalled s2 = true ∧
    stopped (wal s1) = stopped (wal s) ∧
    client_Stop s1 w = Stop Panic w ∧ StopNow s1 w = Stop Panic w ∧
    client_Stop s2 w = Stop Panic w ∧ StopNow s2 w = Stop Panic w.
Proof.
  intros Hwatch Hopen Honce.
  destruct s as [ec od cc [tw wt rc st]]. simpl in *. subst wt rc od.
  set (cw := {| tenantWALs := tw; watchers := ∅; readChannelClosed := true;
                stopped := st |}).
  exists {| entriesClosed := true; onceDone := true; cancelCalled := cc; wal := cw |},
         {| entriesClosed := true; onceDone := true; cancelCalled := true; wal := cw |}.
  unfold StopNow, client_Stop, clientWAL_Stop. unfold_m. simpl.
  rewrite map_to_list_empty. simpl. by repeat split.
Qed.

End WALFacts.

Lemma Stop_twice_panics_witness :
  ∃ s1 s2 : Running unit,
    client_Stop fresh (Demo.world []) = Ok s1 (Demo.world []) ∧
    StopNow fresh (Demo.world []) = Ok s2 (Demo.world []) ∧
    entriesClosed s1 = true ∧ readChannelClosed (wal s1) = true ∧
    entriesClosed s2 = true ∧ readChannelClosed (wal s2) = true ∧
    cancelCalled s1 = cancelCalled (fresh (W := unit)) ∧ cancelCalled s2 = true ∧
    stopped (wal s1) = stopped (wal (fresh (W := unit))) ∧
    client_Stop s1 (Demo.world []) = Stop Panic (Demo.world []) ∧
    StopNow s1 (Demo.world []) = Stop Panic (Demo.world []) ∧
    client_Stop s2 (Demo.world []) = Stop Panic (Demo.world []) ∧
    StopNow s2 (Demo.world []) = Stop Panic (Demo.world []).
Proof.
  apply (Stop_twice_panics (W := unit) fresh (Demo.world [])); reflexivity.
Defined.

(** ** The order of the entries of a stream *)

Section Order.
Context `{Collaborators} {B : Type} `{Backoff B}.
Variable build_Version : string.
Variable c : client.

Lemma sentStream_cons t k t0 b w w' :
  sent w' = (t0, b) :: sent w →
  sentStream t k w' = sentStream t k w ++ streamOf t k (t0, b).
Proof.
  intros Hs. unfold sentStream. rewrite Hs. simpl. rewrite bind_app. simpl.
  by rewrite app_nil_r.
Qed.

Lemma streamOf_other t k t0 b : t0 ≠ t → streamOf t k (t0, b) = [].
Proof. intros Hne. unfold streamOf. simpl. by rewrite decide_False. Qed.

Lemma streamOf_newBatch t k t0 maxStreams now : streamOf t k (t0, newBatch maxStreams now) = [].
Proof. unfold streamOf. simpl. by destruct (decide (t0 = t)). Qed.

Lemma streamOf_replay t k t0 b e :
  streamOf t k (t0, replay b e)
  = streamOf t k (t0, b)
    ++ (if decide (t0 = t ∧ labelsMapToString (Labels e) = k) then [Entry e] else []).
Proof.
  unfold streamOf, replay. simpl. destruct (decide (t0 = t)) as [->|Hne].
  - destruct (decide (labelsMapToString (Labels e) = k)) as [<-|Hk].
    + rewrite lookup_insert_eq, decide_True by done.
      by destruct (streams b !! labelsMapToString (Labels e)).
    + rewrite lookup_insert_ne by done. rewrite decide_False by (by intros [_ ?]).
      by rewrite app_nil_r.
  - by rewrite decide_False by (by intros [? _]).
Qed.

Lemma openStream_insert t k t0 b batches :
  openStream t k (<[t0 := b]> batches)
  = if decide (t0 = t) then streamOf t k (t0, b) else openStream t k batches.
Proof.
  unfold openStream. destruct (decide (t0 = t)) as [->|Hne].
  - by rewrite lookup_insert_eq.
  - by rewrite lookup_insert_ne.
Qed.

Lemma openStream_delete t k t0 batches :
  openStream t k (delete t0 batches)
  = if decide (t0 = t) then [] else openStream t k batches.
Proof.
  unfold openStream. destruct (decide (t0 = t)) as [->|Hne].
  - by rewrite lookup_delete_eq.
  - by rewrite lookup_delete_ne.
Qed.

Lemma handleEntry_ordered (P : string → string → list logproto_Entry) batches e w :
  (∀ b, addCheck b (processEntry c e).1 = None) →
  (∀ t k, sentStream t k w ++ openStream t k batches = P t k) →
  post (handleEntry build_Version c batches e w)
    (λ r w', r.2 = true ∧
       ∀ t k, sentStream t k w' ++ openStream t k r.1 = P t k ++ streamEntry c t k e)
    (λ _, True).
Proof.
  intros Hno HP. unfold handleEntry, streamEntry.
  destruct (processEntry c e) as [e' t0]. cbn [fst snd] in *.
  assert (Hadd : ∀ b, add b e' = (replay b e', None)).
  { intros b. unfold add. by rewrite Hno. }
  destruct (batches !! t0) as [b|] eqn:Hb.
  - destruct (BatchSize (cfg c) <? sizeBytesAfter b e').
    + eapply post_bind; [apply sendBatch_returns|]. simpl.
      intros _ w1 Hs. split; [done|]. intros t k.
      rewrite (sentStream_cons t k t0 b w (setTicks (S (ticks w1)) w1) Hs), Hadd. simpl.
      rewrite openStream_insert, streamOf_replay, streamOf_newBatch.
      specialize (HP t k). unfold openStream in HP.
      destruct (decide (t0 = t)) as [->|Hne].
      * rewrite Hb in HP. by rewrite <- HP.
      * rewrite streamOf_other, !app_nil_r by done.
        rewrite decide_False by (by intros [? _]). by rewrite app_nil_r.
    + rewrite Hadd. simpl. split; [done|]. intros t k.
      rewrite openStream_insert, streamOf_replay. specialize (HP t k).
      unfold openStream in HP. destruct (decide (t0 = t)) as [->|Hne].
      * rewrite Hb in HP. by rewrite <- HP, <- app_assoc.
      * rewrite decide_False by (by intros [? _]). by rewrite app_nil_r.
  - simpl. rewrite Hadd. simpl. split; [done|]. intros t k.
    rewrite openStream_insert, streamOf_replay, streamOf_newBatch. simpl.
    specialize (HP t k). unfold openStream in HP.
    destruct (decide (t0 = t)) as [->|Hne].
    + rewrite Hb, app_nil_r in HP. by rewrite <- HP.
    + rewrite decide_False by (by intros [? _]). by rewrite app_nil_r.
Qed.

Lemma flushAged_ordered (P : string → string → list logproto_Entry) open : ∀ batches w,
  (∀ t b, (t, b) ∈ open → batches !! t = Some b) → NoDup open.*1 →
  (∀ t k, sentStream t k w ++ openStream t k batches = P t k) →
  post (flushAged build_Version c open batches w)
    (λ bs' w', ∀ t k, sentStream t k w' ++ openStream t k bs' = P t k) (λ _, True).
Proof.
  induction open as [|[t0 b] open IH]; intros batches w Hin Hnd HP; [done|].
  apply NoDup_cons in Hnd as [Hnotin Hnd]. simpl. rewrite bind_eq. simpl.
  destruct (age b (clock w (ticks w)) <? BatchWait (cfg c)).
  - apply IH; [|done|done]. intros t' b' Hel. apply Hin. by right.
  - assert (Hb : batches !! t0 = Some b) by (apply Hin; by left).
    eapply post_bind; [apply sendBatch_returns|]. simpl. intros _ w1 Hs.
    apply IH; [|done|].
    + intros t' b' Hel. rewrite lookup_delete_ne; [apply Hin; by right|].
      intros <-. apply Hnotin. apply list_elem_of_fmap. by exists (t0, b').
    + intros t k. rewrite (sentStream_cons t k t0 b w w1 Hs), openStream_delete.
      specialize (HP t k). unfold openStream in HP.
      destruct (decide (t0 = t)) as [->|Hne].
      * rewrite Hb in HP. by rewrite app_nil_r.
      * by rewrite streamOf_other, app_nil_r by done.
Qed.

Lemma sendAll_ordered open : ∀ w,
  post (sendAll build_Version c open w)
    (λ _ w', sent w' = rev open ++ sent w) (λ _, True).
Proof.
  induction open as [|[t b] open IH]; intros w; simpl; [done|].
  eapply post_bind; [apply sendBatch_returns|]. simpl. intros _ w1 Hs.
  eapply post_impl; [apply IH| |done]. simpl. intros _ w' ->.
  by rewrite Hs, <- app_assoc.
Qed.

Lemma bind_streamOf_absent t k (l : list (string * batch)) :
  t ∉ l.*1 → l ≫= streamOf t k = [].
Proof.
  induction l as [|[t0 b] l IH]; intros Hn; [done|].
  rewrite fmap_cons in Hn. apply not_elem_of_cons in Hn as [Hne Hn]. simpl in Hne.
  simpl. rewrite streamOf_other by done. by apply IH.
Qed.

Lemma bind_streamOf_open t k (batches : gmap string batch) :
  map_to_list batches ≫= streamOf t k = openStream t k batches.
Proof.
  unfold openStream. destruct (batches !! t) as [b|] eqn:Hb.
  - apply elem_of_map_to_list in Hb.
    pose proof (NoDup_fst_map_to_list batches) as Hnd.
    induction (map_to_list batches) as [|[t0 b0] l IH]; [by apply elem_of_nil in Hb|].
    rewrite fmap_cons in Hnd. apply NoDup_cons in Hnd as [Hnotin Hnd]. simpl in Hnotin.
    simpl. apply elem_of_cons in Hb as [[= <- <-]|Hb].
    + by rewrite bind_streamOf_absent, app_nil_r.
    + rewrite streamOf_other; [by apply IH|].
      intros ->. apply Hnotin. apply list_elem_of_fmap. by exists (t, b).
  - apply bind_streamOf_absent. intros Hel.
    apply list_elem_of_fmap in Hel as ([t0 b0] & Heq & Hel). simpl in Heq. subst t0.
    apply elem_of_map_to_list in Hel. congruence.
Qed.

Lemma deferred_ordered (P : string → string → list logproto_Entry) batches w :
  (∀ t k, sentStream t k w ++ openStream t k batches = P t k) →
  post (deferred build_Version c batches w)
    (λ _ w', ∀ t k, sentStream t k w' = P t k) (λ _, True).
Proof.
  intros HP. eapply post_impl; [apply sendAll_ordered| |done]. simpl.
  intros _ w' Hs t k. unfold sentStream. rewrite Hs, rev_app_distr, rev_involutive.
  rewrite bind_app, bind_streamOf_open. apply HP.
Qed.

Lemma dispatch_ordered events : ∀ (P : string → string → list logproto_Entry) batches w,
  (∀ e b, EvEntry e ∈ received events → addCheck b (processEntry c e).1 = None) →
  (∀ t k, sentStream t k w ++ openStream t k batches = P t k) →
  post (dispatch build_Version c events batches w)
    (λ _ w', ∀ t k, sentStream t k w' = P t k ++ receivedStream c t k (received events))
    (λ _, True).
Proof.
  induction events as [|ev events IH]; intros P batches w Hno HP; [done|].
  destruct ev as [e| |]; cbn [dispatch received] in *.
  - eapply post_bind.
    + apply (handleEntry_ordered P); [|done]. intros b. apply Hno. by left.
    + cbn beta. intros [bs' ok] w1 [Hok HP1]. cbn [fst snd] in Hok, HP1. subst ok.
      eapply post_impl;
        [apply (IH (λ t k, P t k ++ streamEntry c t k e) bs' w1); [|exact HP1]| |done].
      * intros e' b Hel. apply Hno. by right.
      * cbn beta. intros _ w' Hw t k. rewrite Hw. unfold receivedStream.
        rewrite bind_cons. by rewrite <- app_assoc.
  - eapply post_impl; [by apply (deferred_ordered P)| |done]. cbn beta.
    intros _ w' Hw t k. rewrite Hw. unfold receivedStream. by rewrite app_nil_r.
  - eapply post_bind.
    + apply (flushAged_ordered P); [|apply NoDup_fst_map_to_list|done].
      intros t b Hel. by apply elem_of_map_to_list.
    + cbn beta. intros bs' w1 HP1.
      eapply post_impl; [apply (IH P bs' w1); [|exact HP1]| |done].
      * intros e' b Hel. apply Hno. by right.
      * cbn beta. intros _ w' Hw t k. rewrite Hw. unfold receivedStream.
        by rewrite bind_cons.
Qed.


End Order.


(** ** A replay in which an entry overflows *)

Section Cut.
Context `{Collaborators} {B : Type} `{Backoff B}.
Variable build_Version : string.
Variable c : client.

Lemma replayEntries_fit_app t l fit : ∀ more b w,
  bytes b + entriesBytes l fit ≤ BatchSize (cfg c) →
  let b1 := foldl (λ b e, replay b {| Labels := l; Entry := e |}) b fit in
  replayEntries build_Version c t l (fit ++ more) b w
  = replayEntries build_Version c t l more b1 w ∧
  bytes b1 = bytes b + entriesBytes l fit ∧
  batchItems t b1 ≡ₚ batchItems t b ++ entriesItems t l fit.
Proof.
  induction fit as [|e fit IH]; intros more b w Hroom; cbv zeta; simpl in *.
  { split; [done|]. split; [lia|]. by rewrite app_nil_r. }
  pose proof (entriesBytes_nonneg l fit) as Hpos.
  destruct (Z.ltb_spec (BatchSize (cfg c)) (sizeBytesAfter b {| Labels := l; Entry := e |}))
    as [Hover|_].
  { unfold sizeBytesAfter in Hover. lia. }
  destruct (IH more (replay b {| Labels := l; Entry := e |}) w) as (-> & Hbytes & Hitems).
  { simpl. lia. }
  split; [done|]. split; [simpl in Hbytes; lia|].
  rewrite Hitems, batchItems_replay. simpl. unfold entriesItems. by rewrite <- app_assoc.
Qed.

(** In the replay of the entries of one sample record, the first entry that
    does not fit ends the record: the batch is sent with the entries before
    it, the entry starts a new batch, and the entries after it are not read;
    they are in neither batch. *)
Theorem replayEntries_stops_at_overflow (t : string) (l : LabelSet)
    (fit : list logproto_Entry) (e : logproto_Entry) (rest : list logproto_Entry)
    (b : batch) (w : World) :
  let b1 := foldl (λ b e, replay b {| Labels := l; Entry := e |}) b fit in
  bytes b + entriesBytes l fit ≤ BatchSize (cfg c) →
  BatchSize (cfg c) < sizeBytesAfter b1 {| Labels := l; Entry := e |} →
  sent (worldOf (replayEntries build_Version c t l (fit ++ e :: rest) b w))
  = (t, b1) :: sent w ∧
  batchItems t b1 ≡ₚ batchItems t b ++ entriesItems t l fit ∧
  replayEntries build_Version c t l (fit ++ e :: rest) b w
  = replayEntries build_Version c t l (fit ++ [e]) b w ∧
  ∀ b' w',
    replayEntries build_Version c t l (fit ++ e :: rest) b w = Ok b' w' →
    batchItems t b' = [(t, labelsMapToString l, e)].
Proof.
  cbv zeta. intros Hroom Hover.
  destruct (replayEntries_fit_app t l fit (e :: rest) b w Hroom) as (-> & _ & Hitems).
  destruct (replayEntries_fit_app t l fit [e] b w Hroom) as (-> & _ & _).
  destruct (replayEntries_overflow build_Version c t l e rest _ w Hover) as [Hs Hb'].
  split; [done|]. split; [done|]. split; [|done].
  simpl. apply Z.ltb_lt in Hover. by rewrite Hover.
Qed.

End Cut.

Lemma replayEntries_stops_at_overflow_witness :
  sent (worldOf (replayEntries Demo.version Demo.theClient "t1" {[ "job" := "x" ]}
                   ([Entry Overflowing.small]
                    ++ Entry Overflowing.medium
                       :: [Entry Overflowing.huge; Entry Overflowing.small])
                   (newBatch 0 0) (Demo.world [Demo.ok200])))
  = ("t1", foldl (λ b e, replay b {| Labels := {[ "job" := "x" ]}; Entry := e |})
             (newBatch 0 0) [Entry Overflowing.small])
    :: sent (Demo.world [Demo.ok200]) ∧
  batchItems "t1"
    (foldl (λ b e, replay b {| Labels := {[ "job" := "x" ]}; Entry := e |})
       (newBatch 0 0) [Entry Overflowing.small])
  ≡ₚ batchItems "t1" (newBatch 0 0)
     ++ entriesItems "t1" {[ "job" := "x" ]} [Entry Overflowing.small] ∧
  replayEntries Demo.version Demo.theClient "t1" {[ "job" := "x" ]}
    ([Entry Overflowing.small]
     ++ Entry Overflowing.medium :: [Entry Overflowing.huge; Entry Overflowing.small])
    (newBatch 0 0) (Demo.world [Demo.ok200])
  = replayEntries Demo.version Demo.theClient "t1" {[ "job" := "x" ]}
      ([Entry Overflowing.small] ++ [Entry Overflowing.medium])
      (newBatch 0 0) (Demo.world [Demo.ok200]) ∧
  ∀ b' w',
    replayEntries Demo.version Demo.theClient "t1" {[ "job" := "x" ]}
      ([Entry Overflowing.small]
       ++ Entry Overflowing.medium :: [Entry Overflowing.huge; Entry Overflowing.small])
      (newBatch 0 0) (Demo.world [Demo.ok200]) = Ok b' w' →
    batchItems "t1" b'
    = [("t1", labelsMapToString {[ "job" := "x" ]}, Entry Overflowing.medium)].
Proof.
  apply (@replayEntries_stops_at_overflow Demo.collaborators _ Demo.backoff
           Demo.version Demo.theClient "t1" {[ "job" := "x" ]}
           [Entry Overflowing.small] (Entry Overflowing.medium)
           [Entry Overflowing.huge; Entry Overflowing.small]
           (newBatch 0 0) (Demo.world [Demo.ok200])).
  - vm_compute. discriminate.
  - vm_compute. reflexivity.
Defined.

(** ** When the dispatcher returns *)

Lemma answered_weaken (m n : nat) (w : World) : (m ≤ n)%nat → answered n w → answered m w.
Proof. intros Hle (oks & rest & Hw & Hok & Hlen). exists oks, rest. repeat split; [done..|lia]. Qed.

Lemma answered_wire (n : nat) (w w' : World) : wire w' = wire w → answered n w → answered n w'.
Proof. intros Heq (oks & rest & Hw & Hok & Hlen). exists oks, rest. by rewrite Heq. Qed.

Section Returns.
Context `{Collaborators} {B : Type} `{Backoff B}.
Variable build_Version : string.
Variable c : client.

Lemma updateStreamLag_returns ss : ∀ w,
  Forall (λ s, Entries s ≠ []) ss →
  ∃ r w', updateStreamLag c ss w = Ok r w' ∧ wire w' = wire w.
Proof.
  induction ss as [|s ss IH]; intros w Hss; [by exists None, w|].
  apply Forall_cons in Hss as [Hs Hss]. simpl.
  destruct (ParseMetric (s_Labels s)) as [err|lbls]; [by eexists _, _|].
  destruct (last (Entries s)) as [e|] eqn:Hl; [|by apply last_None in Hl].
  unfold_m. simpl.
  match goal with |- context [updateStreamLag c ss ?w1] =>
    destruct (IH w1 Hss) as (r & w' & -> & Hw) end.
  by exists r, w'.
Qed.

Lemma sendBatch_answered t b n w :
  populated b → answered (S n) w →
  ∃ r w', sendBatch build_Version c t b w = Ok r w' ∧ answered n w'.
Proof.
  intros Hb (oks & rest & Hw & Hok & Hlen).
  destruct oks as [|rt oks]; [simpl in Hlen; lia|].
  apply Forall_cons in Hok as [Hrt Hok]. simpl in Hlen.
  destruct (encode b) as [err|[buf k]] eqn:He.
  - unfold sendBatch. rewrite He. unfold_m. simpl. eexists _, _. split; [done|].
    exists (rt :: oks), rest. simpl. repeat split; [done| by constructor |lia].
  - rewrite (sendBatch_encoded build_Version c t b buf k w He), Hw.
    change ((rt :: oks) ++ rest) with (rt :: (oks ++ rest)).
    destruct (outcome rt) as [st o] eqn:Ho. simpl in Hrt. subst o.
    rewrite (sendLoop_success_step build_Version c t b buf k rt (oks ++ rest) _ _ st Ho).
    match goal with |- context [updateStreamLag c _ ?w1] =>
      destruct (updateStreamLag_returns (streamList b) w1) as (r & w' & -> & Hw');
        [by apply populated_streamList|] end.
    exists r, w'. split; [done|]. exists oks, rest. repeat split; [done|done|lia].
Qed.

Lemma handleEntry_answered batches e n w :
  map_Forall (λ _, populated) batches → answered (size batches + S n) w →
  ∃ bs' ok w',
    handleEntry build_Version c batches e w = Ok (bs', ok) w' ∧
    map_Forall (λ _, populated) bs' ∧ answered (size bs' + n) w'.
Proof.
  intros Hbs Ha. unfold handleEntry. destruct (processEntry c e) as [e' t].
  destruct (batches !! t) as [b|] eqn:Hb.
  - assert (Hsize : ∀ b', size (<[t := b']> batches) = size batches).
    { intros b'. apply map_size_insert_Some. eauto. }
    destruct (BatchSize (cfg c) <? sizeBytesAfter b e').
    + destruct (sendBatch_answered t b (size batches + n) w) as (r & w1 & Heq & Ha1).
      { by apply (Hbs t b). }
      { eapply answered_weaken; [|exact Ha]. lia. }
      rewrite bind_eq, Heq. unfold client_newBatch. unfold_m. simpl.
      eexists _, _, _. split; [reflexivity|]. split.
      * apply map_Forall_insert_2; [|done]. apply populated_add, populated_newBatch.
      * rewrite Hsize. by eapply answered_wire; [|exact Ha1].
    + pose proof (populated_add b e' (Hbs t b Hb)) as Hadd.
      destruct (add b e') as [b' [err|]]; unfold_m; simpl in *.
      * eexists _, _, _. split; [reflexivity|]. split; [by apply map_Forall_insert_2|].
        rewrite Hsize. eapply answered_wire; [|eapply answered_weaken; [|exact Ha]];
          [done|lia].
      * eexists _, _, _. split; [reflexivity|]. split; [by apply map_Forall_insert_2|].
        rewrite Hsize. eapply answered_weaken; [|exact Ha]. lia.
  - unfold client_newBatch. unfold_m. simpl.
    eexists _, _, _. split; [reflexivity|]. split.
    + apply map_Forall_insert_2; [|done]. apply populated_add, populated_newBatch.
    + rewrite map_size_insert_None by done.
      eapply answered_wire; [|eapply answered_weaken; [|exact Ha]]; [done|lia].
Qed.

Lemma flushAged_answered open n : ∀ batches w,
  NoDup open.*1 → (∀ t b, (t, b) ∈ open → batches !! t = Some b) →
  map_Forall (λ _, populated) batches → answered (size batches + n) w →
  ∃ bs' w',
    flushAged build_Version c open batches w = Ok bs' w' ∧
    map_Forall (λ _, populated) bs' ∧ answered (size bs' + n) w'.
Proof.
  induction open as [|[t b] open IH]; intros batches w Hnd Hin Hbs Ha.
  { by exists batches, w. }
  rewrite fmap_cons in Hnd. apply NoDup_cons in Hnd as [Hnotin Hnd]. simpl in Hnotin.
  assert (Hb : batches !! t = Some b) by (apply Hin; by left).
  simpl. rewrite bind_eq. simpl.
  set (w1 := setTicks (S (ticks w)) w).
  assert (Ha1 : answered (size batches + n) w1) by (by eapply answered_wire; [|exact Ha]).
  destruct (age b (clock w (ticks w)) <? BatchWait (cfg c)).
  - apply IH; [done| |done|done]. intros t' b' Hel. apply Hin. by right.
  - assert (Hsize : size batches = S (size (delete t batches))).
    { rewrite map_size_delete, Hb. simpl.
      assert (size batches ≠ 0%nat); [|lia].
      apply map_size_non_empty_iff. intros ->. by rewrite lookup_empty in Hb. }
    destruct (sendBatch_answered t b (size (delete t batches) + n) w1) as (r & w2 & Heq & Ha2).
    { by apply (Hbs t b). }
    { eapply answered_weaken; [|exact Ha1]. lia. }
    rewrite bind_eq, Heq.
    apply IH; [done| |by apply map_Forall_delete|done].
    intros t' b' Hel. rewrite lookup_delete_ne; [apply Hin; by right|].
    intros <-. apply Hnotin. apply list_elem_of_fmap. by exists (t, b').
Qed.

Lemma sendAll_answered open : ∀ w,
  Forall (λ tb, populated tb.2) open → answered (length open) w →
  ∃ w', sendAll build_Version c open w = Ok tt w'.
Proof.
  induction open as [|[t b] open IH]; intros w Hopen Ha; [by exists w|].
  apply Forall_cons in Hopen as [Hb Hopen]. simpl in *.
  destruct (sendBatch_answered t b (length open) w Hb Ha) as (r & w1 & Heq & Ha1).
  rewrite bind_eq, Heq. by apply IH.
Qed.

Lemma deferred_answered batches w :
  map_Forall (λ _, populated) batches → answered (size batches) w →
  ∃ w', deferred build_Version c batches w = Ok tt w'.
Proof.
  intros Hbs Ha. apply sendAll_answered; [by apply populated_map_to_list|].
  by rewrite length_map_to_list.
Qed.

Lemma dispatch_answered events : ∀ batches w,
  EvClosed ∈ events →
  map_Forall (λ _, populated) batches →
  answered (size batches + length (eventItems c (received events))) w →
  ∃ w', dispatch build_Version c events batches w = Ok tt w'.
Proof.
  induction events as [|ev events IH]; intros batches w Hclosed Hbs Ha.
  { by apply elem_of_nil in Hclosed. }
  destruct ev as [e| |]; cbn [dispatch received] in *.
  - apply elem_of_cons in Hclosed as [?|Hclosed]; [done|].
    unfold eventItems in Ha. rewrite bind_cons in Ha.
    fold (eventItems c (received events)) in Ha. simpl length in Ha.
    destruct (handleEntry_answered batches e _ w Hbs Ha) as (bs' & ok & w1 & Heq & Hbs' & Ha').
    rewrite bind_eq, Heq. destruct ok.
    + by apply IH.
    + apply deferred_answered; [done|]. eapply answered_weaken; [|exact Ha']. lia.
  - apply deferred_answered; [done|]. eapply answered_weaken; [|exact Ha]. lia.
  - apply elem_of_cons in Hclosed as [?|Hclosed]; [done|].
    unfold eventItems in Ha. rewrite bind_cons in Ha.
    fold (eventItems c (received events)) in Ha. simpl in Ha.
    destruct (flushAged_answered (map_to_list batches)
                (length (eventItems c (received events))) batches w)
      as (bs' & w1 & Heq & Hbs' & Ha');
      [apply NoDup_fst_map_to_list| |done|exact Ha|].
    { intros t b Hel. by apply elem_of_map_to_list. }
    unfold handleTick. rewrite bind_eq, Heq. by apply IH.
Qed.

Lemma runSendSide_closed_answered (events : list Event) (w : World) :
  EvClosed ∈ events →
  answered (length (eventItems c (received events))) w →
  ∃ w', runSendSide build_Version c events w = Ok tt w'.
Proof.
  intros Hclosed Ha. apply dispatch_answered; [done|apply map_Forall_empty|].
  by rewrite map_size_empty.
Qed.

(** The dispatcher returns once its channel is closed, provided the server
    answers: it makes at most one call of [sendBatch] per entry received,
    and when as many attempts as entries were received meet a 2xx answer,
    [runSendSide] returns. *)
Theorem runSendSide_returns (events : list Event) (w : World) :
  EvClosed ∈ events →
  answered (length (eventItems c (received events))) w →
  ∃ w', runSendSide build_Version c events w = Ok tt w'.
Proof.
  intros Hclosed Ha. apply dispatch_answered; [done|apply map_Forall_empty|].
  by rewrite map_size_empty.
Qed.

End Returns.

Lemma runSendSide_returns_witness :
  ∃ w', runSendSide Demo.version Demo.theClient Overflowing.events
          (Demo.world [Demo.ok200; Demo.ok200; Demo.ok200; Demo.ok200; Demo.err500])
        = Ok tt w'.
Proof.
  apply (@runSendSide_returns Demo.collaborators _ Demo.backoff).
  - unfold Overflowing.events. do 4 right. by left.
  - exists [Demo.ok200; Demo.ok200; Demo.ok200; Demo.ok200], [Demo.err500].
    split; [reflexivity|]. split; [by repeat constructor|]. vm_compute. lia.
Defined.

(** ** When the replay returns *)

Section ReplayReturns.
Context `{Collaborators} {B : Type} `{Backoff B}.
Variable build_Version : string.
Variable c : client.

Lemma replayTenants_answered p pre rest : ∀ w,
  Forall (fitsOneBatch c p) pre →
  (rest ≠ [] → is_Some (readerError p rest)) →
  answered (length pre) w →
  ∃ w', replayTenants build_Version c p (pre ++ rest) w = Ok (readerError p rest) w'.
Proof.
  induction pre as [|d pre IH]; intros w Hpre Hrest Ha; simpl.
  { destruct rest as [|d rest]; simpl; [by exists w|].
    destruct (Hrest ltac:(done)) as [err Herr]. simpl in Herr.
    destruct (wal_NewWalReader p d) as [err'|records]; [|done]. by exists w. }
  apply Forall_cons in Hpre as [Hd Hpre]. unfold fitsOneBatch in Hd.
  destruct (wal_NewWalReader p d) as [err|records] eqn:Hreader; [done|].
  rewrite bind_eq. simpl.
  set (t := afterLastSlash d d). set (w1 := setTicks (S (ticks w)) w).
  destruct (replayRecords_room build_Version c t records ∅
              (newBatch 0 (clock w (ticks w))) w1)
    as (b & w2 & Heq & _ & Hwire & _); [simpl; lia|].
  pose proof (replayRecords_unpanicked build_Version c t records ∅
                (newBatch 0 (clock w (ticks w))) w1 (populated_newBatch _ _)) as Hb.
  rewrite Heq in Hb. simpl in Hb. rewrite bind_eq, Heq.
  destruct (sendBatch_answered build_Version c t b (length pre) w2 Hb) as (r & w3 & Hsend & Ha3).
  { by eapply answered_wire; [|exact Ha]. }
  rewrite bind_eq, Hsend. by apply IH.
Qed.

(** The replay returns, provided the server answers: when the WALs of the
    tenant directories can be read and each fits in one batch, and one
    attempt per directory meets a 2xx answer, [replayWAL] returns nil; when
    that holds of the first directories and the next one cannot be read, it
    returns the error of its reader. *)
Theorem replayWAL_returns (p : Platform) (pre rest : list string) (w : World) :
  let clientBaseWALDir := path_Join p (WAL_Dir (cfg c)) (name c) in
  (∀ err, os_Stat p clientBaseWALDir ≠ StatNotExist err) →
  tenantDirsOf p (filepath_Glob p (clientBaseWALDir +:+ "/*")) = Some (pre ++ rest) →
  Forall (fitsOneBatch c p) pre →
  (rest ≠ [] → is_Some (readerError p rest)) →
  answered (length pre) w →
  ∃ w', replayWAL build_Version c p w = Ok (readerError p rest) w'.
Proof.
  cbv zeta. intros Hbase Hdirs Hpre Hrest Ha. unfold replayWAL.
  set (base := path_Join p (WAL_Dir (cfg c)) (name c)) in *.
  assert (Hgoal : ∃ w',
            match tenantDirsOf p (filepath_Glob p (base +:+ "/*")) with
            | Some tenantDirs =>
                if (length (filepath_Glob p (base +:+ "/*")) <? 1)%nat then mret None
                else replayTenants build_Version c p tenantDirs
            | None => halt Panic
            end w = Ok (readerError p rest) w').
  { rewrite Hdirs in *.
    destruct (filepath_Glob p (base +:+ "/*")) as [|m0 matches] eqn:Hglob.
    - simpl in Hdirs. injection Hdirs as Hnil. symmetry in Hnil.
      apply app_eq_nil in Hnil as [-> ->]. by exists w.
    - change (length (m0 :: matches) <? 1)%nat with false. cbv iota.
      by apply replayTenants_answered. }
  destruct (os_Stat p base) as [isDir|err|err] eqn:Hstat.
  - exact Hgoal.
  - by destruct (Hbase err).
  - exact Hgoal.
Qed.

End ReplayReturns.

Lemma replayWAL_returns_witness :
  ∃ w', replayWAL Demo.version Demo.theClient Fitting.disk
          (Demo.world [Demo.ok200; Demo.ok200])
        = Ok (readerError Fitting.disk ["/wal/demo/t3"]) w'.
Proof.
  apply (@replayWAL_returns Demo.collaborators _ Demo.backoff
           Demo.version Demo.theClient Fitting.disk
           ["/wal/demo/t1"; "/wal/demo/t2"] ["/wal/demo/t3"]).
  - intros err. discriminate.
  - reflexivity.
  - repeat constructor; unfold fitsOneBatch; vm_compute; discriminate.
  - intros _. vm_compute. eauto.
  - exists [Demo.ok200; Demo.ok200], []. split; [reflexivity|].
    split; [by repeat constructor|]. simpl. lia.
Defined.

(** ** Batches and the maximum size, over whole runs *)

Section Reads.
Context `{Collaborators} {B : Type} `{Backoff B}.
Variable build_Version : string.
Variable c : client.

Local Abbreviation maxS := (BatchSize (cfg c)).

Lemma readEntries_fit l es : ∀ n,
  n + entriesBytes l es ≤ maxS → readEntries maxS l es n = (es, n + entriesBytes l es).
Proof.
  induction es as [|e es IH]; intros n Hroom; simpl in *.
  { f_equal. lia. }
  pose proof (entriesBytes_nonneg l es) as Hpos.
  destruct (Z.ltb_spec maxS (n + Z.of_nat (entrySize {| Labels := l; Entry := e |})));
    [lia|].
  rewrite IH by lia. simpl. f_equal. lia.
Qed.

Lemma readEntries_cut l fit e rest : ∀ n,
  n + entriesBytes l fit ≤ maxS →
  maxS < n + entriesBytes l fit + Z.of_nat (entrySize {| Labels := l; Entry := e |}) →
  readEntries maxS l (fit ++ e :: rest) n
  = (fit ++ [e], Z.of_nat (entrySize {| Labels := l; Entry := e |})).
Proof.
  induction fit as [|e0 fit IH]; intros n Hroom Hover; simpl in *.
  { apply Z.ltb_lt in Hover. rewrite Z.add_0_r in Hover. by rewrite Hover. }
  pose proof (entriesBytes_nonneg l fit) as Hpos.
  destruct (Z.ltb_spec maxS (n + Z.of_nat (entrySize {| Labels := l; Entry := e0 |})));
    [lia|].
  rewrite IH by lia. done.
Qed.

Lemma replayEntries_read t l es : ∀ P b w,
  sentItems (sent w) ++ batchItems t b ≡ₚ P →
  post (replayEntries build_Version c t l es b w)
    (λ b' w', bytes b' = (readEntries maxS l es (bytes b)).2 ∧
              sentItems (sent w') ++ batchItems t b'
              ≡ₚ P ++ entriesItems t l (readEntries maxS l es (bytes b)).1)
    (λ _, True).
Proof.
  induction es as [|e es IH]; intros P b w HP.
  { simpl. split; [done|]. by rewrite app_nil_r. }
  cbn [replayEntries readEntries]. unfold sizeBytesAfter. cbn [Labels Entry].
  destruct (maxS <? bytes b + Z.of_nat (entrySize {| Labels := l; Entry := e |})).
  - eapply post_bind; [apply sendBatch_returns|]. simpl. intros _ w1 Hs.
    split; [done|]. rewrite Hs, sentItems_cons. cbn [fst snd].
    rewrite (batchItems_replay_new t 0 _ {| Labels := l; Entry := e |}). simpl.
    rewrite <- HP. solve_Permutation.
  - eapply post_impl;
      [apply (IH (P ++ [(t, labelsMapToString l, e)])
                 (replay b {| Labels := l; Entry := e |}) w)| |done].
    + rewrite batchItems_replay. simpl. rewrite <- HP. solve_Permutation.
    + simpl. intros b' w' [Hbytes Hitems]. split; [done|].
      rewrite Hitems. unfold entriesItems. by rewrite <- app_assoc.
Qed.

Lemma replaySamples_read t seriesRecs refEntries : ∀ P b w,
  sentItems (sent w) ++ batchItems t b ≡ₚ P →
  post (replaySamples build_Version c t seriesRecs refEntries b w)
    (λ b' w', bytes b' = (samplesRead maxS t seriesRecs refEntries (bytes b)).2 ∧
              sentItems (sent w') ++ batchItems t b'
              ≡ₚ P ++ (samplesRead maxS t seriesRecs refEntries (bytes b)).1)
    (λ _, True).
Proof.
  induction refEntries as [|[ref es] rest IH]; intros P b w HP.
  { simpl. split; [done|]. by rewrite app_nil_r. }
  cbn [replaySamples samplesRead]. destruct (seriesRecs !! ref) as [l|]; [|by apply IH].
  eapply post_bind; [by apply (replayEntries_read t l es P)|].
  cbn beta. intros b1 w1 [Hbytes Hitems].
  eapply post_impl; [apply (IH _ b1 w1 Hitems)| |done].
  cbn beta. intros b' w' [Hbytes' Hitems']. rewrite Hbytes in Hbytes', Hitems'.
  cbn [fst snd]. split; [done|]. by rewrite Hitems', <- app_assoc.
Qed.

Lemma replayRecords_read t records : ∀ seriesRecs P b w,
  sentItems (sent w) ++ batchItems t b ≡ₚ P →
  post (replayRecords build_Version c t records seriesRecs b w)
    (λ b' w', bytes b' = (recordsRead maxS t records seriesRecs (bytes b)).2 ∧
              sentItems (sent w') ++ batchItems t b'
              ≡ₚ P ++ (recordsRead maxS t records seriesRecs (bytes b)).1)
    (λ _, True).
Proof.
  induction records as [|rec records IH]; intros seriesRecs P b w HP.
  { simpl. split; [done|]. by rewrite app_nil_r. }
  cbn [replayRecords recordsRead].
  eapply (post_bind _ _ _ (λ _ w1, sent w1 = sent w)).
  { by destruct (rec_decodeErr rec). }
  cbn beta. intros _ w1 Hs1.
  eapply post_bind.
  { apply (replaySamples_read t _ _ P). by rewrite Hs1. }
  cbn beta. intros b1 w2 [Hbytes Hitems].
  eapply post_impl; [apply (IH _ _ b1 w2 Hitems)| |done].
  cbn beta. intros b' w' [Hbytes' Hitems']. rewrite Hbytes in Hbytes', Hitems'.
  cbn [fst snd]. split; [done|]. by rewrite Hitems', <- app_assoc.
Qed.

Lemma replayTenants_read p tenantDirs : ∀ P w,
  sentItems (sent w) ≡ₚ P →
  post (replayTenants build_Version c p tenantDirs w)
    (λ _ w', sentItems (sent w') ≡ₚ P ++ tenantsRead maxS p tenantDirs)
    (λ _, True).
Proof.
  induction tenantDirs as [|d rest IH]; intros P w HP.
  { simpl. by rewrite app_nil_r. }
  cbn [replayTenants tenantsRead].
  destruct (wal_NewWalReader p d) as [err|records].
  { simpl. by rewrite app_nil_r. }
  rewrite bind_eq. cbn [timeNow].
  set (t := afterLastSlash d d). set (w1 := setTicks (S (ticks w)) w).
  eapply post_bind.
  { apply (replayRecords_read t records ∅ P (newBatch 0 (clock w (ticks w))) w1).
    rewrite batchItems_newBatch, app_nil_r. exact HP. }
  cbn beta. intros b w2 [_ Hitems].
  eapply post_bind; [apply sendBatch_returns|]. cbn beta. intros _ w3 Hs3.
  eapply post_impl;
    [apply (IH (P ++ (recordsRead maxS t records ∅ 0).1) w3)| |done].
  - rewrite Hs3, sentItems_cons. cbn [fst snd]. rewrite <- Hitems. solve_Permutation.
  - cbn beta. intros _ w' ->. by rewrite <- app_assoc.
Qed.

Lemma replayWAL_read p w :
  post (replayWAL build_Version c p w)
    (λ _ w', sentItems (sent w') ≡ₚ sentItems (sent w) ++ walRead c p)
    (λ _, True).
Proof.
  unfold replayWAL, walRead.
  set (base := path_Join p (WAL_Dir (cfg c)) (name c)).
  assert (Hrest : post
            (match tenantDirsOf p (filepath_Glob p (base +:+ "/*")) with
             | Some tenantDirs =>
                 if (length (filepath_Glob p (base +:+ "/*")) <? 1)%nat then mret None
                 else replayTenants build_Version c p tenantDirs
             | None => halt Panic
             end w)
            (λ _ w', sentItems (sent w')
                     ≡ₚ sentItems (sent w)
                        ++ match tenantDirsOf p (filepath_Glob p (base +:+ "/*")) with
                           | Some tenantDirs => tenantsRead maxS p tenantDirs
                           | None => []
                           end)
            (λ _, True)).
  { destruct (filepath_Glob p (base +:+ "/*")) as [|m matches] eqn:Hglob.
    - simpl. by rewrite app_nil_r.
    - destruct (tenantDirsOf p (m :: matches)) as [dirs|]; [|done].
      change (length (m :: matches) <? 1)%nat with false. cbv iota.
      by apply replayTenants_read. }
  destruct (os_Stat p base) as [isDir|err|err]; [exact Hrest| |exact Hrest].
  simpl. by rewrite app_nil_r.
Qed.

Lemma replayEntries_served t l es : ∀ n b w,
  populated b → answered (length (readEntries maxS l es (bytes b)).1 + n) w →
  ∃ b' w',
    replayEntries build_Version c t l es b w = Ok b' w' ∧ populated b' ∧
    bytes b' = (readEntries maxS l es (bytes b)).2 ∧ answered n w'.
Proof.
  induction es as [|e es IH]; intros n b w Hb Ha.
  { by exists b, w. }
  cbn [replayEntries readEntries] in *. unfold sizeBytesAfter. cbn [Labels Entry] in *.
  destruct (maxS <? bytes b + Z.of_nat (entrySize {| Labels := l; Entry := e |})).
  - destruct (sendBatch_answered build_Version c t b n w Hb Ha) as (r & w1 & Heq & Ha1).
    rewrite bind_eq, Heq. unfold client_newBatch. unfold_m. simpl.
    eexists _, _. split; [reflexivity|]. split; [apply populated_replay, populated_newBatch|].
    split; [done|]. by eapply answered_wire; [|exact Ha1].
  - apply (IH n (replay b {| Labels := l; Entry := e |}) w); [by apply populated_replay|].
    eapply answered_weaken; [|exact Ha]. simpl. lia.
Qed.

Lemma replaySamples_served t seriesRecs refEntries : ∀ n b w,
  populated b →
  answered (length (samplesRead maxS t seriesRecs refEntries (bytes b)).1 + n) w →
  ∃ b' w',
    replaySamples build_Version c t seriesRecs refEntries b w = Ok b' w' ∧ populated b' ∧
    bytes b' = (samplesRead maxS t seriesRecs refEntries (bytes b)).2 ∧ answered n w'.
Proof.
  induction refEntries as [|[ref es] rest IH]; intros n b w Hb Ha.
  { by exists b, w. }
  cbn [replaySamples samplesRead] in *.
  destruct (seriesRecs !! ref) as [l|]; [|by apply IH].
  cbn [fst snd] in Ha. rewrite length_app in Ha. unfold entriesItems in Ha.
  rewrite length_fmap in Ha.
  destruct (replayEntries_served t l es
              (length (samplesRead maxS t seriesRecs rest
                         (readEntries maxS l es (bytes b)).2).1 + n) b w Hb)
    as (b1 & w1 & Heq & Hb1 & Hbytes & Ha1).
  { eapply answered_weaken; [|exact Ha]. lia. }
  rewrite bind_eq, Heq. rewrite <- Hbytes in *. cbn [fst snd].
  by apply IH.
Qed.

Lemma replayRecords_served t records : ∀ seriesRecs n b w,
  populated b →
  answered (length (recordsRead maxS t records seriesRecs (bytes b)).1 + n) w →
  ∃ b' w',
    replayRecords build_Version c t records seriesRecs b w = Ok b' w' ∧ populated b' ∧
    answered n w'.
Proof.
  induction records as [|rec records IH]; intros seriesRecs n b w Hb Ha.
  { by exists b, w. }
  cbn [replayRecords recordsRead] in *. cbn [fst snd] in Ha. rewrite length_app in Ha.
  rewrite bind_eq.
  set (w1 := worldOf ((if rec_decodeErr rec is Some _
                       then logMsg Warn "failed to decode a wal record" else mret tt) w)).
  assert (Hw1 : (if rec_decodeErr rec is Some _
                 then logMsg Warn "failed to decode a wal record" else mret tt) w = Ok tt w1
                ∧ wire w1 = wire w).
  { subst w1. by destruct (rec_decodeErr rec). }
  destruct Hw1 as [-> Hwire1].
  set (sr := recordSeries seriesRecs (rec_Series rec)) in *.
  destruct (replaySamples_served t sr (rec_RefEntries rec)
              (length (recordsRead maxS t records sr
                         (samplesRead maxS t sr (rec_RefEntries rec) (bytes b)).2).1 + n)
              b w1 Hb)
    as (b1 & w2 & Heq & Hb1 & Hbytes & Ha2).
  { eapply answered_wire; [exact Hwire1|]. eapply answered_weaken; [|exact Ha]. lia. }
  rewrite bind_eq, Heq. rewrite <- Hbytes in Ha2. by apply IH.
Qed.

Lemma replayTenants_served p tenantDirs : ∀ w,
  answered (length (tenantsRead maxS p tenantDirs) + length tenantDirs) w →
  is_Some (resultOf (replayTenants build_Version c p tenantDirs w)).
Proof.
  induction tenantDirs as [|d rest IH]; intros w Ha; [by eexists|].
  cbn [replayTenants tenantsRead] in *.
  destruct (wal_NewWalReader p d) as [err|records]; [by eexists|].
  rewrite length_app in Ha. cbn [length] in Ha.
  rewrite bind_eq. cbn [timeNow].
  set (t := afterLastSlash d d) in *. set (w1 := setTicks (S (ticks w)) w).
  destruct (replayRecords_served t records ∅
              (S (length (tenantsRead maxS p rest) + length rest))
              (newBatch 0 (clock w (ticks w))) w1 (populated_newBatch _ _))
    as (b & w2 & Heq & Hb & Ha2).
  { eapply answered_wire; [|eapply answered_weaken; [|exact Ha]]; [done|]. simpl. lia. }
  rewrite bind_eq, Heq.
  destruct (sendBatch_answered build_Version c t b _ w2 Hb Ha2) as (r & w3 & Hsend & Ha3).
  rewrite bind_eq, Hsend. by apply IH.
Qed.

Lemma replayWAL_served p tenantDirs w :
  tenantDirsOf p (filepath_Glob p (path_Join p (WAL_Dir (cfg c)) (name c) +:+ "/*"))
  = Some tenantDirs →
  answered (length (walRead c p) + length tenantDirs) w →
  is_Some (resultOf (replayWAL build_Version c p w)).
Proof.
  unfold replayWAL, walRead.
  set (base := path_Join p (WAL_Dir (cfg c)) (name c)). intros Hdirs Ha.
  rewrite Hdirs in *.
  assert (Hrest : (∀ err, os_Stat p base ≠ StatNotExist err) →
            is_Some (resultOf
              ((if (length (filepath_Glob p (base +:+ "/*")) <? 1)%nat then mret None
                else replayTenants build_Version c p tenantDirs) w))).
  { intros Hbase. destruct (length (filepath_Glob p (base +:+ "/*")) <? 1)%nat;
      [by eexists|].
    apply replayTenants_served. by destruct (os_Stat p base) as [?|err|?];
      [|destruct (Hbase err)|]. }
  destruct (os_Stat p base) as [isDir|err|err]; [by apply Hrest|by eexists|by apply Hrest].
Qed.

End Reads.




(** The replay of four entries of 5, 7, 14 and 5 bytes from one sample
    record, with a maximum of 10: it reads the first two and sends each in a
    batch of its own. *)
Example walRead_of_an_overflowing_record :
  walRead Demo.theClient Overflowing.disk
  = [("t1", Demo.renderLabels {[ "job" := "x" ]}, Entry Overflowing.small);
     ("t1", Demo.renderLabels {[ "job" := "x" ]}, Entry Overflowing.medium)].
Proof. vm_compute. done. Qed.
